(** * SGA2029 core library: routing, filters, sorts, pagination, KPIs, CSV, explain

    A shallow embedding of [src/lib/core.ts] and the proofs of the properties
    its specification states.

    Conventions of the embedding.
    - A JavaScript string is the list of its UTF-16 code units ([str]); a code
      unit is a [Z] in [0, 65535].  ASCII literals are written [lit "..."].
    - A [number] that the code uses as an integer (cents, page numbers, array
      indices, years) is a [Z]; NaN, infinities and fractions are outside the
      model.  Where the code adds amounts up, the total is a [number] of its
      own type and the addition rounds as the addition of doubles does.
    - An optional field [x?: T] is an [option T]; [undefined] is [None].
    - A call that may raise returns a [completion]: [Normal v] or [Throw e]. *)

From Stdlib Require Import ZArith List String Ascii Bool Lia.
From Stdlib Require Import Permutation Sorted DecimalString.
Import ListNotations.
Open Scope Z_scope.

(* ===================================================================== *)
(** * Part I. The model                                                    *)
(* ===================================================================== *)

(** ** JavaScript strings and the built-ins the library calls *)
Module JS.

Definition char := Z.
Definition str := list char.

(** An ASCII literal as a JavaScript string. *)
Definition lit (s : string) : str :=
  List.map (fun a => Z.of_N (N_of_ascii a)) (list_ascii_of_string s).

Fixpoint str_eqb (s t : str) : bool :=
  match s, t with
  | [], [] => true
  | c :: s', d :: t' => (c =? d) && str_eqb s' t'
  | _, _ => false
  end.

(** [s < t] on strings: lexicographic on code units. *)
Fixpoint str_ltb (s t : str) : bool :=
  match s, t with
  | _, [] => false
  | [], _ :: _ => true
  | c :: s', d :: t' => (c <? d) || ((c =? d) && str_ltb s' t')
  end.

(** Truthiness of a string: the empty string is falsy. *)
Definition nonEmpty (s : str) : bool :=
  match s with [] => false | _ :: _ => true end.

(** Truthiness of an optional string: [undefined] and the empty string are
    falsy. *)
Definition truthy (o : option str) : bool :=
  match o with Some s => nonEmpty s | None => false end.

(** [o || e] with [e] the empty string. *)
Definition orEmpty (o : option str) : str :=
  match o with Some s => s | None => [] end.

(** [a === b] on values that are a string or [undefined]. *)
Definition optstr_eqb (a b : option str) : bool :=
  match a, b with
  | Some s, Some t => str_eqb s t
  | None, None => true
  | _, _ => false
  end.

(** [s.startsWith(p)]. *)
Fixpoint startsWith (s p : str) : bool :=
  match p, s with
  | [], _ => true
  | _ :: _, [] => false
  | d :: p', c :: s' => (c =? d) && startsWith s' p'
  end.

(** [s.includes(p)]. *)
Fixpoint includes (s p : str) : bool :=
  startsWith s p ||
  match s with
  | [] => false
  | _ :: s' => includes s' p
  end.

(** White space and line terminators: what [trim] strips and [\s] matches. *)
Definition isWhiteSpace (c : char) : bool :=
  ((9 <=? c) && (c <=? 13)) || (c =? 32) || (c =? 160) || (c =? 5760)
  || ((8192 <=? c) && (c <=? 8202)) || (c =? 8232) || (c =? 8233)
  || (c =? 8239) || (c =? 8287) || (c =? 12288) || (c =? 65279).

Fixpoint dropWhile (p : char -> bool) (s : str) : str :=
  match s with
  | [] => []
  | c :: s' => if p c then dropWhile p s' else s
  end.

Definition dropWhileEnd (p : char -> bool) (s : str) : str :=
  rev (dropWhile p (rev s)).

(** [s.trim()]. *)
Definition trim (s : str) : str :=
  dropWhileEnd isWhiteSpace (dropWhile isWhiteSpace s).

(** [l.join(sep)]. *)
Fixpoint join (sep : str) (l : list str) : str :=
  match l with
  | [] => []
  | [s] => s
  | s :: l' => s ++ sep ++ join sep l'
  end.

(** [String(n)] for an integer [n]. *)
Definition ofInt (n : Z) : str :=
  lit (NilZero.string_of_int (Z.to_int n)).

(** Lower-casing of the letters A-Z; it agrees with [toLowerCase] on strings
    of ASCII characters, which is where the examples below use it. *)
Definition asciiLower (s : str) : str :=
  List.map (fun c => if (65 <=? c) && (c <=? 90) then c + 32 else c) s.

(** Outcome of a call that may raise. *)
Inductive exn := TypeError | URIError.

Inductive completion (A : Type) :=
| Normal (a : A)
| Throw (e : exn).
Arguments Normal {A} a.
Arguments Throw {A} e.

Definition bind {A B} (m : completion A) (k : A -> completion B) : completion B :=
  match m with
  | Normal a => k a
  | Throw e => Throw e
  end.

End JS.
Import JS.

Notation "x <- m ;; k" := (bind m (fun x => k))
  (at level 61, m at next level, right associativity).

(** ** 0) Types *)

Inductive TxnType := allocation | expense | revenue | transfer.

Definition TxnType_eqb (a b : TxnType) : bool :=
  match a, b with
  | allocation, allocation | expense, expense
  | revenue, revenue | transfer, transfer => true
  | _, _ => false
  end.

Module Transaction.
Record t := mk {
  id : str;
  date : str;
  type : TxnType;
  amountCents : Z;
  vendor : option str;
  memo : option str;
  eventId : option str;
  billId : option str;
  link : option str
}.
End Transaction.

(** ** 5) Filters *)

(** [TxnType | "all"]. *)
Inductive TxnTypeOrAll := Only (t : TxnType) | All.

Module TxnFilter.
Record t := mk {
  type : option TxnTypeOrAll;
  from : option str;
  to : option str;
  search : option str;
  eventId : option str;
  billId : option str
}.
End TxnFilter.

Section Filter.

(** [String.prototype.toLowerCase]: the full Unicode mapping is not modelled,
    the filter is stated for any implementation of it. *)
Variable toLowerCase : str -> str.

(** The haystack of the search: the vendor, a space and the memo, each
    field replaced by the empty string when it is falsy, in lower case. *)
Definition hay (r : Transaction.t) : str :=
  toLowerCase (orEmpty (Transaction.vendor r) ++ lit " " ++ orEmpty (Transaction.memo r)).

(** The needle: [f.search], or the empty string when it is falsy, trimmed
    and in lower case. *)
Definition needleOf (f : TxnFilter.t) : str :=
  toLowerCase (trim (orEmpty (TxnFilter.search f))).

(** The callback of [rows.filter] in [filterTransactions]. *)
Definition keepRow (f : TxnFilter.t) (needle : str) (r : Transaction.t) : bool :=
  if match TxnFilter.type f with
     | Some (Only t) => negb (TxnType_eqb (Transaction.type r) t)
     | _ => false
     end
  then false
  else if truthy (TxnFilter.from f)
          && str_ltb (Transaction.date r) (orEmpty (TxnFilter.from f))
  then false
  else if truthy (TxnFilter.to f)
          && str_ltb (orEmpty (TxnFilter.to f)) (Transaction.date r)
  then false
  else if truthy (TxnFilter.eventId f)
          && negb (optstr_eqb (Transaction.eventId r) (TxnFilter.eventId f))
  then false
  else if truthy (TxnFilter.billId f)
          && negb (optstr_eqb (Transaction.billId r) (TxnFilter.billId f))
  then false
  else if nonEmpty needle
  then (if negb (includes (hay r) needle) then false else true)
  else true.

Definition filterTransactions (rows : list Transaction.t) (f : TxnFilter.t)
  : list Transaction.t :=
  let needle := needleOf f in
  List.filter (keepRow f needle) rows.

End Filter.

(** ** 2) Router *)

(** *** URI component coding ([encodeURIComponent], [decodeURIComponent]) *)
Module URI.

Definition isLead (c : char) : bool := (55296 <=? c) && (c <=? 56319).
Definition isTrail (c : char) : bool := (56320 <=? c) && (c <=? 57343).

(** The code point of a surrogate pair. *)
Definition pairCodePoint (hi lo : char) : Z :=
  (hi - 55296) * 1024 + (lo - 56320) + 65536.

(** The UTF-16 encoding of a code point. *)
Definition utf16Encode (cp : Z) : str :=
  if cp <? 65536 then [cp]
  else [(cp - 65536) / 1024 + 55296; (cp - 65536) mod 1024 + 56320].

(** The UTF-8 encoding of a code point. *)
Definition utf8Encode (cp : Z) : list Z :=
  if cp <? 128 then [cp]
  else if cp <? 2048 then [192 + cp / 64; 128 + cp mod 64]
  else if cp <? 65536 then
    [224 + cp / 4096; 128 + (cp / 64) mod 64; 128 + cp mod 64]
  else
    [240 + cp / 262144; 128 + (cp / 4096) mod 64;
     128 + (cp / 64) mod 64; 128 + cp mod 64].

Definition hexDigit (d : Z) : char := if d <? 10 then 48 + d else 55 + d.

(** ["%XX"], upper-case hexadecimal. *)
Definition percentOctet (b : Z) : str := [37; hexDigit (b / 16); hexDigit (b mod 16)].

Definition percentEncode (cp : Z) : str := flat_map percentOctet (utf8Encode cp).

Definition isAlpha (c : char) : bool :=
  ((65 <=? c) && (c <=? 90)) || ((97 <=? c) && (c <=? 122)).
Definition isDigit (c : char) : bool := (48 <=? c) && (c <=? 57).

(** The characters [encodeURIComponent] leaves as they are:
    letters, digits and [- _ . ! ~ * ' ( )]. *)
Definition isUnescaped (c : char) : bool :=
  isAlpha c || isDigit c
  || (c =? 45) || (c =? 95) || (c =? 46) || (c =? 33) || (c =? 126)
  || (c =? 42) || (c =? 39) || (c =? 40) || (c =? 41).

(** [encodeURIComponent(s)]: raises URIError on an unpaired surrogate. *)
Fixpoint encodeURIComponent (s : str) : completion str :=
  match s with
  | [] => Normal []
  | c :: t =>
    if isUnescaped c then
      r <- encodeURIComponent t ;; Normal (c :: r)
    else if isTrail c then Throw URIError
    else if isLead c then
      match t with
      | d :: t' =>
        if isTrail d then
          r <- encodeURIComponent t' ;; Normal (percentEncode (pairCodePoint c d) ++ r)
        else Throw URIError
      | [] => Throw URIError
      end
    else
      r <- encodeURIComponent t ;; Normal (percentEncode c ++ r)
  end.

Definition hexVal (c : char) : option Z :=
  if isDigit c then Some (c - 48)
  else if (65 <=? c) && (c <=? 70) then Some (c - 55)
  else if (97 <=? c) && (c <=? 102) then Some (c - 87)
  else None.

(** The input of the decoder read as literal code units and escaped octets. *)
Inductive token := Lit (c : char) | Oct (b : Z).

(** Every [%] must be followed by two hexadecimal digits. *)
Fixpoint octets (s : str) : completion (list token) :=
  match s with
  | [] => Normal []
  | c :: t =>
    if c =? 37 then
      match t with
      | h1 :: h2 :: t' =>
        match hexVal h1, hexVal h2 with
        | Some a, Some b => r <- octets t' ;; Normal (Oct (16 * a + b) :: r)
        | _, _ => Throw URIError
        end
      | _ => Throw URIError
      end
    else r <- octets t ;; Normal (Lit c :: r)
  end.

Definition isCont (b : Z) : bool := (128 <=? b) && (b <=? 191).

(** Escaped octets must form valid UTF-8: no stray continuation octet, no
    truncated or overlong sequence, no surrogate, nothing above U+10FFFF. *)
Fixpoint decodeTokens (l : list token) : completion str :=
  match l with
  | [] => Normal []
  | Lit c :: l' => r <- decodeTokens l' ;; Normal (c :: r)
  | Oct b :: l' =>
    if b <? 128 then r <- decodeTokens l' ;; Normal (b :: r)
    else if b <? 192 then Throw URIError
    else if b <? 224 then
      match l' with
      | Oct b1 :: l2 =>
        let cp := (b - 192) * 64 + (b1 - 128) in
        if isCont b1 && (128 <=? cp) then
          r <- decodeTokens l2 ;; Normal (utf16Encode cp ++ r)
        else Throw URIError
      | _ => Throw URIError
      end
    else if b <? 240 then
      match l' with
      | Oct b1 :: Oct b2 :: l3 =>
        let cp := (b - 224) * 4096 + (b1 - 128) * 64 + (b2 - 128) in
        if isCont b1 && isCont b2 && (2048 <=? cp)
           && negb ((55296 <=? cp) && (cp <=? 57343)) then
          r <- decodeTokens l3 ;; Normal (utf16Encode cp ++ r)
        else Throw URIError
      | _ => Throw URIError
      end
    else if b <? 248 then
      match l' with
      | Oct b1 :: Oct b2 :: Oct b3 :: l4 =>
        let cp := (b - 240) * 262144 + (b1 - 128) * 4096
                  + (b2 - 128) * 64 + (b3 - 128) in
        if isCont b1 && isCont b2 && isCont b3
           && (65536 <=? cp) && (cp <=? 1114111) then
          r <- decodeTokens l4 ;; Normal (utf16Encode cp ++ r)
        else Throw URIError
      | _ => Throw URIError
      end
    else Throw URIError
  end.

(** [decodeURIComponent(s)]: raises URIError on a malformed escape. *)
Definition decodeURIComponent (s : str) : completion str :=
  l <- octets s ;; decodeTokens l.

End URI.

(** *** The path of a parsed URL ([new URL(...).pathname])

    The URL parser of the platform is modelled for the references that stay
    clear of its host parser: no scheme and no leading double slash.  On such
    an input, resolved against [https://example.com], the parser never fails.
    The result is [None] where the model does not cover the input. *)
Module URL.
Import URI.

Definition isC0OrSpace (c : char) : bool := (0 <=? c) && (c <=? 32).
Definition isTabOrNewline (c : char) : bool := (c =? 9) || (c =? 10) || (c =? 13).

(** Leading and trailing C0 controls and spaces are stripped, then every tab
    and newline is removed.  The parser does this on the code points of its
    argument, see [pathnameOnBase]. *)
Definition preprocess (s : str) : str :=
  List.filter (fun c => negb (isTabOrNewline c))
    (dropWhileEnd isC0OrSpace (dropWhile isC0OrSpace s)).

(** The argument as the parser receives it, a string of code points: an
    unpaired surrogate has become U+FFFD before anything is stripped. *)
Fixpoint codePoints (s : str) : list Z :=
  match s with
  | [] => []
  | c :: t =>
    if isLead c then
      match t with
      | d :: t' => if isTrail d then pairCodePoint c d :: codePoints t'
                   else 65533 :: codePoints t
      | [] => [65533]
      end
    else if isTrail c then 65533 :: codePoints t
    else c :: codePoints t
  end.

Definition isSchemeChar (c : Z) : bool :=
  isAlpha c || isDigit c || (c =? 43) || (c =? 45) || (c =? 46).

Fixpoint schemeRest (s : list Z) : bool :=
  match s with
  | [] => false
  | c :: t => if c =? 58 then true
              else if isSchemeChar c then schemeRest t else false
  end.

(** The input starts with [alpha (alpha | digit | + | - | .)* :]. *)
Definition hasScheme (s : list Z) : bool :=
  match s with
  | c :: t => isAlpha c && schemeRest t
  | [] => false
  end.

(** [/] and, in a special scheme such as https, [\]. *)
Definition isSlash (c : Z) : bool := (c =? 47) || (c =? 92).

(** The path percent-encode set of the runtime: C0 controls, everything
    above U+007E, and U+0020, U+0022, U+0023, U+003C, U+003E, U+003F, U+0060,
    U+007B, U+007D.  (U+005E is left as it is.) *)
Definition inPathEncodeSet (c : Z) : bool :=
  (c <? 32) || (126 <? c) || (c =? 32) || (c =? 34) || (c =? 35) || (c =? 60)
  || (c =? 62) || (c =? 63) || (c =? 96) || (c =? 123) || (c =? 125).

Definition percentEncodePath (c : Z) : str :=
  if inPathEncodeSet c then percentEncode c else [c].

(** ["%2e"], in either case. *)
Definition isEncodedDot (a b c : char) : bool :=
  (a =? 37) && (b =? 50) && ((c =? 101) || (c =? 69)).

Definition isSingleDot (s : str) : bool :=
  match s with
  | [d] => d =? 46
  | [a; b; c] => isEncodedDot a b c
  | _ => false
  end.

Definition isDoubleDot (s : str) : bool :=
  match s with
  | [d; e] => (d =? 46) && (e =? 46)
  | [a; b; c; d] =>
    ((a =? 46) && isEncodedDot b c d) || (isEncodedDot a b c && (d =? 46))
  | [a; b; c; d; e; f] => isEncodedDot a b c && isEncodedDot d e f
  | _ => false
  end.

(** What the path state does with the segment in its buffer; [atSlash] tells
    whether the segment was closed by a slash. *)
Definition pushSegment (path : list str) (buffer : str) (atSlash : bool) : list str :=
  if isDoubleDot buffer then
    (if atSlash then removelast path else removelast path ++ [[]])
  else if isSingleDot buffer then
    (if atSlash then path else path ++ [[]])
  else path ++ [buffer].

(** The path state: segments end at a slash, the path ends at [?] or [#]. *)
Fixpoint pathState (input : list Z) (path : list str) (buffer : str) : list str :=
  match input with
  | [] => pushSegment path buffer false
  | c :: rest =>
    if isSlash c then pathState rest (pushSegment path buffer true) []
    else if (c =? 63) || (c =? 35) then pushSegment path buffer false
    else pathState rest path (buffer ++ percentEncodePath c)
  end.

Definition serializePath (path : list str) : str :=
  flat_map (fun seg => 47 :: seg) path.

(** [new URL(input, "https://example.com").pathname]. *)
Definition pathnameOnBase (input : str) : option (completion str) :=
  let s := preprocess (codePoints input) in
  if hasScheme s then None
  else
    match s with
    | [] => Some (Normal (lit "/"))
    | c :: rest =>
      if isSlash c then
        match rest with
        | d :: _ =>
          if isSlash d then None
          else Some (Normal (serializePath (pathState rest [] [])))
        | [] => Some (Normal (serializePath (pathState rest [] [])))
        end
      else if (c =? 63) || (c =? 35) then Some (Normal (lit "/"))
      else Some (Normal (serializePath (pathState s [] [])))
    end.

(** [new URL(input).pathname]: without a base an input that has no scheme is
    not a URL. *)
Definition pathnameNoBase (input : str) : option (completion str) :=
  if hasScheme (preprocess (codePoints input)) then None
  else Some (Throw TypeError).

End URL.

Module Route.
Inductive ParsedRoute :=
| home
| events
| eventDetail (id : str)
| ledger
| bills
| billDetail (id : str)
| proposals
| team
| admin.
End Route.
Import Route.

(** [s.split(sep)] for a separator of one character. *)
Fixpoint split (sep : char) (s : str) : list str :=
  match s with
  | [] => [[]]
  | c :: t =>
    if c =? sep then [] :: split sep t
    else match split sep t with
         | seg :: segs => (c :: seg) :: segs
         | [] => [[c]]
         end
  end.

(** The [replace] of [routeOf]: the slashes at both ends are removed. *)
Definition stripSlashes (s : str) : str :=
  dropWhileEnd (fun c => c =? 47) (dropWhile (fun c => c =? 47) s).

(** The segments of a path: [replace(...).split("/").filter(Boolean)]. *)
Definition pathParts (pathname : str) : list str :=
  List.filter nonEmpty (split 47 (stripSlashes pathname)).

(** The body of [routeOf] after the URL is parsed. *)
Definition routeOfPath (pathname : str) : completion ParsedRoute :=
  let parts := pathParts pathname in
  match parts with
  | [] => Normal home
  | p0 :: _ =>
    if str_eqb p0 (lit "events") then
      if truthy (nth_error parts 1)
      then id <- URI.decodeURIComponent (orEmpty (nth_error parts 1)) ;;
           Normal (eventDetail id)
      else Normal events
    else if str_eqb p0 (lit "ledger") then Normal ledger
    else if str_eqb p0 (lit "bills") then
      if truthy (nth_error parts 1)
      then id <- URI.decodeURIComponent (orEmpty (nth_error parts 1)) ;;
           Normal (billDetail id)
      else Normal bills
    else if str_eqb p0 (lit "proposals") then Normal proposals
    else if str_eqb p0 (lit "team") then Normal team
    else if str_eqb p0 (lit "admin") then Normal admin
    else Normal home
  end.

(** [url.pathname] for the [url] that [routeOf] builds. *)
Definition urlPathname (urlOrPath : str) : option (completion str) :=
  if includes urlOrPath (lit "://")
  then URL.pathnameNoBase urlOrPath
  else URL.pathnameOnBase urlOrPath.

Definition routeOf (urlOrPath : str) : option (completion ParsedRoute) :=
  match urlPathname urlOrPath with
  | None => None
  | Some (Throw e) => Some (Throw e)
  | Some (Normal pathname) => Some (routeOfPath pathname)
  end.

Definition hrefFor (route : ParsedRoute) : completion str :=
  match route with
  | home => Normal (lit "/")
  | events => Normal (lit "/events")
  | eventDetail id =>
    e <- URI.encodeURIComponent id ;; Normal (lit "/events/" ++ e)
  | ledger => Normal (lit "/ledger")
  | bills => Normal (lit "/bills")
  | billDetail id =>
    e <- URI.encodeURIComponent id ;; Normal (lit "/bills/" ++ e)
  | proposals => Normal (lit "/proposals")
  | team => Normal (lit "/team")
  | admin => Normal (lit "/admin")
  end.

(** ** 4) Seed data *)

(** Dollars to cents, for the whole-dollar amounts of the seeds. *)
Definition cents (n : Z) : Z := n * 100.

(** Of an event and of a bill the library reads the id and the title. *)
Module EventItem.
Record t := mk { id : str; title : str }.
End EventItem.

Module Bill.
Record t := mk { id : str; title : str }.
End Bill.

Definition events : list EventItem.t :=
  [ EventItem.mk (lit "e-boba") (lit "Boba Recharge & Refresh");
    EventItem.mk (lit "e-crown") (lit "The Crown Affair (Poker Night)");
    EventItem.mk (lit "e-serve") (lit "Jump Rope for Her") ].

Definition bills : list Bill.t :=
  [ Bill.mk (lit "b-001") (lit "Boba Recharge Supplies");
    Bill.mk (lit "b-002") (lit "The Crown Affair Prizes");
    Bill.mk (lit "b-003") (lit "Service Event Equipment") ].

Definition transactions : list Transaction.t :=
  [ Transaction.mk (lit "t-alloc-1") (lit "2025-08-28") allocation (cents 8000)
      None (Some (lit "Fall allocation")) None None None;
    Transaction.mk (lit "t-alloc-2") (lit "2025-10-01") allocation (cents 2000)
      None (Some (lit "Supplemental allocation")) None None None;
    Transaction.mk (lit "t-exp-1") (lit "2025-11-06") expense (- cents 900)
      (Some (lit "Boba Vendor LLC")) (Some (lit "Boba Recharge"))
      (Some (lit "e-boba")) (Some (lit "b-001")) (Some (lit "#"));
    Transaction.mk (lit "t-exp-2") (lit "2025-11-20") expense (- cents 480)
      (Some (lit "Print House")) (Some (lit "Posters & table tents"))
      (Some (lit "e-boba")) None (Some (lit "#"));
    Transaction.mk (lit "t-exp-3") (lit "2025-11-19") expense (- cents 650)
      (Some (lit "Decor Co")) (Some (lit "Poker Night decor"))
      (Some (lit "e-crown")) (Some (lit "b-002")) (Some (lit "#"));
    Transaction.mk (lit "t-rev-1") (lit "2025-11-21") revenue (cents 120)
      (Some (lit "Donations")) (Some (lit "Tip jar after boba")) None None None;
    Transaction.mk (lit "t-tr-1") (lit "2025-09-05") transfer (- cents 300)
      None (Some (lit "Shared cost to another org")) None None None ].

(** ** 5) Sorts and pagination *)

Inductive TxnSortKey := date_desc | date_asc | amount_desc | amount_asc.

(** [Array.prototype.sort(compare)].  The language requires a stable sort, so
    with a consistent comparator the resulting array is determined; the model
    is the stable insertion sort.  [compare a b <= 0] keeps [a] before [b]. *)
Fixpoint insert {A} (compare : A -> A -> Z) (x : A) (l : list A) : list A :=
  match l with
  | [] => [x]
  | y :: l' => if compare x y <=? 0 then x :: l else y :: insert compare x l'
  end.

Fixpoint sortBy {A} (compare : A -> A -> Z) (l : list A) : list A :=
  match l with
  | [] => []
  | x :: l' => insert compare x (sortBy compare l')
  end.

(** The comparator of each sort key. *)
Definition comparator (key : TxnSortKey) (a b : Transaction.t) : Z :=
  match key with
  | date_desc =>
    if str_ltb (Transaction.date a) (Transaction.date b) then 1
    else if str_ltb (Transaction.date b) (Transaction.date a) then -1 else 0
  | date_asc =>
    if str_ltb (Transaction.date b) (Transaction.date a) then 1
    else if str_ltb (Transaction.date a) (Transaction.date b) then -1 else 0
  | amount_desc => Transaction.amountCents b - Transaction.amountCents a
  | amount_asc => Transaction.amountCents a - Transaction.amountCents b
  end.

(** The array [sortTransactions] returns, as a function of the contents of
    the array it is given. *)
Definition sortTransactions (rows : list Transaction.t) (key : TxnSortKey)
  : list Transaction.t :=
  sortBy (comparator key) rows.

(** *** Arrays as objects

    [sortTransactions] copies its argument with [slice()] and sorts the copy
    in place.  A store of arrays makes the copy and the mutation explicit: a
    reference is an index into the store. *)
Module Store.

Definition ref := nat.
Definition store := list (list Transaction.t).

Definition read (h : store) (r : ref) : list Transaction.t := nth r h [].

Fixpoint write (h : store) (r : ref) (v : list Transaction.t) : store :=
  match h, r with
  | [], _ => []
  | _ :: h', O => v :: h'
  | a :: h', S r' => a :: write h' r' v
  end.

(** [rows.slice()]: a new array with the same elements. *)
Definition slice0 (rows : ref) (h : store) : ref * store :=
  (List.length h, h ++ [read h rows]).

(** [arr.sort(compare)]: sorts the array [arr] in place. *)
Definition sortInPlace (compare : Transaction.t -> Transaction.t -> Z)
    (arr : ref) (h : store) : store :=
  write h arr (sortBy compare (read h arr)).

Definition sortTransactions (rows : ref) (key : TxnSortKey) (h : store)
  : ref * store :=
  let (arr, h1) := slice0 rows h in
  let h2 :=
    match key with
    | date_desc => sortInPlace (comparator date_desc) arr h1
    | date_asc => sortInPlace (comparator date_asc) arr h1
    | amount_desc => sortInPlace (comparator amount_desc) arr h1
    | amount_asc => sortInPlace (comparator amount_asc) arr h1
    end in
  (arr, h2).

End Store.

Definition clamp (n lo hi : Z) : Z := Z.min hi (Z.max lo n).

(** [Math.ceil(a / b)] for integers [a] and [b > 0]. *)
Definition ceilDiv (a b : Z) : Z := - ((- a) / b).

(** [l.slice(start, end)], negative indices counting from the end. *)
Definition slice {T} (l : list T) (start end_ : Z) : list T :=
  let len := Z.of_nat (List.length l) in
  let k := if start <? 0 then Z.max (len + start) 0 else Z.min start len in
  let final := if end_ <? 0 then Z.max (len + end_) 0 else Z.min end_ len in
  firstn (Z.to_nat (final - k)) (skipn (Z.to_nat k) l).

Module Page.
Record t (T : Type) := mk {
  page : Z;
  pageSize : Z;
  total : Z;
  pages : Z;
  rows : list T
}.
Arguments mk {T}.
Arguments page {T}.
Arguments pageSize {T}.
Arguments total {T}.
Arguments pages {T}.
Arguments rows {T}.
End Page.

Definition paginate {T} (rows : list T) (page pageSize : Z) : Page.t T :=
  let total := Z.of_nat (List.length rows) in
  let pages := Z.max 1 (ceilDiv total (Z.max 1 pageSize)) in
  let p := clamp page 1 pages in
  let start := (p - 1) * pageSize in
  let end_ := Z.min (start + pageSize) total in
  Page.mk p pageSize total pages (slice rows start end_).

(** ** Sums of amounts

    A [number] of the language is an IEEE 754 double, and [+] rounds.  The
    amounts of the ledger are whole cents, so a running total is an integer
    that a double represents, an infinity or NaN.  (Zero carries no sign
    here: the totals start at [+0], and adding to [+0] never gives [-0].) *)
Inductive number :=
| Fin (z : Z)
| PosInf
| NegInf
| NaN.

(** [Number.MAX_SAFE_INTEGER]. *)
Definition MAX_SAFE_INTEGER : Z := 2 ^ 53 - 1.

(** The double nearest to the integer [z]: below [2 ^ 53] in size every
    integer is a double; above, the significand keeps 53 bits, a tie goes to
    the even significand, and what passes the largest double is an
    infinity. *)
Definition roundDouble (z : Z) : number :=
  let a := Z.abs z in
  if a <? 2 ^ 53 then Fin z
  else
    let e := Z.log2 a - 52 in
    let q := a / 2 ^ e in
    let r := a mod 2 ^ e in
    let half := 2 ^ (e - 1) in
    let q' := if r <? half then q
              else if half <? r then q + 1
              else if Z.even q then q else q + 1 in
    let m := q' * 2 ^ e in
    if 2 ^ 1024 <=? m then (if z <? 0 then NegInf else PosInf)
    else Fin (Z.sgn z * m).

(** [a + b]. *)
Definition addNumber (a b : number) : number :=
  match a, b with
  | Fin x, Fin y => roundDouble (x + y)
  | NaN, _ | _, NaN => NaN
  | PosInf, NegInf | NegInf, PosInf => NaN
  | PosInf, _ | _, PosInf => PosInf
  | NegInf, _ | _, NegInf => NegInf
  end.

(** ** 6) KPIs *)

Module KPIs.
Record t := mk {
  currentBalanceCents : number;
  inflowYTD : number;
  outflowYTD : number
}.
End KPIs.

(** One turn of the loop of [computeKPIs] on the state
    [(inflow, outflow, balance)]. *)
Definition kpiStep (yStr : str) (st : number * number * number) (r : Transaction.t)
  : number * number * number :=
  let '(inflow, outflow, balance) := st in
  let balance := addNumber balance (Fin (Transaction.amountCents r)) in
  if startsWith (Transaction.date r) yStr then
    if 0 <=? Transaction.amountCents r
    then (addNumber inflow (Fin (Transaction.amountCents r)), outflow, balance)
    else (inflow, addNumber outflow (Fin (Transaction.amountCents r)), balance)
  else (inflow, outflow, balance).

(** [thisYear] is what [new Date().getFullYear()] reads from the clock. *)
Definition computeKPIs (thisYear : Z) (rows : list Transaction.t) (year : option Z)
  : KPIs.t :=
  let y := match year with Some y => y | None => thisYear end in
  let yStr := ofInt y in
  let '(inflow, outflow, balance) :=
    fold_left (kpiStep yStr) rows (Fin 0, Fin 0, Fin 0) in
  KPIs.mk balance inflow outflow.

(** ** 7) CSV builder *)

(** [string | number | null | undefined]. *)
Inductive cell := CStr (s : str) | CNum (n : Z) | CNull | CUndefined.

Module CSVColumn.
Record t (T : Type) := mk {
  key : str;
  title : str;
  value : T -> Z -> cell
}.
Arguments mk {T}.
Arguments key {T}.
Arguments title {T}.
Arguments value {T}.
End CSVColumn.

Definition valueString (v : cell) : str :=
  match v with
  | CNull | CUndefined => []
  | CNum n => ofInt n
  | CStr s => s
  end.

Definition quote : char := 34.
Definition newline : char := 10.

(** The [replace] of [csvEscape]: every double quote becomes two. *)
Definition doubleQuotes (s : str) : str :=
  flat_map (fun c => if c =? quote then [quote; quote] else [c]) s.

Definition csvEscape (s delimiter : str) : str :=
  let needs := includes s delimiter || includes s [quote] || includes s [newline] in
  if negb needs then s
  else [quote] ++ doubleQuotes s ++ [quote].

(** [l.map((r, i) => f(r, i))], from index [i]. *)
Fixpoint mapi {A B} (f : A -> Z -> B) (i : Z) (l : list A) : list B :=
  match l with
  | [] => []
  | a :: l' => f a i :: mapi f (i + 1) l'
  end.

Definition toCSV {T} (rows : list T) (cols : list (CSVColumn.t T)) (delimiter : str)
  : str :=
  let head := join delimiter
                (List.map (fun c => csvEscape (CSVColumn.title c) delimiter) cols) in
  let body :=
    join [newline]
      (mapi (fun r i =>
               join delimiter
                 (List.map (fun c => csvEscape (valueString (CSVColumn.value c r i))
                                       delimiter) cols))
            0 rows) in
  head ++ [newline] ++ body.

(** ** 8) Explain-this-view composer *)

Definition labelTxnType (t : TxnType) : str :=
  match t with
  | allocation => lit "allocations"
  | expense => lit "expenses"
  | revenue => lit "revenues"
  | transfer => lit "transfers"
  end.

(** The curly quotes U+201C and U+201D of the templates. *)
Definition ldquo : char := 8220.
Definition rdquo : char := 8221.

(** [s.replace(/\s+,/g, ",")]: a run of white space right before a comma is
    dropped.  [pending] is the run of white space read and not yet emitted. *)
Fixpoint tidyFrom (pending s : str) : str :=
  match s with
  | [] => pending
  | c :: t =>
    if isWhiteSpace c then tidyFrom (pending ++ [c]) t
    else if c =? 44 then c :: tidyFrom [] t
    else pending ++ c :: tidyFrom [] t
  end.

Definition tidy (s : str) : str := tidyFrom [] s.

Definition sortLabel (sort : TxnSortKey) : str :=
  match sort with
  | date_desc => lit "most recent first"
  | date_asc => lit "oldest first"
  | amount_desc => lit "highest amount first"
  | amount_asc => lit "lowest amount first"
  end.

(** [events.find((e) => e.id === id)?.title ?? id]. *)
Definition eventTitleOr (id : str) : str :=
  match List.find (fun e => str_eqb (EventItem.id e) id) events with
  | Some ev => EventItem.title ev
  | None => id
  end.

Definition billTitleOr (id : str) : str :=
  match List.find (fun x => str_eqb (Bill.id x) id) bills with
  | Some b => Bill.title b
  | None => id
  end.

(** The array [parts] of [explainTransactionsView] when the sentence is put
    together; each [let] is one statement that may push a clause. *)
Definition explainParts (f : TxnFilter.t) : list str :=
  let parts := [] in
  let parts :=
    match TxnFilter.type f with
    | Some (Only t) => parts ++ [labelTxnType t]
    | _ => parts ++ [lit "all transaction types"]
    end in
  let parts :=
    if truthy (TxnFilter.from f) && truthy (TxnFilter.to f) then
      parts ++ [lit "from " ++ orEmpty (TxnFilter.from f)
                ++ lit " to " ++ orEmpty (TxnFilter.to f)]
    else if truthy (TxnFilter.from f) then
      parts ++ [lit "from " ++ orEmpty (TxnFilter.from f)]
    else if truthy (TxnFilter.to f) then
      parts ++ [lit "up to " ++ orEmpty (TxnFilter.to f)]
    else parts in
  let parts :=
    if truthy (TxnFilter.eventId f) then
      parts ++ [lit "for event " ++ [ldquo]
                ++ eventTitleOr (orEmpty (TxnFilter.eventId f)) ++ [rdquo]]
    else parts in
  let parts :=
    if truthy (TxnFilter.billId f) then
      parts ++ [lit "linked to bill " ++ [ldquo]
                ++ billTitleOr (orEmpty (TxnFilter.billId f)) ++ [rdquo]]
    else parts in
  let parts :=
    if truthy (TxnFilter.search f) && nonEmpty (trim (orEmpty (TxnFilter.search f)))
    then parts ++ [lit "matching " ++ [ldquo]
                   ++ trim (orEmpty (TxnFilter.search f)) ++ [rdquo]]
    else parts in
  parts.

Definition explainTransactionsView (f : TxnFilter.t) (sort : TxnSortKey) : str :=
  let parts := explainParts f in
  let sentence :=
    lit "Showing " ++ join (lit ", ") parts
    ++ (if nonEmpty (sortLabel sort) then lit ", " ++ sortLabel sort else [])
    ++ lit "." in
  tidy sentence.

(** ** 9) High-level query helper *)

Module TxnQuery.
Record t := mk {
  filter : TxnFilter.t;
  sort : TxnSortKey;
  page : Z;
  pageSize : Z
}.
End TxnQuery.

Definition queryTransactions (toLowerCase : str -> str) (q : TxnQuery.t)
  : Page.t Transaction.t :=
  let filtered := filterTransactions toLowerCase transactions (TxnQuery.filter q) in
  let sorted := sortTransactions filtered (TxnQuery.sort q) in
  paginate sorted (TxnQuery.page q) (TxnQuery.pageSize q).

(** ** Vocabulary of the specification *)

(** Lexicographic order on strings. *)
Inductive str_lt : str -> str -> Prop :=
| str_lt_nil : forall c t, str_lt [] (c :: t)
| str_lt_head : forall c d s t, c < d -> str_lt (c :: s) (d :: t)
| str_lt_tail : forall c s t, str_lt s t -> str_lt (c :: s) (c :: t).

Definition str_le (s t : str) : Prop := s = t \/ str_lt s t.

(** [p] occurs in [s]. *)
Definition Substring (p s : str) : Prop := exists a b, s = a ++ p ++ b.

(** The rows of [l2] that [l1] keeps, in the order of [l2]. *)
Inductive Subseq {A} : list A -> list A -> Prop :=
| Subseq_nil : Subseq [] []
| Subseq_skip : forall x l1 l2, Subseq l1 l2 -> Subseq l1 (x :: l2)
| Subseq_keep : forall x l1 l2, Subseq l1 l2 -> Subseq (x :: l1) (x :: l2).

(** An option of the filter is supplied when it is present and not empty. *)
Definition supplied (o : option str) (s : str) : Prop := o = Some s /\ s <> [].

(** The text the search looks into: vendor, a space, memo. *)
Definition searchText (r : Transaction.t) : str :=
  orEmpty (Transaction.vendor r) ++ lit " " ++ orEmpty (Transaction.memo r).

(** A row satisfies every supplied predicate of a filter. *)
Record satisfies (toLowerCase : str -> str) (f : TxnFilter.t) (r : Transaction.t)
  : Prop := {
  sat_type : forall t, TxnFilter.type f = Some (Only t) -> Transaction.type r = t;
  sat_from : forall d, supplied (TxnFilter.from f) d -> str_le d (Transaction.date r);
  sat_to : forall d, supplied (TxnFilter.to f) d -> str_le (Transaction.date r) d;
  sat_event : forall e, supplied (TxnFilter.eventId f) e ->
                        Transaction.eventId r = Some e;
  sat_bill : forall b, supplied (TxnFilter.billId f) b ->
                       Transaction.billId r = Some b;
  sat_search : forall q, TxnFilter.search f = Some q -> trim q <> [] ->
                         Substring (toLowerCase (trim q)) (toLowerCase (searchText r))
}.

(** The filter with another search option. *)
Definition withSearch (f : TxnFilter.t) (q : option str) : TxnFilter.t :=
  TxnFilter.mk (TxnFilter.type f) (TxnFilter.from f) (TxnFilter.to f) q
    (TxnFilter.eventId f) (TxnFilter.billId f).

(** The search predicate read to the letter: the lower-cased search string
    occurs in the lower-cased vendor directly followed by the memo. *)
Definition literalSearch (toLowerCase : str -> str) (q : str) (r : Transaction.t)
  : Prop :=
  Substring (toLowerCase q)
    (toLowerCase (orEmpty (Transaction.vendor r) ++ orEmpty (Transaction.memo r))).

(** The page numbers [1 .. pages]. *)
Definition pageNumbers (pages : Z) : list Z :=
  List.map Z.of_nat (seq 1 (Z.to_nat pages)).

(** The sum of the signed amounts of a list of transactions. *)
Definition sumAmounts (l : list Transaction.t) : Z :=
  fold_right (fun r acc => Transaction.amountCents r + acc) 0 l.

(** The sizes of the amounts, added up.  When this is at most
    [MAX_SAFE_INTEGER], no sum of some of the amounts is rounded. *)
Definition absTotal (l : list Z) : Z :=
  fold_right (fun x acc => Z.abs x + acc) 0 l.

Definition sumAbs (l : list Transaction.t) : Z :=
  absTotal (List.map Transaction.amountCents l).

(** The date of the row starts with the decimal digits of the year. *)
Definition datedIn (y : Z) (r : Transaction.t) : Prop :=
  exists rest, Transaction.date r = ofInt y ++ rest.

Definition inYear (y : Z) (r : Transaction.t) : bool :=
  startsWith (Transaction.date r) (ofInt y).

Definition amountOf : Transaction.t -> Z := Transaction.amountCents.
Definition dateOf : Transaction.t -> str := Transaction.date.

(** A string of 16-bit code units in which every surrogate is paired
    ([String.prototype.isWellFormed]). *)
Fixpoint isWellFormed (s : str) : bool :=
  match s with
  | [] => true
  | c :: t =>
    if URI.isLead c then
      match t with
      | d :: t' => URI.isTrail d && isWellFormed t'
      | [] => false
      end
    else negb (URI.isTrail c) && (0 <=? c) && (c <? 65536) && isWellFormed t
  end.

(** An id that a detail route carries through a URL: well formed, not empty
    and not one of the dot segments [.] and [..]. *)
Definition routableId (id : str) : Prop :=
  isWellFormed id = true /\ id <> [] /\ id <> lit "." /\ id <> lit "..".

Definition routable (r : ParsedRoute) : Prop :=
  match r with
  | eventDetail id | billDetail id => routableId id
  | _ => True
  end.

(** The first path segments that [routeOf] knows. *)
Definition routeKeywords : list str :=
  [lit "events"; lit "ledger"; lit "bills"; lit "proposals"; lit "team"; lit "admin"].

(** The clauses of the explain sentence, each one present or not. *)
Definition typeClause (f : TxnFilter.t) : str :=
  match TxnFilter.type f with
  | Some (Only t) => labelTxnType t
  | _ => lit "all transaction types"
  end.

Definition dateClause (f : TxnFilter.t) : option str :=
  match truthy (TxnFilter.from f), truthy (TxnFilter.to f) with
  | true, true => Some (lit "from " ++ orEmpty (TxnFilter.from f)
                        ++ lit " to " ++ orEmpty (TxnFilter.to f))
  | true, false => Some (lit "from " ++ orEmpty (TxnFilter.from f))
  | false, true => Some (lit "up to " ++ orEmpty (TxnFilter.to f))
  | false, false => None
  end.

Definition eventClause (f : TxnFilter.t) : option str :=
  if truthy (TxnFilter.eventId f)
  then Some (lit "for event " ++ [ldquo]
             ++ eventTitleOr (orEmpty (TxnFilter.eventId f)) ++ [rdquo])
  else None.

Definition billClause (f : TxnFilter.t) : option str :=
  if truthy (TxnFilter.billId f)
  then Some (lit "linked to bill " ++ [ldquo]
             ++ billTitleOr (orEmpty (TxnFilter.billId f)) ++ [rdquo])
  else None.

Definition searchClause (f : TxnFilter.t) : option str :=
  if nonEmpty (trim (orEmpty (TxnFilter.search f)))
  then Some (lit "matching " ++ [ldquo]
             ++ trim (orEmpty (TxnFilter.search f)) ++ [rdquo])
  else None.

Definition present (o : option str) : list str :=
  match o with Some c => [c] | None => [] end.

(** Type, date range, event link, bill link, quoted search, sort. *)
Definition clauses (f : TxnFilter.t) (sort : TxnSortKey) : list str :=
  [typeClause f] ++ present (dateClause f) ++ present (eventClause f)
  ++ present (billClause f) ++ present (searchClause f) ++ [sortLabel sort].

(** The sentence of the seed scenario. *)
Definition bobaSentence : str :=
  lit "Showing expenses, from 2025-11-01 to 2025-11-30, matching " ++ [ldquo]
  ++ lit "boba" ++ [rdquo] ++ lit ", most recent first.".

(** *** The CSV grammar

    Records are separated by newlines and fields by the delimiter; a field
    that starts with a double quote runs to the closing double quote, two
    double quotes inside it standing for one (RFC 4180, with the delimiter a
    parameter and the newline that [toCSV] writes as the record separator). *)
Module CSV.

Inductive state := FieldStart | Unquoted | Quoted | QuoteInQuoted.

Fixpoint parseFrom (d : char) (st : state) (field : str) (record : list str)
    (s : str) : list (list str) :=
  match s with
  | [] => [record ++ [field]]
  | c :: t =>
    match st with
    | FieldStart =>
      if c =? quote then parseFrom d Quoted [] record t
      else if c =? d then parseFrom d FieldStart [] (record ++ [[]]) t
      else if c =? newline then (record ++ [[]]) :: parseFrom d FieldStart [] [] t
      else parseFrom d Unquoted [c] record t
    | Unquoted =>
      if c =? d then parseFrom d FieldStart [] (record ++ [field]) t
      else if c =? newline then (record ++ [field]) :: parseFrom d FieldStart [] [] t
      else parseFrom d Unquoted (field ++ [c]) record t
    | Quoted =>
      if c =? quote then parseFrom d QuoteInQuoted field record t
      else parseFrom d Quoted (field ++ [c]) record t
    | QuoteInQuoted =>
      if c =? quote then parseFrom d Quoted (field ++ [quote]) record t
      else if c =? d then parseFrom d FieldStart [] (record ++ [field]) t
      else if c =? newline then (record ++ [field]) :: parseFrom d FieldStart [] [] t
      else parseFrom d Unquoted (field ++ [c]) record t
    end
  end.

(** The records of a text, each the list of its fields. *)
Definition parse (d : char) (s : str) : list (list str) :=
  parseFrom d FieldStart [] [] s.

End CSV.

(** The field values of a row: what each column function returned, as text. *)
Definition rowValues {T} (cols : list (CSVColumn.t T)) (r : T) (i : Z) : list str :=
  List.map (fun c => valueString (CSVColumn.value c r i)) cols.

(** A field needs quoting when it contains the delimiter, a double quote or
    a newline. *)
Definition needsQuoting (s delimiter : str) : Prop :=
  Substring delimiter s \/ In quote s \/ In newline s.

(** What may follow a field: the end of the text, the delimiter, a newline. *)
Inductive Boundary (d : char) : str -> Prop :=
| Boundary_end : Boundary d []
| Boundary_delimiter : forall t, Boundary d (d :: t)
| Boundary_newline : forall t, Boundary d (newline :: t).

(** The text of a record: its escaped fields joined by the delimiter. *)
Definition lineText (d : char) (vs : list str) : str :=
  join [d] (List.map (fun v => csvEscape v [d]) vs).

(** What the parser gives when a record ends: the end of the text or a
    newline followed by the next records. *)
Definition endOfLine (d : char) (record : list str) (rest : str) : list (list str) :=
  match rest with
  | [] => [record]
  | _ :: t => record :: CSV.parseFrom d CSV.FieldStart [] [] t
  end.

Definition ledgerColumns : list (CSVColumn.t Transaction.t) :=
  [ CSVColumn.mk (lit "date") (lit "Date") (fun r _ => CStr (Transaction.date r));
    CSVColumn.mk (lit "memo") (lit "Memo, vendor")
      (fun r _ => match Transaction.memo r with Some m => CStr m | None => CUndefined end);
    CSVColumn.mk (lit "amt") (lit "Amount") (fun r _ => CNum (Transaction.amountCents r)) ].

Definition pairColumns : list (CSVColumn.t (str * str)) :=
  [ CSVColumn.mk (lit "a") (lit "A") (fun r _ => CStr (fst r));
    CSVColumn.mk (lit "b") (lit "B") (fun r _ => CStr (snd r)) ].

(** A character of an encoded component: unescaped, or the percent sign. *)
Definition EncChar (c : char) : Prop := URI.isUnescaped c = true \/ c = 37.

(** An octet. *)
Definition isByte (b : Z) : Prop := 0 <= b < 256.

(** A Unicode scalar value: a code point that is not a surrogate. *)
Definition isScalar (cp : Z) : Prop :=
  0 <= cp < 1114112 /\ ~ (55296 <= cp <= 57343).

(** Rows, filters and columns of the examples. *)
Definition bobaFilter : TxnFilter.t :=
  TxnFilter.mk (Some (Only expense)) (Some (lit "2025-11-01"))
    (Some (lit "2025-11-30")) (Some (lit "boba")) None None.

Definition abcdRow : Transaction.t :=
  Transaction.mk (lit "t-1") (lit "2025-11-06") expense (-100)
    (Some (lit "ab")) (Some (lit "cd")) None None None.

Definition unknownEventFilter : TxnFilter.t :=
  TxnFilter.mk None None None None (Some (lit "e-gala")) (Some (lit "b-404")).

(** Three rows of the year 2025 with the amounts [2 ^ 53], [-1] and [1]. *)
Definition largeRows : list Transaction.t :=
  List.map (fun a => Transaction.mk (lit "t") (lit "2025-01-01") transfer a
                       None None None None None)
    [2 ^ 53; -1; 1].

(* --------------------------------------------------------------------- *)
(** ** Further parts of the library: utilities, invite gate, linking
       helpers, self-test *)
(* --------------------------------------------------------------------- *)

(** ** 1) Utilities *)

(** [sum(arr)]: the loop adds the elements from index 0 up. *)
Definition sum (arr : list number) : number := fold_left addNumber arr (Fin 0).

(** [iso.slice(0, 10)]. *)
Definition yyyyMmDd (iso : str) : str := slice iso 0 10.

(** ** 3) Invite gate *)

(** The two variables of [process.env] that the gate reads. *)
Module Env.
Record t := mk {
  NEXT_PUBLIC_ALLOWED_EMAILS : option str;
  ALLOWED_EMAILS : option str
}.
End Env.

(** The separators of the list of emails: the class [[,\s]]. *)
Definition isListSeparator (c : char) : bool := (c =? 44) || isWhiteSpace c.

(** [s.split(/[,\s]+/)]: the string is cut at every maximal run of
    separators.  [cur] is the piece being read, [inRun] tells that the last
    character read was a separator. *)
Fixpoint splitRunsFrom (cur : str) (inRun : bool) (s : str) : list str :=
  match s with
  | [] => [cur]
  | c :: t =>
    if isListSeparator c then
      (if inRun then splitRunsFrom cur true t else cur :: splitRunsFrom [] true t)
    else splitRunsFrom (cur ++ [c]) false t
  end.

Definition splitRuns (s : str) : list str := splitRunsFrom [] false s.

Definition FALLBACK_ALLOWED : list str :=
  [ lit "2029president@highpoint.edu";
    lit "2029vp@highpoint.edu";
    lit "2029treasurer@highpoint.edu";
    lit "2029social@highpoint.edu";
    lit "2029marketing@highpoint.edu" ].

Definition INVITE_KEY : str := lit "sga2029.invite".

(** [arr.includes(s)] on an array of strings. *)
Definition arrayIncludes (arr : list str) (s : str) : bool :=
  existsb (fun x => str_eqb x s) arr.

(** 32-bit integers: [ToInt32], [ToUint32] and [Math.imul]. *)
Definition toInt32 (z : Z) : Z := (z + 2147483648) mod 4294967296 - 2147483648.
Definition toUint32 (z : Z) : Z := z mod 4294967296.
Definition imul (a b : Z) : Z := toInt32 (toInt32 a * toInt32 b).

(** A digit of [toString(16)]: lower-case hexadecimal. *)
Definition hexChar (d : Z) : char := if d <? 10 then 48 + d else 87 + d.

Fixpoint hexFrom (fuel : nat) (n : Z) (acc : str) : str :=
  match fuel with
  | O => acc
  | S fuel' =>
    let acc' := hexChar (n mod 16) :: acc in
    if n <? 16 then acc' else hexFrom fuel' (n / 16) acc'
  end.

(** [n.toString(16)] for an integer [n >= 0]; a digit takes at least one of
    the [log2 n + 1] bits of [n]. *)
Definition toString16 (n : Z) : str := hexFrom (S (Z.to_nat (Z.log2 n))) n [].

(** One turn of the loop of [hashEmail]: [h ^= c; h = Math.imul(h, 16777619)]. *)
Definition hashStep (h : Z) (c : char) : Z :=
  let h := toInt32 (Z.lxor (toInt32 h) (toInt32 c)) in
  imul h 16777619.

(** The browser storage as the gate sees it: whether there is a window,
    whether reaching [localStorage] raises, and the stored items. *)
Module Storage.

Record t := mk {
  isBrowser : bool;
  throws : bool;
  items : list (str * str)
}.

Definition getItem (key : str) (l : list (str * str)) : option str :=
  match List.find (fun kv => str_eqb (fst kv) key) l with
  | Some kv => Some (snd kv)
  | None => None
  end.

Definition removeItem (key : str) (l : list (str * str)) : list (str * str) :=
  List.filter (fun kv => negb (str_eqb (fst kv) key)) l.

Definition setItem (key val : str) (l : list (str * str)) : list (str * str) :=
  (key, val) :: removeItem key l.

(** [storage.get]: [null] off the browser and when the access raises. *)
Definition get (key : str) (st : t) : option str :=
  if negb (isBrowser st) then None
  else if throws st then None
  else getItem key (items st).

Definition set (key val : str) (st : t) : t :=
  if negb (isBrowser st) then st
  else if throws st then st
  else mk (isBrowser st) (throws st) (setItem key val (items st)).

Definition remove (key : str) (st : t) : t :=
  if negb (isBrowser st) then st
  else if throws st then st
  else mk (isBrowser st) (throws st) (removeItem key (items st)).

End Storage.

Module SignIn.
Record t := mk { ok : bool; reason : option str }.
End SignIn.

Section Invite.

Variable toLowerCase : str -> str.
Variable env : Env.t.

(** [process.env.NEXT_PUBLIC_ALLOWED_EMAILS || process.env.ALLOWED_EMAILS || e]
    with [e] the empty string. *)
Definition allowedSource : str :=
  if truthy (Env.NEXT_PUBLIC_ALLOWED_EMAILS env)
  then orEmpty (Env.NEXT_PUBLIC_ALLOWED_EMAILS env)
  else if truthy (Env.ALLOWED_EMAILS env)
  then orEmpty (Env.ALLOWED_EMAILS env)
  else [].

Definition allowedEnv : list str :=
  List.filter nonEmpty
    (List.map (fun s => toLowerCase (trim s)) (splitRuns allowedSource)).

Definition ALLOWED_EMAILS : list str :=
  slice (match allowedEnv with [] => FALLBACK_ALLOWED | _ :: _ => allowedEnv end) 0 5.

(** [ALLOWED_EMAILS.slice()]: a copy. *)
Definition allowedEmails : list str :=
  slice ALLOWED_EMAILS 0 (Z.of_nat (List.length ALLOWED_EMAILS)).

Definition hashEmail (email : str) : str :=
  let s := toLowerCase email in
  let h := fold_left hashStep s 2166136261 in
  lit "h" ++ toString16 (toUint32 h).

Definition signIn (email : str) (st : Storage.t) : SignIn.t * Storage.t :=
  let e := toLowerCase (trim email) in
  if negb (includes e (lit "@")) then
    (SignIn.mk false (Some (lit "Invalid email")), st)
  else if negb (arrayIncludes ALLOWED_EMAILS e) then
    (SignIn.mk false (Some (lit "Not invited")), st)
  else
    let token := e ++ lit "." ++ hashEmail e in
    (SignIn.mk true None, Storage.set INVITE_KEY token st).

Definition signOut (st : Storage.t) : Storage.t := Storage.remove INVITE_KEY st.

Definition isInvited (st : Storage.t) : bool :=
  let token := Storage.get INVITE_KEY st in
  if negb (truthy token) then false
  else
    let parts := split 46 (orEmpty token) in
    let email := nth_error parts 0 in
    let h := nth_error parts 1 in
    if negb (truthy email) || negb (truthy h) then false
    else arrayIncludes ALLOWED_EMAILS (orEmpty email)
         && optstr_eqb h (Some (hashEmail (orEmpty email))).

Definition currentInviteEmail (st : Storage.t) : option str :=
  let token := Storage.get INVITE_KEY st in
  if negb (truthy token) then None
  else
    let parts := split 46 (orEmpty token) in
    let email := nth_error parts 0 in
    let h := nth_error parts 1 in
    if negb (truthy email) || negb (optstr_eqb h (Some (hashEmail (orEmpty email))))
    then None
    else email.

End Invite.

(** ** 6) Linking helpers *)

Definition linkBillTransactions (billId : str) (rows : list Transaction.t)
  : list Transaction.t :=
  List.filter (fun r => optstr_eqb (Transaction.billId r) (Some billId)) rows.

Definition linkEventTransactions (eventId : str) (rows : list Transaction.t)
  : list Transaction.t :=
  List.filter (fun r => optstr_eqb (Transaction.eventId r) (Some eventId)) rows.

(** ** 10) Dev self-test *)

(** A transaction type as the string it is. *)
Definition typeName (t : TxnType) : str :=
  match t with
  | allocation => lit "allocation"
  | expense => lit "expense"
  | revenue => lit "revenue"
  | transfer => lit "transfer"
  end.

(** The loop of [selfTest] over the sorted rows: it stops at the first amount
    that is greater than the next and tells whether there is one. *)
Fixpoint hasDescent (l : list Transaction.t) : bool :=
  match l with
  | [] => false
  | a :: t =>
    match t with
    | b :: _ =>
      if Transaction.amountCents b <? Transaction.amountCents a then true
      else hasDescent t
    | [] => false
    end
  end.

(** A call of [routeOf] followed by the rest of the function. *)
Definition andThen {A B} (m : option (completion A))
    (k : A -> option (completion B)) : option (completion B) :=
  match m with
  | Some (Normal a) => k a
  | Some (Throw e) => Some (Throw e)
  | None => None
  end.

Section SelfTest.

Variable toLowerCase : str -> str.
Variable env : Env.t.

(** [formatMoney] prints through [Intl.NumberFormat], which is not modelled:
    the self-test is stated for any printer. *)
Variable formatMoney : Z -> str.

Definition selfTestColumns : list (CSVColumn.t Transaction.t) :=
  [ CSVColumn.mk (lit "date") (lit "Date") (fun r _ => CStr (Transaction.date r));
    CSVColumn.mk (lit "type") (lit "Type") (fun r _ => CStr (typeName (Transaction.type r)));
    CSVColumn.mk (lit "amt") (lit "Amount")
      (fun r _ => CStr (formatMoney (Transaction.amountCents r))) ].

Definition selfTest : option (completion (list str)) :=
  let issues : list str := [] in
  andThen (routeOf (lit "/")) (fun r1 =>
  let issues :=
    match r1 with
    | home => issues
    | _ => issues ++ [lit "routeOf('/') failed"]
    end in
  andThen (routeOf (lit "/events")) (fun r2 =>
  let issues :=
    match r2 with
    | Route.events => issues
    | _ => issues ++ [lit "routeOf('/events') failed"]
    end in
  andThen (routeOf (lit "/events/e-boba")) (fun r3 =>
  let issues :=
    match r3 with
    | eventDetail id =>
      if str_eqb id (lit "e-boba") then issues
      else issues ++ [lit "routeOf('/events/:id') failed"]
    | _ => issues ++ [lit "routeOf('/events/:id') failed"]
    end in
  let a := allowedEmails toLowerCase env in
  let issues :=
    if negb (Nat.eqb (List.length a) 5)
    then issues ++ [lit "allowedEmails length !== 5"] else issues in
  let onlyExp :=
    filterTransactions toLowerCase transactions
      (TxnFilter.mk (Some (Only expense)) None None None None None) in
  let issues :=
    if negb (forallb (fun x => TxnType_eqb (Transaction.type x) expense) onlyExp)
    then issues ++ [lit "filter by expense failed"] else issues in
  let asc := sortTransactions transactions amount_asc in
  let issues :=
    if hasDescent asc then issues ++ [lit "amount_asc sort failed"] else issues in
  (* the check on [computeKPIs(transactions, 2025)] asks whether the balance
     is a number, which it is by its type: it adds no issue *)
  let csv := toCSV (slice transactions 0 2) selfTestColumns (lit ",") in
  let issues :=
    if negb (includes csv (lit "Date,Type,Amount"))
    then issues ++ [lit "CSV header failed"] else issues in
  let expl :=
    explainTransactionsView
      (TxnFilter.mk (Some (Only expense)) (Some (lit "2025-11-01"))
         (Some (lit "2025-11-30")) (Some (lit "boba")) None None) date_desc in
  let issues :=
    if negb (includes expl (lit "Showing expenses"))
    then issues ++ [lit "Explain view failed"] else issues in
  Some (Normal issues)))).

End SelfTest.

(** ** Vocabulary of the further properties *)

(** A hexadecimal digit as [toString(16)] writes it. *)
Definition isHexChar (c : char) : Prop := 48 <= c <= 57 \/ 97 <= c <= 102.

(** The number that a string of lower-case hexadecimal digits writes. *)
Definition hexValue (s : str) : Z :=
  fold_left (fun acc c => acc * 16 + (if c <? 58 then c - 48 else c - 87)) s 0.

(** A storage that works: in the browser, and [localStorage] does not raise. *)
Definition working (st : Storage.t) : Prop :=
  Storage.isBrowser st = true /\ Storage.throws st = false.

(** Environments and storages of the examples. *)
Definition defaultEnv : Env.t := Env.mk None None.
Definition localEnv : Env.t := Env.mk (Some (lit "user@localhost, admin@intranet")) None.
Definition browserStorage : Storage.t := Storage.mk true false [].
Definition serverStorage : Storage.t := Storage.mk false false [].

(** The filter that names a bill and nothing else, and the one for an event. *)
Definition billFilter (id : str) : TxnFilter.t :=
  TxnFilter.mk None None None None None (Some id).

Definition eventFilter (id : str) : TxnFilter.t :=
  TxnFilter.mk None None None None (Some id) None.

(** The three aggregates, added field by field. *)
Definition addKPIs (a b : KPIs.t) : KPIs.t :=
  KPIs.mk (addNumber (KPIs.currentBalanceCents a) (KPIs.currentBalanceCents b))
    (addNumber (KPIs.inflowYTD a) (KPIs.inflowYTD b))
    (addNumber (KPIs.outflowYTD a) (KPIs.outflowYTD b)).

(** A number that is neither negative nor NaN. *)
Definition nonNegative (n : number) : Prop :=
  match n with
  | Fin z => 0 <= z
  | PosInf => True
  | NegInf | NaN => False
  end.

(** White space directly before a comma, somewhere in the string. *)
Fixpoint wsBeforeComma (s : str) : bool :=
  match s with
  | [] => false
  | c :: t =>
    match t with
    | d :: _ => (isWhiteSpace c && (d =? 44)) || wsBeforeComma t
    | [] => false
    end
  end.

(** Nothing of the filter restricts or adds a clause. *)
Definition nothingSupplied (f : TxnFilter.t) : Prop :=
  (TxnFilter.type f = None \/ TxnFilter.type f = Some All)
  /\ truthy (TxnFilter.from f) = false /\ truthy (TxnFilter.to f) = false
  /\ truthy (TxnFilter.eventId f) = false /\ truthy (TxnFilter.billId f) = false
  /\ trim (orEmpty (TxnFilter.search f)) = [].

(** Where [routeOf] lands on the path that [hrefFor] gives for a detail route
    with the id [id]: on the detail route itself, except for the ids that a
    path cannot carry. *)
Definition landing (detail : str -> ParsedRoute) (list : ParsedRoute) (id : str)
  : ParsedRoute :=
  if str_eqb id [] || str_eqb id (lit ".") then list
  else if str_eqb id (lit "..") then home
  else detail id.

(** A character that is neither white space nor a comma. *)
Definition solid (c : char) : Prop := isWhiteSpace c = false /\ (c =? 44) = false.

(** A filter naming an event id that holds a space before a comma. *)
Definition spacedIdFilter : TxnFilter.t :=
  TxnFilter.mk None None None None (Some (lit "a ,b")) None.

(** The references that the URL model covers: no scheme, and no two slashes
    (of either kind) at the start. *)
Definition startsWithTwoSlashes (u : str) : bool :=
  match u with
  | c :: d :: _ => URL.isSlash c && URL.isSlash d
  | _ => false
  end.

Definition pathReference (u : str) : Prop :=
  URL.hasScheme (URL.codePoints u) = false /\ startsWithTwoSlashes u = false.

(* ===================================================================== *)
(** * Part II. Properties                                                  *)
(* ===================================================================== *)

Example ofInt_2025 : ofInt 2025 = lit "2025".
Proof. reflexivity. Qed.

(** ** Strings *)

Lemma str_eqb_eq (s t : str) : str_eqb s t = true <-> s = t.
Proof.
  revert t; induction s as [|c s IH]; intros [|d t]; simpl; split;
    try congruence; try reflexivity.
  - intros H. apply andb_true_iff in H as [H1 H2].
    apply Z.eqb_eq in H1. apply IH in H2. congruence.
  - intros H. injection H as -> ->. rewrite Z.eqb_refl. simpl. now apply IH.
Qed.

Lemma str_eqb_refl (s : str) : str_eqb s s = true.
Proof. now apply str_eqb_eq. Qed.

Lemma str_eqb_neq (s t : str) : str_eqb s t = false <-> s <> t.
Proof.
  split.
  - intros H E. apply str_eqb_eq in E. congruence.
  - intros H. destruct (str_eqb s t) eqn:E; [|reflexivity].
    apply str_eqb_eq in E. contradiction.
Qed.

Lemma optstr_eqb_eq (a b : option str) : optstr_eqb a b = true <-> a = b.
Proof.
  destruct a as [s|], b as [t|]; simpl; try (split; congruence).
  rewrite str_eqb_eq. split; congruence.
Qed.

Lemma str_ltb_lt (s t : str) : str_ltb s t = true <-> str_lt s t.
Proof.
  revert t; induction s as [|c s IH]; intros [|d t]; simpl.
  - split; [discriminate | inversion 1].
  - split; [constructor | reflexivity].
  - split; [discriminate | inversion 1].
  - split.
    + intros H. apply orb_true_iff in H as [H|H].
      * apply Z.ltb_lt in H. now apply str_lt_head.
      * apply andb_true_iff in H as [H1 H2]. apply Z.eqb_eq in H1. subst d.
        apply str_lt_tail. now apply IH.
    + intros H. inversion H; subst.
      * apply orb_true_iff. left. now apply Z.ltb_lt.
      * apply orb_true_iff. right. rewrite Z.eqb_refl. simpl. now apply IH.
Qed.

(** The order is total: [s < t] fails exactly when [t <= s]. *)
Lemma str_ltb_false_le (s t : str) : str_ltb s t = false <-> str_le t s.
Proof.
  revert t; induction s as [|c s IH]; intros [|d t]; simpl.
  - split; [now left | reflexivity].
  - split; [discriminate | intros [H|H]; [discriminate | inversion H]].
  - split; [right; constructor | reflexivity].
  - rewrite orb_false_iff, andb_false_iff, Z.ltb_ge, Z.eqb_neq, IH.
    split.
    + intros [H1 [H2|H2]].
      * right. apply str_lt_head. lia.
      * destruct (Z.eq_dec c d) as [->|N].
        -- destruct H2 as [->|H2]; [now left | right; now apply str_lt_tail].
        -- right. apply str_lt_head. lia.
    + intros [H|H].
      * injection H as -> ->. split; [lia | right; now left].
      * inversion H; subst.
        -- split; [lia | left; lia].
        -- split; [lia | right; now right].
Qed.

Lemma startsWith_spec (s p : str) : startsWith s p = true <-> exists b, s = p ++ b.
Proof.
  revert s; induction p as [|d p IH]; intros s.
  - split; [intros _; now exists s | intros _; now destruct s].
  - destruct s as [|c s]; simpl.
    + split; [discriminate | intros [b H]; discriminate].
    + rewrite andb_true_iff, Z.eqb_eq, IH. split.
      * intros [-> [b ->]]. now exists b.
      * intros [b H]. injection H as -> ->. split; [reflexivity | now exists b].
Qed.

Lemma includes_spec (s p : str) : includes s p = true <-> Substring p s.
Proof.
  unfold Substring. induction s as [|c s IH].
  - cbn [includes]. rewrite orb_false_r, startsWith_spec. split.
    + intros [b H]. now exists [], b.
    + intros [a [b H]]. destruct a; [now exists b | discriminate].
  - cbn [includes]. rewrite orb_true_iff, startsWith_spec, IH. split.
    + intros [[b H]|[a [b H]]].
      * now exists [], b.
      * exists (c :: a), b. simpl. now rewrite H.
    + intros [[|c' a] [b H]].
      * left. now exists b.
      * right. injection H as -> ->. now exists a, b.
Qed.

Lemma Substring_nil (s : str) : Substring [] s.
Proof. now exists [], s. Qed.

Lemma includes_nil (s : str) : includes s [] = true.
Proof. apply includes_spec, Substring_nil. Qed.

Lemma nonEmpty_false (s : str) : nonEmpty s = false <-> s = [].
Proof. destruct s; simpl; split; congruence. Qed.

Lemma nonEmpty_true (s : str) : nonEmpty s = true <-> s <> [].
Proof. destruct s; simpl; split; congruence. Qed.

Lemma truthy_orEmpty (o : option str) :
  truthy o = true -> supplied o (orEmpty o).
Proof.
  unfold supplied. destruct o as [s|]; simpl; [|discriminate].
  rewrite nonEmpty_true. now split.
Qed.

Lemma truthy_false (o : option str) s : truthy o = false -> ~ supplied o s.
Proof.
  intros H [E N]. subst o. simpl in H. apply nonEmpty_false in H. contradiction.
Qed.

Lemma trim_nil : trim [] = [].
Proof. reflexivity. Qed.

(** ** Filter *)

Lemma TxnType_eqb_eq (a b : TxnType) : TxnType_eqb a b = true <-> a = b.
Proof. destruct a, b; simpl; split; congruence. Qed.

Lemma if_false_true (c x : bool) :
  (if c then false else x) = true <-> c = false /\ x = true.
Proof. destruct c, x; simpl; intuition congruence. Qed.

Lemma Subseq_filter {A} (p : A -> bool) (l : list A) : Subseq (List.filter p l) l.
Proof.
  induction l as [|x l IH]; simpl.
  - constructor.
  - destruct (p x); now constructor.
Qed.

Lemma type_test (f : TxnFilter.t) (r : Transaction.t) :
  match TxnFilter.type f with
  | Some (Only t) => negb (TxnType_eqb (Transaction.type r) t)
  | _ => false
  end = false
  <-> (forall t, TxnFilter.type f = Some (Only t) -> Transaction.type r = t).
Proof.
  destruct (TxnFilter.type f) as [[t|]|].
  - rewrite negb_false_iff, TxnType_eqb_eq. split.
    + intros H t' E. congruence.
    + intros H. now apply H.
  - split; [intros _ t E; discriminate | reflexivity].
  - split; [intros _ t E; discriminate | reflexivity].
Qed.

Lemma from_test (o : option str) (d : str) :
  truthy o && str_ltb d (orEmpty o) = false
  <-> (forall b, supplied o b -> str_le b d).
Proof.
  destruct (truthy o) eqn:T; simpl.
  - rewrite str_ltb_false_le. apply truthy_orEmpty in T. split.
    + intros H b [E _]. destruct T as [E' _]. congruence.
    + intros H. now apply H.
  - split; [|reflexivity]. intros _ b S. now apply truthy_false in S.
Qed.

Lemma to_test (o : option str) (d : str) :
  truthy o && str_ltb (orEmpty o) d = false
  <-> (forall b, supplied o b -> str_le d b).
Proof.
  destruct (truthy o) eqn:T; simpl.
  - rewrite str_ltb_false_le. apply truthy_orEmpty in T. split.
    + intros H b [E _]. destruct T as [E' _]. congruence.
    + intros H. now apply H.
  - split; [|reflexivity]. intros _ b S. now apply truthy_false in S.
Qed.

Lemma link_test (o a : option str) :
  truthy o && negb (optstr_eqb a o) = false
  <-> (forall e, supplied o e -> a = Some e).
Proof.
  destruct (truthy o) eqn:T; simpl.
  - rewrite negb_false_iff, optstr_eqb_eq. apply truthy_orEmpty in T.
    destruct T as [E N]. split.
    + intros H e [E' _]. congruence.
    + intros H. rewrite (H _ (conj E N)). congruence.
  - split; [|reflexivity]. intros _ b S. now apply truthy_false in S.
Qed.

Section FilterProps.

Variable toLowerCase : str -> str.
Hypothesis toLowerCase_nil : toLowerCase [] = [].

Let keep f := keepRow toLowerCase f (needleOf toLowerCase f).

Lemma search_test (f : TxnFilter.t) (r : Transaction.t) :
  (if nonEmpty (needleOf toLowerCase f)
   then (if negb (includes (hay toLowerCase r) (needleOf toLowerCase f))
         then false else true)
   else true) = true
  <-> Substring (needleOf toLowerCase f) (toLowerCase (searchText r)).
Proof.
  unfold hay. fold (searchText r).
  destruct (nonEmpty (needleOf toLowerCase f)) eqn:N.
  - rewrite <- includes_spec.
    destruct (includes (toLowerCase (searchText r)) (needleOf toLowerCase f));
      simpl; split; congruence.
  - apply nonEmpty_false in N. rewrite N.
    split; [intros _; apply Substring_nil | reflexivity].
Qed.

Lemma needle_search (f : TxnFilter.t) (r : Transaction.t) :
  Substring (needleOf toLowerCase f) (toLowerCase (searchText r))
  <-> (forall q, TxnFilter.search f = Some q -> trim q <> [] ->
         Substring (toLowerCase (trim q)) (toLowerCase (searchText r))).
Proof.
  unfold needleOf. destruct (TxnFilter.search f) as [q|]; simpl.
  - split.
    + intros H q' E _. now injection E as <-.
    + intros H. destruct (trim q) eqn:T.
      * rewrite toLowerCase_nil. apply Substring_nil.
      * rewrite <- T. apply H; [reflexivity | congruence].
  - rewrite trim_nil, toLowerCase_nil.
    split; [intros _ q E; discriminate | intros _; apply Substring_nil].
Qed.

Lemma keepRow_satisfies (f : TxnFilter.t) (r : Transaction.t) :
  keep f r = true <-> satisfies toLowerCase f r.
Proof.
  unfold keep, keepRow.
  rewrite !if_false_true, type_test, from_test, to_test, !link_test,
    search_test, needle_search.
  split.
  - intros (H1 & H2 & H3 & H4 & H5 & H6). now constructor.
  - intros [H1 H2 H3 H4 H5 H6]. tauto.
Qed.

Lemma keepRow_search (f : TxnFilter.t) (r : Transaction.t) :
  keep f r = keep (withSearch f None) r
             && includes (toLowerCase (searchText r)) (needleOf toLowerCase f).
Proof.
  unfold keep, keepRow, hay. fold (searchText r).
  replace (needleOf toLowerCase (withSearch f None)) with (@nil char)
    by (unfold needleOf; simpl; now rewrite trim_nil, toLowerCase_nil).
  cbn [withSearch TxnFilter.type TxnFilter.from TxnFilter.to TxnFilter.eventId
       TxnFilter.billId nonEmpty].
  repeat match goal with
         | |- (if ?c then false else _) = _ => destruct c; [reflexivity|]
         end.
  destruct (nonEmpty (needleOf toLowerCase f)) eqn:N.
  - now destruct (includes _ _).
  - apply nonEmpty_false in N. now rewrite N, includes_nil.
Qed.

(** C1.  [filterTransactions] returns exactly the rows that satisfy every
    supplied predicate of the filter (type unless all or absent, inclusive
    from and to bounds, exact event and bill ids, search), all of them and
    only them, in the order of the input; under the filter [{type: "all"}]
    the input comes back unchanged.  A predicate is supplied when its option
    is present and not the empty string. *)
Theorem filterTransactions_exact (rows : list Transaction.t) (f : TxnFilter.t) :
  (forall r, In r (filterTransactions toLowerCase rows f)
             <-> In r rows /\ satisfies toLowerCase f r)
  /\ Subseq (filterTransactions toLowerCase rows f) rows
  /\ (exists sat : Transaction.t -> bool,
        (forall r, sat r = true <-> satisfies toLowerCase f r)
        /\ filterTransactions toLowerCase rows f = List.filter sat rows)
  /\ filterTransactions toLowerCase rows
       (TxnFilter.mk (Some All) None None None None None) = rows.
Proof.
  unfold filterTransactions. split; [|split; [|split]].
  - intros r. fold (keep f). now rewrite filter_In, keepRow_satisfies.
  - apply Subseq_filter.
  - exists (keep f). split; [apply keepRow_satisfies | reflexivity].
  - unfold needleOf. simpl. rewrite trim_nil, toLowerCase_nil.
    induction rows as [|r l IH]; simpl; [reflexivity | now rewrite IH].
Qed.

(** C6, as the code has it.  A row passes the search of [filterTransactions]
    if and only if the trimmed, lower-cased search string occurs in the
    lower-cased text made of the vendor, one space and the memo (an absent
    field counting as the empty string); a search that is absent or empty
    after trimming restricts nothing. *)
Theorem filterTransactions_search (rows : list Transaction.t) (f : TxnFilter.t) :
  (forall r, In r (filterTransactions toLowerCase rows f)
             <-> In r (filterTransactions toLowerCase rows (withSearch f None))
                 /\ Substring (toLowerCase (trim (orEmpty (TxnFilter.search f))))
                      (toLowerCase (searchText r)))
  /\ (trim (orEmpty (TxnFilter.search f)) = [] ->
      filterTransactions toLowerCase rows f
      = filterTransactions toLowerCase rows (withSearch f None)).
Proof.
  unfold filterTransactions. split.
  - intros r. rewrite !filter_In. fold (keep f) (keep (withSearch f None)).
    rewrite keepRow_search, andb_true_iff, includes_spec.
    unfold needleOf. tauto.
  - intros E. apply filter_ext. intros r.
    change (keep f r = keep (withSearch f None) r).
    rewrite keepRow_search. unfold needleOf.
    now rewrite E, toLowerCase_nil, includes_nil, andb_true_r.
Qed.

End FilterProps.

Lemma filterTransactions_exact_witness :
  asciiLower [] = []
  /\ (forall r, In r (filterTransactions asciiLower transactions bobaFilter)
                <-> In r transactions /\ satisfies asciiLower bobaFilter r)
  /\ filterTransactions asciiLower transactions
       (TxnFilter.mk (Some All) None None None None None) = transactions.
Proof.
  split; [reflexivity|].
  pose proof (filterTransactions_exact asciiLower eq_refl transactions bobaFilter)
    as (H1 & _ & _ & H4).
  split; [exact H1 | exact H4].
Defined.

Lemma filterTransactions_search_witness :
  asciiLower [] = []
  /\ (forall r, In r (filterTransactions asciiLower transactions bobaFilter)
                <-> In r (filterTransactions asciiLower transactions
                            (withSearch bobaFilter None))
                    /\ Substring (asciiLower (trim (lit "boba")))
                         (asciiLower (searchText r))).
Proof.
  split; [reflexivity|].
  exact (proj1 (filterTransactions_search asciiLower eq_refl transactions bobaFilter)).
Defined.

(** C6 read to the letter fails: the search ["bc"] occurs in the vendor
    ["ab"] directly followed by the memo ["cd"], and the row does not pass,
    because the code looks into ["ab cd"]. *)
Lemma search_not_literal :
  let f := TxnFilter.mk None None None (Some (lit "bc")) None None in
  trim (lit "bc") <> []
  /\ ~ (In abcdRow (filterTransactions asciiLower [abcdRow] f)
        <-> literalSearch asciiLower (lit "bc") abcdRow).
Proof.
  split; [discriminate|].
  intros [_ H]. apply H. now exists (lit "a"), (lit "d").
Qed.

(** ** Pagination *)

Lemma ceilDiv_spec (a b : Z) :
  0 < b -> (ceilDiv a b - 1) * b < a <= ceilDiv a b * b.
Proof.
  intros Hb. unfold ceilDiv.
  pose proof (Z.div_mod (- a) b ltac:(lia)) as E.
  pose proof (Z.mod_pos_bound (- a) b Hb) as B.
  nia.
Qed.

Lemma firstn_add {T} (a b : nat) (l : list T) :
  firstn (a + b) l = firstn a l ++ firstn b (skipn a l).
Proof.
  revert l; induction a as [|a IH]; intros l; [reflexivity|].
  destruct l as [|x l]; simpl.
  - now rewrite firstn_nil.
  - now rewrite IH.
Qed.

Lemma firstn_beyond {T} (n m : nat) (l : list T) :
  (List.length l <= n)%nat -> (List.length l <= m)%nat -> firstn n l = firstn m l.
Proof. intros H1 H2. now rewrite !firstn_all2. Qed.

(** The slice of [paginate]: [b] rows from offset [a]. *)
Lemma slice_window {T} (l : list T) (a b : Z) :
  0 <= a -> 0 <= b ->
  slice l a (Z.min (a + b) (Z.of_nat (List.length l)))
  = firstn (Z.to_nat b) (skipn (Z.to_nat a) l).
Proof.
  intros Ha Hb. unfold slice.
  set (len := Z.of_nat (List.length l)).
  assert (Hlen : 0 <= len) by (unfold len; lia).
  replace (a <? 0) with false by (symmetry; apply Z.ltb_ge; lia).
  replace (Z.min (a + b) len <? 0) with false by (symmetry; apply Z.ltb_ge; lia).
  destruct (Z_le_gt_dec a len) as [L|G].
  - replace (Z.min a len) with a by lia.
    destruct (Z_le_gt_dec (a + b) len) as [L2|G2].
    + f_equal. lia.
    + apply firstn_beyond; rewrite length_skipn; unfold len in *; lia.
  - replace (Z.min a len) with len by lia.
    replace (Z.min (Z.min (a + b) len) len - len) with 0 by lia.
    rewrite (skipn_all2 (n := Z.to_nat a)) by (unfold len in *; lia).
    now rewrite firstn_nil.
Qed.

Lemma paginate_rows {T} (S : list T) (page pageSize : Z) :
  1 <= pageSize ->
  Page.rows (paginate S page pageSize)
  = firstn (Z.to_nat pageSize)
      (skipn (Z.to_nat ((Page.page (paginate S page pageSize) - 1) * pageSize)) S).
Proof.
  intros Hps. unfold paginate. cbn [Page.rows Page.page].
  apply slice_window; [|lia].
  unfold clamp. nia.
Qed.

Lemma pages_cover {T} (S : list T) (pageSize : Z) :
  1 <= pageSize ->
  let pages := Page.pages (paginate S 1 pageSize) in
  1 <= pages
  /\ Z.of_nat (List.length S) <= pages * pageSize
  /\ (1 < pages -> (pages - 1) * pageSize < Z.of_nat (List.length S)).
Proof.
  intros Hps. unfold paginate. cbn [Page.pages].
  replace (Z.max 1 pageSize) with pageSize by lia.
  pose proof (ceilDiv_spec (Z.of_nat (List.length S)) pageSize ltac:(lia)).
  nia.
Qed.

Lemma pages_prefix {T} (S : list T) (pageSize : Z) (k : nat) :
  1 <= pageSize ->
  Z.of_nat k <= Page.pages (paginate S 1 pageSize) ->
  List.concat (List.map (fun p => Page.rows (paginate S p pageSize))
            (List.map Z.of_nat (seq 1 k)))
  = firstn (k * Z.to_nat pageSize) S.
Proof.
  intros Hps. induction k as [|k IH]; intros Hk; [reflexivity|].
  rewrite seq_S, !map_app, concat_app, IH by lia.
  cbn [List.map List.concat]. rewrite app_nil_r, paginate_rows by assumption.
  replace (Page.page (paginate S (Z.of_nat (1 + k)) pageSize)) with (Z.of_nat (1 + k)).
  - replace (Z.to_nat ((Z.of_nat (1 + k) - 1) * pageSize))
      with (k * Z.to_nat pageSize)%nat by nia.
    replace (Datatypes.S k * Z.to_nat pageSize)%nat
      with (k * Z.to_nat pageSize + Z.to_nat pageSize)%nat by lia.
    now rewrite firstn_add.
  - unfold paginate in *. cbn [Page.page Page.pages] in *. unfold clamp. lia.
Qed.

(** C3.  For a page size of at least 1 and any requested page, [paginate]
    returns a page number within [1, pages]; [pages] is
    [max(1, ceil(|S| / pageSize))], that is the least number of pages, at
    least 1, that holds every row; [total] is [|S|]; the rows are the slice
    of [S] for the clamped page; and the slices of the pages 1 to [pages],
    one after the other, are [S]. *)
Theorem paginate_invariants {T} (S : list T) (page pageSize : Z) :
  1 <= pageSize ->
  let P := paginate S page pageSize in
  let n := Z.of_nat (List.length S) in
  1 <= Page.page P <= Page.pages P
  /\ Page.pages P = Z.max 1 (ceilDiv n pageSize)
  /\ (n <= Page.pages P * pageSize
      /\ (1 < Page.pages P -> (Page.pages P - 1) * pageSize < n))
  /\ Page.total P = n
  /\ Page.rows P
     = firstn (Z.to_nat pageSize)
         (skipn (Z.to_nat ((Page.page P - 1) * pageSize)) S)
  /\ List.concat (List.map (fun p => Page.rows (paginate S p pageSize))
               (pageNumbers (Page.pages P))) = S.
Proof.
  intros Hps P n.
  pose proof (pages_cover S pageSize Hps) as (C1 & C2 & C3).
  assert (EP : Page.pages P = Page.pages (paginate S 1 pageSize)) by reflexivity.
  split; [|split; [|split; [|split; [|split]]]].
  - subst P. unfold paginate in *. cbn [Page.page Page.pages] in *.
    unfold clamp. lia.
  - subst P n. unfold paginate. cbn [Page.pages]. f_equal. f_equal. lia.
  - rewrite EP. split; assumption.
  - reflexivity.
  - apply paginate_rows, Hps.
  - unfold pageNumbers. rewrite pages_prefix by (try assumption; rewrite EP; lia).
    apply firstn_all2. rewrite EP. nia.
Qed.

Lemma paginate_invariants_witness :
  1 <= 2
  /\ List.concat (List.map (fun p => Page.rows (paginate transactions p 2))
               (pageNumbers (Page.pages (paginate transactions 9 2))))
     = transactions.
Proof.
  split; [lia|].
  apply (paginate_invariants transactions 9 2). lia.
Defined.

(** ** KPIs *)

Ltac pairs_lia :=
  repeat match goal with |- (_, _) = (_, _) => f_equal end; lia.

Ltac fin_lia :=
  repeat match goal with
         | |- (_, _) = (_, _) => f_equal
         | |- Fin _ = Fin _ => f_equal
         end; lia.

Lemma roundDouble_safe (z : Z) :
  Z.abs z <= MAX_SAFE_INTEGER -> roundDouble z = Fin z.
Proof.
  intros H. unfold roundDouble.
  replace (Z.abs z <? 2 ^ 53) with true; [reflexivity|].
  symmetry. apply Z.ltb_lt. unfold MAX_SAFE_INTEGER in H. lia.
Qed.

Lemma addNumber_safe (x y : Z) :
  Z.abs x + Z.abs y <= MAX_SAFE_INTEGER -> addNumber (Fin x) (Fin y) = Fin (x + y).
Proof. intros H. cbn [addNumber]. apply roundDouble_safe. lia. Qed.

Lemma sumAbs_cons (r : Transaction.t) (rows : list Transaction.t) :
  sumAbs (r :: rows) = Z.abs (Transaction.amountCents r) + sumAbs rows.
Proof. reflexivity. Qed.

Lemma sumAbs_nonneg (rows : list Transaction.t) : 0 <= sumAbs rows.
Proof. induction rows as [|r rows IH]; [now cbv | rewrite sumAbs_cons; lia]. Qed.

Lemma kpi_loop (yStr : str) (rows : list Transaction.t) (i o b : Z) :
  Z.abs i + sumAbs rows <= MAX_SAFE_INTEGER ->
  Z.abs o + sumAbs rows <= MAX_SAFE_INTEGER ->
  Z.abs b + sumAbs rows <= MAX_SAFE_INTEGER ->
  fold_left (kpiStep yStr) rows (Fin i, Fin o, Fin b)
  = (Fin (i + sumAmounts (List.filter (fun r => startsWith (Transaction.date r) yStr
                                           && (0 <=? Transaction.amountCents r)) rows)),
     Fin (o + sumAmounts (List.filter (fun r => startsWith (Transaction.date r) yStr
                                           && (Transaction.amountCents r <? 0)) rows)),
     Fin (b + sumAmounts rows)).
Proof.
  revert i o b; induction rows as [|r rows IH]; intros i o b Hi Ho Hb.
  - cbn [fold_left List.filter sumAmounts fold_right]. now rewrite !Z.add_0_r.
  - rewrite sumAbs_cons in Hi, Ho, Hb. pose proof (sumAbs_nonneg rows) as N.
    cbn [fold_left kpiStep List.filter].
    destruct (startsWith (Transaction.date r) yStr); cbn [andb].
    + destruct (Z.leb_spec 0 (Transaction.amountCents r)) as [P|Q].
      * replace (Transaction.amountCents r <? 0) with false
          by (symmetry; apply Z.ltb_ge; lia).
        rewrite !addNumber_safe by lia. rewrite IH by lia.
        unfold sumAmounts; cbn [fold_right]. fin_lia.
      * replace (Transaction.amountCents r <? 0) with true
          by (symmetry; apply Z.ltb_lt; lia).
        rewrite !addNumber_safe by lia. rewrite IH by lia.
        unfold sumAmounts; cbn [fold_right]. fin_lia.
    + rewrite addNumber_safe by lia. rewrite IH by lia.
      unfold sumAmounts; cbn [fold_right].
      fin_lia.
Qed.

Lemma sum_negative (p : Transaction.t -> bool) (rows : list Transaction.t) :
  sumAmounts (List.filter (fun r => p r && (Transaction.amountCents r <? 0)) rows) <= 0.
Proof.
  induction rows as [|r rows IH]; simpl; [lia|].
  destruct (p r); simpl; [|assumption].
  destruct (Z.ltb_spec (Transaction.amountCents r) 0); simpl; lia.
Qed.

Lemma sum_split (p : Transaction.t -> bool) (rows : list Transaction.t) :
  sumAmounts (List.filter (fun r => p r && (0 <=? Transaction.amountCents r)) rows)
  + sumAmounts (List.filter (fun r => p r && (Transaction.amountCents r <? 0)) rows)
  = sumAmounts (List.filter p rows).
Proof.
  induction rows as [|r rows IH]; simpl; [reflexivity|].
  destruct (p r); simpl; [|assumption].
  destruct (Z.leb_spec 0 (Transaction.amountCents r)) as [P|N].
  - replace (Transaction.amountCents r <? 0) with false
      by (symmetry; apply Z.ltb_ge; lia). simpl. lia.
  - replace (Transaction.amountCents r <? 0) with true
      by (symmetry; apply Z.ltb_lt; lia). simpl. lia.
Qed.

Lemma sumAmounts_bound (p : Transaction.t -> bool) (rows : list Transaction.t) :
  Z.abs (sumAmounts (List.filter p rows)) <= sumAbs rows.
Proof.
  induction rows as [|r rows IH]; [now cbv|].
  rewrite sumAbs_cons. cbn [List.filter].
  unfold sumAmounts in *. destruct (p r); cbn [fold_right]; lia.
Qed.

(** C4, for amounts that add up without rounding.  When the sizes of the
    amounts add up to at most [Number.MAX_SAFE_INTEGER],
    [currentBalanceCents] is the sum of all signed amounts whatever the
    date; [inflowYTD] is the sum of the non-negative amounts and [outflowYTD]
    the sum of the negative amounts (so it is at most 0) of the rows whose
    date string starts with the digits of the year; hence their sum is the
    net sum of exactly the rows dated in that year.  Without a year the
    current year is taken. *)
Theorem computeKPIs_sums (thisYear : Z) (rows : list Transaction.t) (y : Z) :
  sumAbs rows <= MAX_SAFE_INTEGER ->
  let k := computeKPIs thisYear rows (Some y) in
  (forall r, inYear y r = true <-> datedIn y r)
  /\ KPIs.currentBalanceCents k = Fin (sumAmounts rows)
  /\ KPIs.inflowYTD k
     = Fin (sumAmounts (List.filter (fun r => inYear y r && (0 <=? amountOf r)) rows))
  /\ KPIs.outflowYTD k
     = Fin (sumAmounts (List.filter (fun r => inYear y r && (amountOf r <? 0)) rows))
  /\ sumAmounts (List.filter (fun r => inYear y r && (amountOf r <? 0)) rows) <= 0
  /\ addNumber (KPIs.inflowYTD k) (KPIs.outflowYTD k)
     = Fin (sumAmounts (List.filter (inYear y) rows))
  /\ computeKPIs thisYear rows None = computeKPIs thisYear rows (Some thisYear).
Proof.
  intros S. pose proof (sumAbs_nonneg rows) as N.
  unfold computeKPIs. rewrite kpi_loop by (cbn [Z.abs]; lia).
  cbn [KPIs.currentBalanceCents KPIs.inflowYTD KPIs.outflowYTD].
  rewrite !Z.add_0_l. unfold inYear, amountOf, datedIn.
  split; [intros r; apply startsWith_spec|].
  split; [reflexivity|]. split; [reflexivity|]. split; [reflexivity|].
  split; [apply sum_negative|]. split; [|reflexivity].
  cbn [addNumber]. rewrite sum_split. apply roundDouble_safe.
  pose proof (sumAmounts_bound (fun r => startsWith (Transaction.date r) (ofInt y)) rows).
  lia.
Qed.

Lemma computeKPIs_sums_witness :
  sumAbs transactions <= MAX_SAFE_INTEGER
  /\ computeKPIs 2026 transactions (Some 2025)
     = KPIs.mk (Fin 779000) (Fin 1012000) (Fin (-233000)).
Proof.
  assert (S : sumAbs transactions <= MAX_SAFE_INTEGER) by (vm_compute; discriminate).
  split; [exact S|].
  destruct (computeKPIs_sums 2026 transactions 2025 S) as (_ & B & I & O & _).
  destruct (computeKPIs 2026 transactions (Some 2025)) as [b i o].
  cbn [KPIs.currentBalanceCents KPIs.inflowYTD KPIs.outflowYTD] in B, I, O.
  rewrite B, I, O. reflexivity.
Defined.

(** C4 read for every transaction list fails: past [2 ^ 53] the additions
    round.  On three rows of one year with the amounts [2 ^ 53], [-1] and
    [1], [inflowYTD] is [2 ^ 53] while the non-negative amounts add up to
    [2 ^ 53 + 1], and [inflowYTD + outflowYTD] is [2 ^ 53 - 1] while the net
    sum of the year is [2 ^ 53]. *)
Lemma computeKPIs_rounding :
  let k := computeKPIs 2025 largeRows (Some 2025) in
  KPIs.inflowYTD k = Fin (2 ^ 53)
  /\ sumAmounts (List.filter (fun r => inYear 2025 r && (0 <=? amountOf r)) largeRows)
     = 2 ^ 53 + 1
  /\ KPIs.outflowYTD k = Fin (-1)
  /\ addNumber (KPIs.inflowYTD k) (KPIs.outflowYTD k) = Fin (2 ^ 53 - 1)
  /\ sumAmounts (List.filter (inYear 2025) largeRows) = 2 ^ 53
  /\ ~ (forall rows y,
          KPIs.inflowYTD (computeKPIs 2025 rows (Some y))
          = Fin (sumAmounts
                   (List.filter (fun r => inYear y r && (0 <=? amountOf r)) rows))).
Proof.
  do 5 (split; [vm_compute; reflexivity|]).
  intros H. specialize (H largeRows 2025). vm_compute in H. discriminate.
Qed.

Example computeKPIs_seed :
  computeKPIs 2026 transactions (Some 2025)
  = KPIs.mk (Fin 779000) (Fin 1012000) (Fin (-233000)).
Proof. vm_compute. reflexivity. Qed.

(** ** Sorting *)

Lemma insert_perm {A} (compare : A -> A -> Z) (x : A) (l : list A) :
  Permutation (insert compare x l) (x :: l).
Proof.
  induction l as [|y l IH]; simpl; [reflexivity|].
  destruct (compare x y <=? 0); [reflexivity|].
  rewrite IH. apply perm_swap.
Qed.

Lemma sortBy_perm {A} (compare : A -> A -> Z) (l : list A) :
  Permutation (sortBy compare l) l.
Proof.
  induction l as [|x l IH]; simpl; [reflexivity|].
  rewrite insert_perm. now constructor.
Qed.

Section SortedBy.

Context {A : Type} (compare : A -> A -> Z) (R : A -> A -> Prop).
Hypothesis before : forall a b, compare a b <= 0 -> R a b.
Hypothesis after : forall a b, 0 < compare a b -> R b a.

Lemma insert_HdRel (a x : A) (l : list A) :
  R a x -> HdRel R a l -> HdRel R a (insert compare x l).
Proof.
  intros Hax H. destruct l as [|y l]; simpl; [now constructor|].
  destruct (compare x y <=? 0); constructor; [assumption|].
  now inversion H.
Qed.

Lemma insert_sorted (x : A) (l : list A) :
  Sorted R l -> Sorted R (insert compare x l).
Proof.
  induction 1 as [|y l Hs IH Hd]; simpl.
  - repeat constructor.
  - destruct (Z.leb_spec (compare x y) 0) as [L|G].
    + constructor; [now constructor|]. constructor. now apply before.
    + constructor; [assumption|]. apply insert_HdRel; [|assumption].
      now apply after.
Qed.

Lemma sortBy_sorted (l : list A) : Sorted R (sortBy compare l).
Proof.
  induction l as [|x l IH]; simpl; [constructor|]. now apply insert_sorted.
Qed.

End SortedBy.

Lemma Sorted_map {A B} (f : A -> B) (R : B -> B -> Prop) (l : list A) :
  Sorted (fun a b => R (f a) (f b)) l -> Sorted R (List.map f l).
Proof.
  induction 1 as [|x l Hs IH Hd]; simpl; constructor; [assumption|].
  destruct Hd; simpl; now constructor.
Qed.

Lemma StronglySorted_app {A} (R : A -> A -> Prop) (l1 l2 : list A) :
  StronglySorted R l1 -> StronglySorted R l2 ->
  (forall a b, In a l1 -> In b l2 -> R a b) ->
  StronglySorted R (l1 ++ l2).
Proof.
  intros H1 H2 H. induction H1 as [|x l Hs IH Hx]; simpl; [assumption|].
  constructor.
  - apply IH. intros a b Ha Hb. apply H; [now right | assumption].
  - apply Forall_app. split; [assumption|].
    apply Forall_forall. intros b Hb. apply H; [now left | assumption].
Qed.

Lemma StronglySorted_rev {A} (R : A -> A -> Prop) (l : list A) :
  StronglySorted R l -> StronglySorted (fun a b => R b a) (rev l).
Proof.
  induction 1 as [|x l Hs IH Hx]; simpl; [constructor|].
  apply StronglySorted_app; [assumption | repeat constructor |].
  intros a b Ha [<-|[]]. apply in_rev in Ha.
  now rewrite Forall_forall in Hx; apply Hx.
Qed.

Lemma StronglySorted_impl {A} (R R' : A -> A -> Prop) (l : list A) :
  (forall a b, R a b -> R' a b) -> StronglySorted R l -> StronglySorted R' l.
Proof.
  intros H. induction 1 as [|x l Hs IH Hx]; constructor; [assumption|].
  eapply Forall_impl; [|exact Hx]. intros b. apply H.
Qed.

(** A list of integers has one non-increasing arrangement. *)
Lemma descending_unique (l1 l2 : list Z) :
  StronglySorted Z.ge l1 -> StronglySorted Z.ge l2 ->
  Permutation l1 l2 -> l1 = l2.
Proof.
  intros H1; revert l2; induction H1 as [|a l1 Hs IH Ha]; intros l2 H2 P.
  - apply Permutation_nil in P. now subst.
  - destruct H2 as [|b l2 Hs2 Hb].
    + apply Permutation_sym, Permutation_nil in P. discriminate.
    + assert (a = b) as ->.
      { assert (In a (b :: l2)) as I1 by (eapply Permutation_in; [exact P | now left]).
        assert (In b (a :: l1)) as I2
            by (eapply Permutation_in; [apply Permutation_sym; exact P | now left]).
        rewrite Forall_forall in Ha, Hb.
        destruct I1 as [->|I1]; [reflexivity|].
        destruct I2 as [->|I2]; [reflexivity|].
        specialize (Ha _ I2). specialize (Hb _ I1). lia. }
      f_equal. apply IH; [assumption|]. now apply Permutation_cons_inv in P.
Qed.

Lemma Zge_trans : Relations_1.Transitive Z.ge.
Proof. intros a b c; lia. Qed.

Lemma Zle_trans : Relations_1.Transitive Z.le.
Proof. intros a b c; lia. Qed.

Lemma sorted_amount_asc (S : list Transaction.t) :
  Sorted (fun a b => amountOf a <= amountOf b) (sortTransactions S amount_asc).
Proof.
  apply sortBy_sorted; unfold comparator, amountOf; intros a b; lia.
Qed.

Lemma sorted_amount_desc (S : list Transaction.t) :
  Sorted (fun a b => amountOf a >= amountOf b) (sortTransactions S amount_desc).
Proof.
  apply sortBy_sorted; unfold comparator, amountOf; intros a b; lia.
Qed.

Lemma str_lt_le (s t : str) : str_ltb s t = true -> str_le s t.
Proof. intros H. right. now apply str_ltb_lt. Qed.

Lemma sorted_date_asc (S : list Transaction.t) :
  Sorted (fun a b => str_le (dateOf a) (dateOf b)) (sortTransactions S date_asc).
Proof.
  apply sortBy_sorted; unfold comparator, dateOf; intros a b.
  - destruct (str_ltb (Transaction.date b) (Transaction.date a)) eqn:E; [lia|].
    intros _. now apply str_ltb_false_le.
  - destruct (str_ltb (Transaction.date b) (Transaction.date a)) eqn:E.
    + intros _. now apply str_lt_le.
    + destruct (str_ltb (Transaction.date a) (Transaction.date b)); lia.
Qed.

Lemma sorted_date_desc (S : list Transaction.t) :
  Sorted (fun a b => str_le (dateOf b) (dateOf a)) (sortTransactions S date_desc).
Proof.
  apply sortBy_sorted; unfold comparator, dateOf; intros a b.
  - destruct (str_ltb (Transaction.date a) (Transaction.date b)) eqn:E; [lia|].
    intros _. now apply str_ltb_false_le.
  - destruct (str_ltb (Transaction.date a) (Transaction.date b)) eqn:E.
    + intros _. now apply str_lt_le.
    + destruct (str_ltb (Transaction.date b) (Transaction.date a)); lia.
Qed.

Lemma desc_keys_reverse_asc (S : list Transaction.t) :
  List.map amountOf (sortTransactions S amount_desc)
  = rev (List.map amountOf (sortTransactions S amount_asc)).
Proof.
  apply descending_unique.
  - apply Sorted_StronglySorted; [exact Zge_trans|].
    apply Sorted_map, sorted_amount_desc.
  - apply (StronglySorted_impl (fun a b => b <= a)); [intros a b; lia|].
    apply (StronglySorted_rev Z.le).
    apply Sorted_StronglySorted; [exact Zle_trans|].
    apply Sorted_map, sorted_amount_asc.
  - rewrite <- Permutation_rev. apply Permutation_map.
    unfold sortTransactions. now rewrite !sortBy_perm.
Qed.

Lemma write_last (h : Store.store) (a v : list Transaction.t) :
  Store.write (h ++ [a]) (List.length h) v = h ++ [v].
Proof. induction h as [|x h IH]; simpl; [reflexivity | now rewrite IH]. Qed.

Lemma store_sort (rows : Store.ref) (key : TxnSortKey) (h : Store.store) :
  Store.sortTransactions rows key h
  = (List.length h, h ++ [sortTransactions (Store.read h rows) key]).
Proof.
  unfold Store.sortTransactions, Store.slice0, Store.sortInPlace, sortTransactions.
  assert (R : Store.read (h ++ [Store.read h rows]) (List.length h) = Store.read h rows).
  { unfold Store.read at 1. rewrite app_nth2 by lia. now rewrite Nat.sub_diag. }
  destruct key; now rewrite R, write_last.
Qed.

(** C9.  Under [amount_asc] each amount is at most the next; under
    [amount_desc] each amount is at least the next and the amounts are those
    of [amount_asc] in reverse; [date_desc] and [date_asc] order the rows by
    the lexicographic order of their date strings; and the result is a new
    array: the store keeps every array it had, the input among them, and
    gains one that holds the sorted rows. *)
Theorem sortTransactions_ordered (S : list Transaction.t) :
  Sorted (fun a b => amountOf a <= amountOf b) (sortTransactions S amount_asc)
  /\ Sorted (fun a b => amountOf a >= amountOf b) (sortTransactions S amount_desc)
  /\ List.map amountOf (sortTransactions S amount_desc)
     = rev (List.map amountOf (sortTransactions S amount_asc))
  /\ Sorted (fun a b => str_le (dateOf b) (dateOf a)) (sortTransactions S date_desc)
  /\ Sorted (fun a b => str_le (dateOf a) (dateOf b)) (sortTransactions S date_asc)
  /\ (forall (h : Store.store) (rows : Store.ref) (key : TxnSortKey),
        Store.sortTransactions rows key h
        = (List.length h, h ++ [sortTransactions (Store.read h rows) key])).
Proof.
  split; [apply sorted_amount_asc|].
  split; [apply sorted_amount_desc|].
  split; [apply desc_keys_reverse_asc|].
  split; [apply sorted_date_desc|].
  split; [apply sorted_date_asc|].
  intros h rows key. apply store_sort.
Qed.

(** C10.  [sortTransactions] returns a permutation of its input: the same
    rows with the same multiplicities, hence the same length. *)
Theorem sortTransactions_permutation (S : list Transaction.t) (k : TxnSortKey) :
  Permutation (sortTransactions S k) S
  /\ List.length (sortTransactions S k) = List.length S.
Proof.
  assert (P : Permutation (sortTransactions S k) S) by apply sortBy_perm.
  split; [assumption | now apply Permutation_length].
Qed.

(** ** Explain sentence *)

Lemma join_snoc (sep : str) (l : list str) (x : str) :
  l <> [] -> join sep (l ++ [x]) = join sep l ++ sep ++ x.
Proof.
  induction l as [|a l IH]; [congruence|]. intros _.
  destruct l as [|b l]; [reflexivity|].
  change (join sep ((a :: b :: l) ++ [x])) with (a ++ sep ++ join sep ((b :: l) ++ [x])).
  rewrite IH by discriminate.
  change (join sep (a :: b :: l)) with (a ++ sep ++ join sep (b :: l)).
  now rewrite <- !app_assoc.
Qed.

Lemma explainParts_clauses (f : TxnFilter.t) (sort : TxnSortKey) :
  explainParts f ++ [sortLabel sort] = clauses f sort.
Proof.
  unfold explainParts, clauses, typeClause, dateClause, eventClause, billClause,
    searchClause.
  assert (S : truthy (TxnFilter.search f)
              && nonEmpty (trim (orEmpty (TxnFilter.search f)))
              = nonEmpty (trim (orEmpty (TxnFilter.search f)))).
  { destruct (TxnFilter.search f) as [[|c q]|]; reflexivity. }
  rewrite S.
  destruct (TxnFilter.type f) as [[t|]|];
    destruct (truthy (TxnFilter.from f)), (truthy (TxnFilter.to f)),
      (truthy (TxnFilter.eventId f)), (truthy (TxnFilter.billId f)),
      (nonEmpty (trim (orEmpty (TxnFilter.search f))));
    reflexivity.
Qed.

Lemma explainParts_nonempty (f : TxnFilter.t) : explainParts f <> [].
Proof.
  intros E. pose proof (explainParts_clauses f date_desc) as H.
  rewrite E in H. apply (f_equal (@List.length str)) in H.
  unfold clauses in H. rewrite !length_app in H. simpl in H. lia.
Qed.

Lemma sortLabel_nonEmpty (sort : TxnSortKey) : nonEmpty (sortLabel sort) = true.
Proof. now destruct sort. Qed.

Lemma explain_sentence (f : TxnFilter.t) (sort : TxnSortKey) :
  explainTransactionsView f sort
  = tidy (lit "Showing " ++ join (lit ", ") (clauses f sort) ++ lit ".").
Proof.
  unfold explainTransactionsView. rewrite sortLabel_nonEmpty.
  rewrite <- explainParts_clauses, join_snoc by apply explainParts_nonempty.
  now rewrite <- !app_assoc.
Qed.

Lemma tidyFrom_end (pending s : str) :
  exists u, tidyFrom pending (s ++ lit ".") = u ++ lit ".".
Proof.
  revert pending; induction s as [|c s IH]; intros pending.
  - exists pending. reflexivity.
  - simpl. destruct (isWhiteSpace c); [apply IH|].
    destruct (c =? 44).
    + destruct (IH []) as [u E]. exists (c :: u). simpl. now rewrite <- E.
    + destruct (IH []) as [u E]. exists (pending ++ c :: u).
      rewrite <- app_assoc. simpl. now rewrite <- E.
Qed.

Lemma typeClause_head (f : TxnFilter.t) :
  exists c rest, typeClause f = c :: rest /\ isWhiteSpace c = false /\ (c =? 44) = false.
Proof.
  unfold typeClause. destruct (TxnFilter.type f) as [[[]|]|]; eexists; eexists;
    (split; [reflexivity | split; reflexivity]).
Qed.

Lemma explain_frame (f : TxnFilter.t) (sort : TxnSortKey) :
  exists body, explainTransactionsView f sort = lit "Showing " ++ body ++ lit ".".
Proof.
  rewrite explain_sentence. unfold clauses.
  destruct (typeClause_head f) as (c & rest & E & W & C). rewrite E.
  set (others := present (dateClause f) ++ _).
  match goal with
  | |- context [join ?sep ?l] =>
    assert (exists tail, join sep l = c :: tail) as [tail J]
        by (simpl; destruct others; eexists; reflexivity)
  end.
  rewrite J. unfold tidy. simpl. rewrite W, C.
  destruct (tidyFrom_end [] tail) as [u U].
  change (tail ++ [46]) with (tail ++ lit "."). rewrite U.
  exists (c :: u). reflexivity.
Qed.

(** C8.  [explainTransactionsView] puts its clauses in the fixed order type,
    date range, event link, bill link, quoted search, sort, joins them with
    [", "], and frames the sentence with ["Showing "] and ["."] (before the
    pass that tidies white space in front of a comma, which keeps the frame);
    for the filter of expenses from 2025-11-01 to 2025-11-30 matching boba
    under [date_desc] the sentence mentions, in this order, expenses, the
    date range, the quoted search term and most recent first. *)
Theorem explain_clauses_in_order (f : TxnFilter.t) (sort : TxnSortKey) :
  explainTransactionsView f sort
  = tidy (lit "Showing " ++ join (lit ", ") (clauses f sort) ++ lit ".")
  /\ (exists body,
        explainTransactionsView f sort = lit "Showing " ++ body ++ lit ".")
  /\ explainTransactionsView bobaFilter date_desc = bobaSentence
  /\ (exists a b c d e,
        explainTransactionsView bobaFilter date_desc
        = a ++ lit "expenses" ++ b ++ lit "from 2025-11-01 to 2025-11-30" ++ c
          ++ ([ldquo] ++ lit "boba" ++ [rdquo]) ++ d ++ lit "most recent first" ++ e).
Proof.
  split; [apply explain_sentence|]. split; [apply explain_frame|].
  split; [reflexivity|].
  exists (lit "Showing "), (lit ", "), (lit ", matching "), (lit ", "), (lit ".").
  reflexivity.
Qed.

(** ** CSV *)

Lemma includes_single (s : str) (c : char) : includes s [c] = true <-> In c s.
Proof.
  rewrite includes_spec. unfold Substring. split.
  - intros (a & b & ->). apply in_or_app. right. now left.
  - intros H. apply in_split in H as (a & b & ->). now exists a, b.
Qed.

Lemma needsQuoting_spec (s delimiter : str) :
  includes s delimiter || includes s [quote] || includes s [newline] = true
  <-> needsQuoting s delimiter.
Proof.
  unfold needsQuoting.
  rewrite !orb_true_iff, !includes_single, includes_spec. tauto.
Qed.

Lemma csvEscape_quoted (s delimiter : str) :
  needsQuoting s delimiter ->
  csvEscape s delimiter = [quote] ++ doubleQuotes s ++ [quote].
Proof.
  intros H. apply needsQuoting_spec in H. unfold csvEscape. now rewrite H.
Qed.

Lemma csvEscape_verbatim (s delimiter : str) :
  ~ needsQuoting s delimiter -> csvEscape s delimiter = s.
Proof.
  intros H. unfold csvEscape.
  destruct (includes s delimiter || includes s [quote] || includes s [newline]) eqn:E;
    [|reflexivity].
  now apply needsQuoting_spec in E.
Qed.

Section CSVParse.

Variable d : char.
Hypothesis d_not_quote : d <> quote.
Hypothesis d_not_newline : d <> newline.

Lemma d_eqb_quote : (d =? quote) = false.
Proof. now apply Z.eqb_neq. Qed.

Lemma newline_eqb_d : (newline =? d) = false.
Proof. apply Z.eqb_neq. congruence. Qed.

Lemma unquoted_run (v acc : str) (record : list str) (rest : str) :
  ~ In d v -> ~ In newline v ->
  CSV.parseFrom d CSV.Unquoted acc record (v ++ rest)
  = CSV.parseFrom d CSV.Unquoted (acc ++ v) record rest.
Proof.
  revert acc; induction v as [|c v IH]; intros acc Hd Hn; simpl.
  - now rewrite app_nil_r.
  - replace (c =? d) with false
      by (symmetry; apply Z.eqb_neq; intros ->; apply Hd; now left).
    replace (c =? newline) with false
      by (symmetry; apply Z.eqb_neq; intros ->; apply Hn; now left).
    rewrite IH by (intros H; (apply Hd; now right) || (apply Hn; now right)).
    now rewrite <- app_assoc.
Qed.

Lemma quoted_run (v acc : str) (record : list str) (rest : str) :
  CSV.parseFrom d CSV.Quoted acc record (doubleQuotes v ++ quote :: rest)
  = CSV.parseFrom d CSV.QuoteInQuoted (acc ++ v) record rest.
Proof.
  revert acc; induction v as [|c v IH]; intros acc.
  - simpl. now rewrite app_nil_r.
  - cbn [doubleQuotes flat_map]. fold (doubleQuotes v).
    destruct (Z.eqb_spec c quote) as [->|N].
    + cbn [app CSV.parseFrom]. rewrite Z.eqb_refl.
      rewrite IH. now rewrite <- app_assoc.
    + cbn [app CSV.parseFrom].
      replace (c =? quote) with false by (symmetry; now apply Z.eqb_neq).
      rewrite IH. now rewrite <- app_assoc.
Qed.

Lemma close_start (record : list str) (rest : str) :
  Boundary d rest ->
  CSV.parseFrom d CSV.FieldStart [] record rest
  = CSV.parseFrom d CSV.Unquoted [] record rest.
Proof.
  intros [| t | t]; cbn [CSV.parseFrom].
  - reflexivity.
  - now rewrite d_eqb_quote, Z.eqb_refl.
  - change (newline =? quote) with false. cbn iota.
    now rewrite newline_eqb_d, Z.eqb_refl.
Qed.

Lemma close_quoted (v : str) (record : list str) (rest : str) :
  Boundary d rest ->
  CSV.parseFrom d CSV.QuoteInQuoted v record rest
  = CSV.parseFrom d CSV.Unquoted v record rest.
Proof.
  intros [| t | t]; cbn [CSV.parseFrom].
  - reflexivity.
  - now rewrite d_eqb_quote, Z.eqb_refl.
  - change (newline =? quote) with false. cbn iota.
    now rewrite newline_eqb_d, Z.eqb_refl.
Qed.

(** One escaped field, read from the start of a field up to its boundary. *)
Lemma parse_field (v : str) (record : list str) (rest : str) :
  Boundary d rest ->
  CSV.parseFrom d CSV.FieldStart [] record (csvEscape v [d] ++ rest)
  = CSV.parseFrom d CSV.Unquoted v record rest.
Proof.
  intros B. unfold csvEscape.
  destruct (includes v [d] || includes v [quote] || includes v [newline]) eqn:E.
  - cbn [negb app CSV.parseFrom]. rewrite Z.eqb_refl.
    rewrite <- app_assoc. cbn [app]. rewrite quoted_run. now apply close_quoted.
  - apply orb_false_iff in E as [E E3]. apply orb_false_iff in E as [E1 E2].
    assert (Hd : ~ In d v) by (rewrite <- includes_single; congruence).
    assert (Hq : ~ In quote v) by (rewrite <- includes_single; congruence).
    assert (Hn : ~ In newline v) by (rewrite <- includes_single; congruence).
    cbn [negb]. destruct v as [|c v]; [now apply close_start|].
    cbn [app CSV.parseFrom].
    replace (c =? quote) with false
      by (symmetry; apply Z.eqb_neq; intros ->; apply Hq; now left).
    replace (c =? d) with false
      by (symmetry; apply Z.eqb_neq; intros ->; apply Hd; now left).
    replace (c =? newline) with false
      by (symmetry; apply Z.eqb_neq; intros ->; apply Hn; now left).
    apply (unquoted_run v [c]); intros H; [apply Hd | apply Hn]; now right.
Qed.

Lemma parse_line (v : str) (vs record : list str) (rest : str) :
  rest = [] \/ (exists t, rest = newline :: t) ->
  CSV.parseFrom d CSV.FieldStart [] record (lineText d (v :: vs) ++ rest)
  = endOfLine d (record ++ v :: vs) rest.
Proof.
  intros L. revert v record; induction vs as [|v2 vs IH]; intros v record.
  - unfold lineText. cbn [List.map join]. rewrite parse_field.
    + destruct L as [->|[t ->]]; cbn [CSV.parseFrom endOfLine]; [reflexivity|].
      now rewrite newline_eqb_d, Z.eqb_refl.
    + destruct L as [->|[t ->]]; constructor.
  - unfold lineText. cbn [List.map]. 
    change (join [d] (csvEscape v [d] :: csvEscape v2 [d]
                      :: List.map (fun v => csvEscape v [d]) vs))
      with (csvEscape v [d] ++ [d] ++ lineText d (v2 :: vs)).
    rewrite <- !app_assoc. rewrite parse_field by constructor.
    cbn [app CSV.parseFrom]. rewrite Z.eqb_refl. cbn [app].
    rewrite IH. now rewrite <- app_assoc.
Qed.

Lemma parse_lines (line : list str) (lines : list (list str)) :
  Forall (fun l => l <> []) (line :: lines) ->
  CSV.parse d (join [newline] (List.map (lineText d) (line :: lines))) = line :: lines.
Proof.
  unfold CSV.parse. revert line; induction lines as [|l2 lines IH]; intros line F.
  - inversion F as [|? ? N _]; subst. destruct line as [|v vs]; [congruence|].
    cbn [List.map join]. rewrite <- (app_nil_r (lineText d (v :: vs))).
    rewrite parse_line by now left. reflexivity.
  - inversion F as [|? ? N F']; subst. destruct line as [|v vs]; [congruence|].
    cbn [List.map]. 
    change (join [newline] (lineText d (v :: vs) :: lineText d l2 :: List.map (lineText d) lines))
      with (lineText d (v :: vs) ++ [newline]
            ++ join [newline] (List.map (lineText d) (l2 :: lines))).
    rewrite parse_line by (right; eexists; reflexivity).
    cbn [app endOfLine]. now rewrite IH.
Qed.

Lemma body_lines {T} (cols : list (CSVColumn.t T)) (rows : list T) (i : Z) :
  mapi (fun r i =>
          join [d] (List.map (fun c => csvEscape (valueString (CSVColumn.value c r i)) [d])
                      cols)) i rows
  = List.map (lineText d) (mapi (rowValues cols) i rows).
Proof.
  revert i; induction rows as [|r rows IH]; intros i; simpl; [reflexivity|].
  rewrite IH. f_equal. unfold lineText, rowValues. now rewrite map_map.
Qed.

Lemma toCSV_lines {T} (cols : list (CSVColumn.t T)) (r : T) (rows : list T) :
  toCSV (r :: rows) cols [d]
  = join [newline]
      (List.map (lineText d)
         (List.map CSVColumn.title cols :: mapi (rowValues cols) 0 (r :: rows))).
Proof.
  unfold toCSV. rewrite body_lines. cbn [mapi List.map].
  unfold lineText at 3. rewrite map_map. reflexivity.
Qed.

Lemma parse_toCSV {T} (cols : list (CSVColumn.t T)) (rows : list T) :
  rows <> [] -> cols <> [] ->
  CSV.parse d (toCSV rows cols [d])
  = List.map CSVColumn.title cols :: mapi (rowValues cols) 0 rows.
Proof.
  intros Hr Hc. destruct rows as [|r rows]; [congruence|].
  rewrite toCSV_lines. apply parse_lines.
  assert (N : forall {A} (f : CSVColumn.t T -> A), List.map f cols <> []).
  { intros A f. destruct cols; [congruence | discriminate]. }
  constructor; [apply N|].
  generalize 0. generalize (r :: rows). intros l. induction l as [|x l IH]; intros i.
  - constructor.
  - simpl. constructor; [apply N | apply IH].
Qed.

End CSVParse.

Lemma nth_error_mapi {A B} (f : A -> Z -> B) (l : list A) (i : nat) (k : Z) (a : A) :
  nth_error l i = Some a ->
  nth_error (mapi f k l) i = Some (f a (k + Z.of_nat i)).
Proof.
  revert i k; induction l as [|x l IH]; intros [|i] k; simpl; try discriminate.
  - intros [= ->]. f_equal. f_equal. lia.
  - intros H. rewrite (IH _ _ H). f_equal. f_equal. lia.
Qed.

(** C5, as the code has it.  [toCSV] emits the header line made of the
    escaped titles, then the rows, one line each, the fields joined by the
    delimiter; a field is wrapped in double quotes, its double quotes
    doubled, when it contains the delimiter, a double quote or a newline, and
    is left as it is otherwise; null and undefined values give the empty
    string; and when the delimiter is one character other than the double
    quote and the newline, parsing the text gives back the titles and, for
    every row and column, exactly the string the column function returned. *)
Theorem toCSV_format {T} (rows : list T) (cols : list (CSVColumn.t T))
    (delimiter : str) :
  toCSV rows cols delimiter
  = join delimiter (List.map (fun c => csvEscape (CSVColumn.title c) delimiter) cols)
    ++ [newline]
    ++ join [newline]
         (mapi (fun r i => join delimiter
                             (List.map (fun v => csvEscape v delimiter)
                                (rowValues cols r i))) 0 rows)
  /\ (forall s, needsQuoting s delimiter ->
                csvEscape s delimiter = [quote] ++ doubleQuotes s ++ [quote])
  /\ (forall s, ~ needsQuoting s delimiter -> csvEscape s delimiter = s)
  /\ valueString CNull = [] /\ valueString CUndefined = []
  /\ (forall d, delimiter = [d] -> d <> quote -> d <> newline ->
        (rows <> [] -> cols <> [] ->
         CSV.parse d (toCSV rows cols delimiter)
         = List.map CSVColumn.title cols :: mapi (rowValues cols) 0 rows)
        /\ (forall i j r c,
              nth_error rows i = Some r -> nth_error cols j = Some c ->
              exists record,
                nth_error (CSV.parse d (toCSV rows cols delimiter)) (S i) = Some record
                /\ nth_error record j
                   = Some (valueString (CSVColumn.value c r (Z.of_nat i))))).
Proof.
  split; [|split; [|split; [|split; [|split]]]].
  - unfold toCSV, rowValues. do 3 f_equal.
    generalize 0. induction rows as [|r rows IH]; intros i; simpl; [reflexivity|].
    now rewrite IH, map_map.
  - intros s. apply csvEscape_quoted.
  - intros s. apply csvEscape_verbatim.
  - reflexivity.
  - reflexivity.
  - intros d -> Hq Hn.
    assert (P : rows <> [] -> cols <> [] ->
                CSV.parse d (toCSV rows cols [d])
                = List.map CSVColumn.title cols :: mapi (rowValues cols) 0 rows)
      by now apply parse_toCSV.
    split; [exact P|].
    intros i j r c Hr Hc.
    rewrite P by (intros ->; now destruct i + now destruct j).
    exists (rowValues cols r (Z.of_nat i)). split.
    + cbn [nth_error]. now rewrite (nth_error_mapi _ _ _ _ _ Hr).
    + unfold rowValues. now rewrite nth_error_map, Hc.
Qed.

Lemma toCSV_format_witness :
  lit "," = [44] /\ 44 <> quote /\ 44 <> newline
  /\ transactions <> [] /\ ledgerColumns <> []
  /\ CSV.parse 44 (toCSV transactions ledgerColumns (lit ","))
     = List.map CSVColumn.title ledgerColumns
       :: mapi (rowValues ledgerColumns) 0 transactions.
Proof.
  repeat (split; [reflexivity || discriminate|]).
  apply (toCSV_format transactions ledgerColumns (lit ",")) with (d := 44);
    reflexivity || discriminate.
Defined.

(** C5 read for every delimiter fails: with the empty delimiter the rows
    (empty, one double quote) and (one double quote, empty) give the same
    text, so nothing can recover the values of both. *)
Lemma toCSV_empty_delimiter_collision :
  toCSV [([], [quote])] pairColumns [] = toCSV [([quote], [])] pairColumns []
  /\ ~ (exists recover : str -> list (list str),
          forall row : str * str,
            recover (toCSV [row] pairColumns [])
            = [[lit "A"; lit "B"]; [fst row; snd row]]).
Proof.
  assert (E : toCSV [([], [quote])] pairColumns []
              = toCSV [([quote], [])] pairColumns []) by reflexivity.
  split; [exact E|].
  intros [recover H].
  pose proof (H ([], [quote])) as H1. pose proof (H ([quote], [])) as H2.
  pose proof (eq_trans (eq_sym H1) (eq_trans (f_equal recover E) H2)) as C.
  discriminate C.
Qed.

(** ** Router: URI component coding *)

Import URI.

Ltac dlia := Z.div_mod_to_equations; lia.

(** Boolean tests on integers, proved through their propositions. *)
Ltac btrue :=
  lazymatch goal with
  | |- (_ && _) = true => apply andb_true_intro; split; btrue
  | |- (_ || _) = true => apply orb_true_iff; ((left; btrue) || (right; btrue))
  | |- negb _ = true => apply negb_true_iff; bfalse
  | |- (_ <=? _) = true => apply Z.leb_le; dlia
  | |- (_ <? _) = true => apply Z.ltb_lt; dlia
  | |- (_ =? _) = true => apply Z.eqb_eq; dlia
  end
with bfalse :=
  lazymatch goal with
  | |- (_ && _) = false => apply andb_false_iff; ((left; bfalse) || (right; bfalse))
  | |- (_ || _) = false => apply orb_false_iff; split; bfalse
  | |- negb _ = false => apply negb_false_iff; btrue
  | |- (_ <=? _) = false => apply Z.leb_gt; dlia
  | |- (_ <? _) = false => apply Z.ltb_ge; dlia
  | |- (_ =? _) = false => apply Z.eqb_neq; dlia
  end.

Ltac bprop H :=
  repeat rewrite ?orb_true_iff, ?andb_true_iff, ?orb_false_iff, ?andb_false_iff,
    ?negb_true_iff, ?negb_false_iff, ?Z.eqb_eq, ?Z.eqb_neq, ?Z.leb_le, ?Z.leb_gt,
    ?Z.ltb_lt, ?Z.ltb_ge in H.

Lemma unescaped_ascii (c : char) :
  isUnescaped c = true ->
  33 <= c <= 126 /\ c <> 34 /\ c <> 35 /\ c <> 37 /\ c <> 47 /\ c <> 58 /\ c <> 60
  /\ c <> 62 /\ c <> 63 /\ c <> 92 /\ c <> 94 /\ c <> 96 /\ c <> 123 /\ c <> 125.
Proof.
  unfold isUnescaped, isAlpha, isDigit. intros H. bprop H. lia.
Qed.

Lemma hexDigit_unescaped (d : Z) : 0 <= d < 16 -> isUnescaped (hexDigit d) = true.
Proof.
  intros H. unfold hexDigit. destruct (Z.ltb_spec d 10).
  - unfold isUnescaped, isAlpha, isDigit.
    replace ((48 <=? 48 + d) && (48 + d <=? 57)) with true by (symmetry; btrue).
    now rewrite orb_true_r.
  - unfold isUnescaped, isAlpha, isDigit.
    replace ((65 <=? 55 + d) && (55 + d <=? 90)) with true by (symmetry; btrue).
    reflexivity.
Qed.

Lemma hexVal_hexDigit (d : Z) : 0 <= d < 16 -> hexVal (hexDigit d) = Some d.
Proof.
  intros H. unfold hexDigit, hexVal, isDigit. destruct (Z.ltb_spec d 10).
  - replace ((48 <=? 48 + d) && (48 + d <=? 57)) with true by (symmetry; btrue).
    f_equal. lia.
  - replace ((48 <=? 55 + d) && (55 + d <=? 57)) with false by (symmetry; bfalse).
    replace ((65 <=? 55 + d) && (55 + d <=? 70)) with true by (symmetry; btrue).
    f_equal. lia.
Qed.

Lemma percentOctet_chars (b : Z) : isByte b -> Forall EncChar (percentOctet b).
Proof.
  intros H. unfold percentOctet, isByte in *.
  apply Forall_cons; [now right|].
  apply Forall_cons; [left; apply hexDigit_unescaped; dlia|].
  apply Forall_cons; [left; apply hexDigit_unescaped; dlia | constructor].
Qed.

Lemma octets_percentOctet (b : Z) (e : str) :
  isByte b ->
  octets (percentOctet b ++ e) = r <- octets e ;; Normal (Oct b :: r).
Proof.
  intros H. unfold percentOctet, isByte in *. cbn [app octets]. rewrite Z.eqb_refl.
  rewrite !hexVal_hexDigit by dlia.
  replace (16 * (b / 16) + b mod 16) with b by dlia. reflexivity.
Qed.

Lemma octets_escaped (bs : list Z) (e : str) :
  Forall isByte bs ->
  octets (flat_map percentOctet bs ++ e)
  = r <- octets e ;; Normal (List.map Oct bs ++ r).
Proof.
  induction 1 as [|b bs Hb Hbs IH]; cbn [flat_map List.map app].
  - now destruct (octets e).
  - rewrite <- app_assoc, octets_percentOctet, IH by assumption.
    now destruct (octets e).
Qed.

Lemma escaped_chars (bs : list Z) :
  Forall isByte bs -> Forall EncChar (flat_map percentOctet bs).
Proof.
  induction 1 as [|b bs Hb Hbs IH]; cbn [flat_map]; [constructor|].
  apply Forall_app. split; [now apply percentOctet_chars | assumption].
Qed.

Lemma utf8Encode_bytes (cp : Z) : isScalar cp -> Forall isByte (utf8Encode cp).
Proof.
  intros [R _]. unfold utf8Encode, isByte.
  repeat match goal with
         | |- context [if ?x <? ?y then _ else _] => destruct (Z.ltb_spec x y)
         end; repeat constructor; dlia.
Qed.

Ltac test_true b := replace b with true by (symmetry; btrue).
Ltac test_false b := replace b with false by (symmetry; bfalse).

Lemma decode_utf8 (cp : Z) (ts : list token) :
  isScalar cp ->
  decodeTokens (List.map Oct (utf8Encode cp) ++ ts)
  = r <- decodeTokens ts ;; Normal (utf16Encode cp ++ r).
Proof.
  intros [R NS]. unfold utf8Encode.
  destruct (Z.ltb_spec cp 128) as [C1|C1];
    [|destruct (Z.ltb_spec cp 2048) as [C2|C2];
      [|destruct (Z.ltb_spec cp 65536) as [C3|C3]]];
    cbn [List.map app decodeTokens]; unfold isCont, utf16Encode.
  - test_true (cp <? 128). test_true (cp <? 65536). reflexivity.
  - test_false (192 + cp / 64 <? 128). test_false (192 + cp / 64 <? 192).
    test_true (192 + cp / 64 <? 224).
    replace ((192 + cp / 64 - 192) * 64 + (128 + cp mod 64 - 128)) with cp by dlia.
    test_true ((128 <=? 128 + cp mod 64) && (128 + cp mod 64 <=? 191) && (128 <=? cp)).
    test_true (cp <? 65536). reflexivity.
  - test_false (224 + cp / 4096 <? 128). test_false (224 + cp / 4096 <? 192).
    test_false (224 + cp / 4096 <? 224). test_true (224 + cp / 4096 <? 240).
    replace ((224 + cp / 4096 - 224) * 4096 + (128 + (cp / 64) mod 64 - 128) * 64
             + (128 + cp mod 64 - 128)) with cp by dlia.
    assert (cp < 55296 \/ 57343 < cp) as D by lia.
    replace ((128 <=? 128 + (cp / 64) mod 64) && (128 + (cp / 64) mod 64 <=? 191)
             && ((128 <=? 128 + cp mod 64) && (128 + cp mod 64 <=? 191))
             && (2048 <=? cp) && negb ((55296 <=? cp) && (cp <=? 57343)))
      with true by (symmetry; destruct D; btrue).
    test_true (cp <? 65536). reflexivity.
  - test_false (240 + cp / 262144 <? 128). test_false (240 + cp / 262144 <? 192).
    test_false (240 + cp / 262144 <? 224). test_false (240 + cp / 262144 <? 240).
    test_true (240 + cp / 262144 <? 248).
    replace ((240 + cp / 262144 - 240) * 262144 + (128 + (cp / 4096) mod 64 - 128) * 4096
             + (128 + (cp / 64) mod 64 - 128) * 64 + (128 + cp mod 64 - 128))
      with cp by dlia.
    test_true ((128 <=? 128 + (cp / 4096) mod 64) && (128 + (cp / 4096) mod 64 <=? 191)
               && ((128 <=? 128 + (cp / 64) mod 64) && (128 + (cp / 64) mod 64 <=? 191))
               && ((128 <=? 128 + cp mod 64) && (128 + cp mod 64 <=? 191))
               && (65536 <=? cp) && (cp <=? 1114111)).
    test_false (cp <? 65536). reflexivity.
Qed.

Lemma pair_scalar (c d : char) :
  isLead c = true -> isTrail d = true ->
  isScalar (pairCodePoint c d) /\ utf16Encode (pairCodePoint c d) = [c; d].
Proof.
  unfold isLead, isTrail, isScalar, pairCodePoint, utf16Encode. intros L T.
  bprop L. bprop T. split; [lia|].
  test_false ((c - 55296) * 1024 + (d - 56320) + 65536 <? 65536).
  f_equal; [dlia | f_equal; dlia].
Qed.

Lemma unit_scalar (c : char) :
  isLead c = false -> isTrail c = false -> 0 <= c < 65536 ->
  isScalar c /\ utf16Encode c = [c].
Proof.
  unfold isLead, isTrail, isScalar, utf16Encode. intros L T R.
  bprop L. bprop T. split; [lia|]. now test_true (c <? 65536).
Qed.

Lemma escaped_chunk (cp : Z) (u e s : str) (ts : list token) :
  isScalar cp -> utf16Encode cp = u ->
  Forall EncChar e -> octets e = Normal ts -> decodeTokens ts = Normal s ->
  Forall EncChar (percentEncode cp ++ e)
  /\ exists ts', octets (percentEncode cp ++ e) = Normal ts'
                 /\ decodeTokens ts' = Normal (u ++ s).
Proof.
  intros Hcp Hu He Ho Hd. pose proof (utf8Encode_bytes cp Hcp) as B.
  unfold percentEncode. split.
  - apply Forall_app. split; [now apply escaped_chars | assumption].
  - exists (List.map Oct (utf8Encode cp) ++ ts). split.
    + now rewrite octets_escaped, Ho.
    + now rewrite decode_utf8, Hd, Hu.
Qed.

(** Encoding a well-formed string succeeds, gives only unescaped characters
    and escapes, and decoding gives the string back. *)
Lemma encode_decode_bounded (n : nat) (s : str) :
  (List.length s <= n)%nat -> isWellFormed s = true ->
  exists e, encodeURIComponent s = Normal e
            /\ Forall EncChar e
            /\ exists ts, octets e = Normal ts /\ decodeTokens ts = Normal s.
Proof.
  revert s; induction n as [|n IH]; intros s Hn W.
  - destruct s; [|simpl in Hn; lia].
    exists []. repeat split; [constructor|]. now exists [].
  - destruct s as [|c t].
    { exists []. repeat split; [constructor|]. now exists []. }
    cbn [isWellFormed encodeURIComponent] in *.
    destruct (isUnescaped c) eqn:U.
    + pose proof (unescaped_ascii c U) as A.
      assert (L : isLead c = false) by (unfold isLead; bfalse).
      rewrite L in W. apply andb_true_iff in W as [_ W].
      destruct (IH t ltac:(simpl in Hn; lia) W) as (e & He & Hc & ts & Ho & Hd).
      exists (c :: e). rewrite He. split; [reflexivity|].
      split; [constructor; [now left | assumption]|].
      exists (Lit c :: ts). cbn [octets decodeTokens].
      replace (c =? 37) with false by (symmetry; bfalse).
      now rewrite Ho, Hd.
    + destruct (isLead c) eqn:L.
      * assert (T : isTrail c = false)
          by (unfold isLead, isTrail in *; bprop L; bfalse).
        rewrite T. destruct t as [|d t]; [discriminate|].
        apply andb_true_iff in W as [Td W]. rewrite Td.
        destruct (IH t ltac:(simpl in Hn; lia) W) as (e & He & Hc & ts & Ho & Hd).
        destruct (pair_scalar c d L Td) as [Sc Eu].
        destruct (escaped_chunk _ _ _ _ _ Sc Eu Hc Ho Hd) as (F & ts' & Ho' & Hd').
        exists (percentEncode (pairCodePoint c d) ++ e). rewrite He.
        split; [reflexivity|]. split; [assumption|]. now exists ts'.
      * apply andb_true_iff in W as [W Wt]. apply andb_true_iff in W as [W R2].
        apply andb_true_iff in W as [T R1]. apply negb_true_iff in T. rewrite T.
        bprop R1. bprop R2.
        destruct (IH t ltac:(simpl in Hn; lia) Wt) as (e & He & Hc & ts & Ho & Hd).
        destruct (unit_scalar c L T ltac:(lia)) as [Sc Eu].
        destruct (escaped_chunk _ _ _ _ _ Sc Eu Hc Ho Hd) as (F & ts' & Ho' & Hd').
        exists (percentEncode c ++ e). rewrite He.
        split; [reflexivity|]. split; [assumption|]. now exists ts'.
Qed.

Lemma encode_decode (s : str) :
  isWellFormed s = true ->
  exists e, encodeURIComponent s = Normal e
            /\ Forall EncChar e
            /\ decodeURIComponent e = Normal s.
Proof.
  intros W.
  destruct (encode_decode_bounded (List.length s) s (Nat.le_refl _) W)
    as (e & He & Hc & ts & Ho & Hd).
  exists e. repeat split; try assumption.
  unfold decodeURIComponent. now rewrite Ho.
Qed.

(** A dot segment, plain or escaped, decodes to dots. *)
Lemma encodedDot (a b c : char) :
  URL.isEncodedDot a b c = true -> a = 37 /\ b = 50 /\ (c = 101 \/ c = 69).
Proof. unfold URL.isEncodedDot. intros H. bprop H. lia. Qed.

Lemma singleDot_decodes (e : str) :
  URL.isSingleDot e = true -> decodeURIComponent e = Normal (lit ".").
Proof.
  destruct e as [|a [|b [|c [|x e]]]]; cbn [URL.isSingleDot]; try discriminate.
  - intros H. apply Z.eqb_eq in H. now subst.
  - intros H. apply encodedDot in H as (-> & -> & [->| ->]); reflexivity.
Qed.

Lemma doubleDot_decodes (e : str) :
  URL.isDoubleDot e = true -> decodeURIComponent e = Normal (lit "..").
Proof.
  destruct e as [|a [|b [|c [|d [|x [|y [|z e]]]]]]]; cbn [URL.isDoubleDot];
    try discriminate.
  - intros H. bprop H. destruct H as [-> ->]. reflexivity.
  - intros H. apply orb_true_iff in H as [H|H]; apply andb_true_iff in H as [H1 H2].
    + apply Z.eqb_eq in H1. apply encodedDot in H2 as (-> & -> & [->| ->]);
        subst; reflexivity.
    + apply Z.eqb_eq in H2. apply encodedDot in H1 as (-> & -> & [->| ->]);
        subst; reflexivity.
  - intros H. apply andb_true_iff in H as [H1 H2].
    apply encodedDot in H1 as (-> & -> & [->| ->]);
      apply encodedDot in H2 as (-> & -> & [->| ->]); reflexivity.
Qed.

(** ** Router: the path of an encoded component *)

Lemma encChar_ascii (c : char) :
  EncChar c ->
  33 <= c <= 126 /\ c <> 34 /\ c <> 35 /\ c <> 47 /\ c <> 58 /\ c <> 60
  /\ c <> 62 /\ c <> 63 /\ c <> 92 /\ c <> 94 /\ c <> 96 /\ c <> 123 /\ c <> 125.
Proof.
  intros [U| ->]; [|lia]. pose proof (unescaped_ascii c U). lia.
Qed.

Lemma dropWhile_none (p : char -> bool) (s : str) :
  Forall (fun c => p c = false) s -> dropWhile p s = s.
Proof. destruct 1 as [|c s H]; simpl; [reflexivity | now rewrite H]. Qed.

Lemma dropWhileEnd_none (p : char -> bool) (s : str) :
  Forall (fun c => p c = false) s -> dropWhileEnd p s = s.
Proof.
  intros H. unfold dropWhileEnd.
  rewrite dropWhile_none by now apply Forall_rev. apply rev_involutive.
Qed.

Lemma dropWhileEnd_last (p : char -> bool) (s : str) (c : char) :
  p c = false -> dropWhileEnd p (s ++ [c]) = s ++ [c].
Proof.
  intros H. unfold dropWhileEnd. rewrite rev_app_distr. simpl. rewrite H.
  simpl. now rewrite rev_involutive.
Qed.

Lemma filter_all {A} (p : A -> bool) (l : list A) :
  Forall (fun a => p a = true) l -> List.filter p l = l.
Proof. induction 1 as [|a l H _ IH]; simpl; [reflexivity | now rewrite H, IH]. Qed.

Lemma preprocess_none (s : str) :
  Forall (fun c => 32 < c) s -> URL.preprocess s = s.
Proof.
  intros H. unfold URL.preprocess.
  assert (F : Forall (fun c => URL.isC0OrSpace c = false) s).
  { eapply Forall_impl; [|exact H]. intros c Hc. unfold URL.isC0OrSpace. cbv beta in Hc. bfalse. }
  rewrite dropWhile_none, dropWhileEnd_none by assumption.
  apply filter_all. eapply Forall_impl; [|exact H].
  intros c Hc. unfold URL.isTabOrNewline. cbv beta in Hc |- *. btrue.
Qed.

Lemma codePoints_bmp (s : str) :
  Forall (fun c => c < 55296) s -> URL.codePoints s = s.
Proof.
  induction 1 as [|c s H _ IH]; [reflexivity|]. cbn [URL.codePoints].
  replace (isLead c) with false by (symmetry; unfold isLead; bfalse).
  replace (isTrail c) with false by (symmetry; unfold isTrail; bfalse).
  now rewrite IH.
Qed.

Lemma pathState_run (e rest : list Z) (path : list str) (buffer : str) :
  Forall EncChar e ->
  URL.pathState (e ++ rest) path buffer = URL.pathState rest path (buffer ++ e).
Proof.
  intros H; revert buffer; induction H as [|c e Hc _ IH]; intros buffer.
  - now rewrite app_nil_r.
  - apply encChar_ascii in Hc. cbn [app URL.pathState].
    replace (URL.isSlash c) with false by (symmetry; unfold URL.isSlash; bfalse).
    replace ((c =? 63) || (c =? 35)) with false by (symmetry; bfalse).
    unfold URL.percentEncodePath.
    replace (URL.inPathEncodeSet c) with false
      by (symmetry; unfold URL.inPathEncodeSet; bfalse).
    rewrite IH. now rewrite <- app_assoc.
Qed.

Lemma includes_scheme_mark (s : str) : ~ In 58 s -> includes s (lit "://") = false.
Proof.
  intros H. destruct (includes s (lit "://")) eqn:E; [|reflexivity].
  apply includes_spec in E as (a & b & ->). exfalso. apply H.
  apply in_or_app. right. now left.
Qed.

Lemma split_none (sep : char) (s : str) : ~ In sep s -> split sep s = [s].
Proof.
  induction s as [|c s IH]; intros H; [reflexivity|]. cbn [split].
  replace (c =? sep) with false
    by (symmetry; apply Z.eqb_neq; intros ->; apply H; now left).
  rewrite IH by (intros I; apply H; now right). reflexivity.
Qed.

Lemma split_at (sep : char) (a b : str) :
  ~ In sep a -> split sep (a ++ sep :: b) = a :: split sep b.
Proof.
  induction a as [|c a IH]; intros H; cbn [app split].
  - now rewrite Z.eqb_refl.
  - replace (c =? sep) with false
      by (symmetry; apply Z.eqb_neq; intros ->; apply H; now left).
    rewrite IH by (intros I; apply H; now right). reflexivity.
Qed.

Lemma encChars_not (e : str) (x : char) :
  Forall EncChar e -> (x = 47 \/ x = 58) -> ~ In x e.
Proof.
  intros F Hx I. rewrite Forall_forall in F. apply F, encChar_ascii in I. lia.
Qed.

Section EncodedPath.

(** A path [/w/e]: [w] a word of letters, [e] an encoded component that is
    neither empty nor a dot segment. *)
Variables w e : str.
Hypothesis w_letters : Forall (fun c => isAlpha c = true) w.
Hypothesis w_long : (3 <= List.length w)%nat.
Hypothesis e_chars : Forall EncChar e.
Hypothesis e_nonempty : e <> [].
Hypothesis e_single : URL.isSingleDot e = false.
Hypothesis e_double : URL.isDoubleDot e = false.

Let path : str := 47 :: w ++ 47 :: e.

Lemma w_chars : Forall EncChar w.
Proof.
  eapply Forall_impl; [|exact w_letters]. intros c H. left.
  unfold isUnescaped. now rewrite H.
Qed.

Lemma w_not_dots : URL.isSingleDot w = false /\ URL.isDoubleDot w = false.
Proof.
  destruct w as [|a [|b [|c l]]]; try (simpl in w_long; lia).
  inversion w_letters as [|? ? Ha]; subst.
  assert (a <> 46 /\ a <> 37) as [N1 N2]
      by (unfold isAlpha in Ha; bprop Ha; lia).
  split.
  - destruct l; [|reflexivity]. cbn [URL.isSingleDot]. unfold URL.isEncodedDot. bfalse.
  - destruct l as [|x [|y [|z [|? ?]]]]; try reflexivity; cbn [URL.isDoubleDot];
      unfold URL.isEncodedDot; bfalse.
Qed.

Lemma w_head :
  exists c w', w = c :: w' /\ URL.isSlash c = false /\ (c =? 47) = false.
Proof.
  destruct w as [|c w']; [simpl in w_long; lia|]. exists c, w'.
  inversion w_letters as [|? ? Ha]; subst. unfold isAlpha in Ha. bprop Ha.
  split; [reflexivity|]. split; [unfold URL.isSlash|]; bfalse.
Qed.

Lemma path_chars : Forall (fun c => 33 <= c <= 126) path.
Proof.
  unfold path. constructor; [lia|]. apply Forall_app. split.
  - eapply Forall_impl; [|exact w_chars]. intros c H. now apply encChar_ascii in H.
  - constructor; [lia|]. eapply Forall_impl; [|exact e_chars].
    intros c H. now apply encChar_ascii in H.
Qed.

Lemma path_pathname : urlPathname path = Some (Normal path).
Proof.
  unfold urlPathname.
  rewrite includes_scheme_mark.
  2:{ unfold path. intros [H|H]; [lia|]. apply in_app_or in H as [H|[H|H]];
      [revert H | lia | revert H]; apply encChars_not; auto using w_chars. }
  unfold URL.pathnameOnBase.
  rewrite codePoints_bmp
    by (eapply Forall_impl; [|exact path_chars]; cbv beta; intros; lia).
  rewrite preprocess_none
    by (eapply Forall_impl; [|exact path_chars]; cbv beta; intros; lia).
  unfold path. change (URL.hasScheme (47 :: w ++ 47 :: e)) with false. cbv iota.
  change (URL.isSlash 47) with true. cbv iota.
  destruct w_head as (c & w' & Ew & Hc & _).
  rewrite Ew. cbn [app]. rewrite Hc.
  change (c :: w' ++ 47 :: e) with ((c :: w') ++ 47 :: e). rewrite <- Ew.
  rewrite pathState_run by apply w_chars. cbn [app URL.pathState].
  change (URL.isSlash 47) with true. cbv iota.
  unfold URL.pushSegment at 1. destruct w_not_dots as [-> ->].
  rewrite <- (app_nil_r e) at 1. rewrite pathState_run by assumption.
  cbn [app URL.pathState]. unfold URL.pushSegment. rewrite e_single, e_double.
  cbn [app URL.serializePath flat_map]. now rewrite app_nil_r.
Qed.

Lemma path_parts : pathParts path = [w; e].
Proof.
  unfold pathParts, stripSlashes, path. cbn [dropWhile]. rewrite Z.eqb_refl.
  destruct w_head as (c & w' & Ew & _ & Hc).
  rewrite Ew. cbn [app dropWhile]. rewrite Hc.
  change (c :: w' ++ 47 :: e) with ((c :: w') ++ 47 :: e). rewrite <- Ew.
  destruct (exists_last e_nonempty) as (e' & x & Ee).
  assert (Hx : (x =? 47) = false).
  { apply Z.eqb_neq. intros ->. apply (encChars_not e 47 e_chars); [now left|].
    rewrite Ee. apply in_or_app. right. now left. }
  replace (w ++ 47 :: e) with ((w ++ 47 :: e') ++ [x])
    by (rewrite Ee, <- app_assoc; reflexivity).
  rewrite dropWhileEnd_last by assumption.
  rewrite <- app_assoc. cbn [app]. rewrite <- Ee.
  rewrite split_at by (apply encChars_not; [apply w_chars | now left]).
  rewrite split_none by (apply encChars_not; [assumption | now left]).
  cbn [List.filter]. rewrite Ew at 1. cbn [nonEmpty].
  destruct e; [congruence | reflexivity].
Qed.

End EncodedPath.

Lemma not_dot_segment (id e : str) :
  decodeURIComponent e = Normal id -> id <> lit "." -> id <> lit ".." ->
  URL.isSingleDot e = false /\ URL.isDoubleDot e = false.
Proof.
  intros D N1 N2. split.
  - destruct (URL.isSingleDot e) eqn:E; [|reflexivity].
    apply singleDot_decodes in E. congruence.
  - destruct (URL.isDoubleDot e) eqn:E; [|reflexivity].
    apply doubleDot_decodes in E. congruence.
Qed.

(** The route of [/w/e] for a keyword [w] that takes an id. *)
Lemma detail_route (w e id : str) (detail : str -> ParsedRoute) :
  Forall (fun c => isAlpha c = true) w -> (3 <= List.length w)%nat ->
  (forall p, routeOfPath p
             = match pathParts p with
               | [w'; e'] =>
                 if str_eqb w' w
                 then (if nonEmpty e'
                       then id' <- decodeURIComponent e' ;; Normal (detail id')
                       else routeOfPath p)
                 else routeOfPath p
               | _ => routeOfPath p
               end) ->
  routableId id -> encodeURIComponent id = Normal e ->
  Forall EncChar e -> decodeURIComponent e = Normal id ->
  routeOf (47 :: w ++ 47 :: e) = Some (Normal (detail id)).
Proof.
  intros Hw Hl Hroute (W & N0 & N1 & N2) He Hc Hd.
  assert (Ne : e <> []) by (intros ->; apply N0; now injection Hd).
  destruct (not_dot_segment id e Hd N1 N2) as [S1 S2].
  unfold routeOf. rewrite (path_pathname w e) by assumption.
  rewrite Hroute, (path_parts w e) by assumption.
  rewrite str_eqb_refl, Hd.
  now replace (nonEmpty e) with true by (symmetry; now apply nonEmpty_true).
Qed.

Lemma events_route (p : str) :
  routeOfPath p
  = match pathParts p with
    | [w'; e'] =>
      if str_eqb w' (lit "events")
      then (if nonEmpty e'
            then id' <- decodeURIComponent e' ;; Normal (eventDetail id')
            else routeOfPath p)
      else routeOfPath p
    | _ => routeOfPath p
    end.
Proof.
  unfold routeOfPath. destruct (pathParts p) as [|w' [|e' [|x l]]]; try reflexivity.
  destruct (str_eqb w' (lit "events")) eqn:E; [|reflexivity].
  cbn [nth_error truthy orEmpty]. now destruct (nonEmpty e').
Qed.

Lemma bills_route (p : str) :
  routeOfPath p
  = match pathParts p with
    | [w'; e'] =>
      if str_eqb w' (lit "bills")
      then (if nonEmpty e'
            then id' <- decodeURIComponent e' ;; Normal (billDetail id')
            else routeOfPath p)
      else routeOfPath p
    | _ => routeOfPath p
    end.
Proof.
  unfold routeOfPath. destruct (pathParts p) as [|w' [|e' [|x l]]]; try reflexivity.
  destruct (str_eqb w' (lit "bills")) eqn:E; [|reflexivity].
  apply str_eqb_eq in E. subst w'.
  cbn [nth_error truthy orEmpty]. cbn -[nonEmpty decodeURIComponent].
  now destruct (nonEmpty e').
Qed.

(** C2, as the code has it.  For every route whose detail id, if it has one,
    is a well-formed string that is neither empty nor [.] nor [..],
    [hrefFor] gives a path and [routeOf] of that path is the route: the id
    goes out percent-encoded and comes back decoded, whatever characters it
    holds. *)
Theorem route_round_trip (r : ParsedRoute) :
  routable r -> exists h, hrefFor r = Normal h /\ routeOf h = Some (Normal r).
Proof.
  destruct r as [| |id| | |id| | |]; cbn [routable]; intros R;
    try (eexists; split; reflexivity).
  - destruct (encode_decode id (proj1 R)) as (e & He & Hc & Hd).
    exists (lit "/events/" ++ e). cbn [hrefFor]. rewrite He. split; [reflexivity|].
    apply (detail_route (lit "events") e id eventDetail); try assumption.
    + repeat constructor.
    + simpl; lia.
    + apply events_route.
  - destruct (encode_decode id (proj1 R)) as (e & He & Hc & Hd).
    exists (lit "/bills/" ++ e). cbn [hrefFor]. rewrite He. split; [reflexivity|].
    apply (detail_route (lit "bills") e id billDetail); try assumption.
    + repeat constructor.
    + simpl; lia.
    + apply bills_route.
Qed.

Lemma route_round_trip_witness :
  routable (eventDetail (lit "a/b c"))
  /\ exists h, hrefFor (eventDetail (lit "a/b c")) = Normal h
               /\ routeOf h = Some (Normal (eventDetail (lit "a/b c"))).
Proof.
  assert (R : routable (eventDetail (lit "a/b c")))
    by (repeat split; discriminate).
  split; [exact R | exact (route_round_trip _ R)].
Defined.

Example href_of_slash_and_space :
  hrefFor (eventDetail (lit "a/b c")) = Normal (lit "/events/a%2Fb%20c").
Proof. reflexivity. Qed.

(** C2 read for every id fails: the detail route of the empty id goes out as
    [/events/], which comes back as the list route. *)
Lemma route_round_trip_empty_id :
  hrefFor (eventDetail []) = Normal (lit "/events/")
  /\ routeOf (lit "/events/") = Some (Normal Route.events)
  /\ Route.events <> eventDetail [].
Proof. repeat split. discriminate. Qed.

Example route_round_trip_dot :
  hrefFor (billDetail (lit ".")) = Normal (lit "/bills/.")
  /\ routeOf (lit "/bills/.") = Some (Normal Route.bills).
Proof. split; reflexivity. Qed.

Example route_round_trip_dot_dot :
  hrefFor (eventDetail (lit "..")) = Normal (lit "/events/..")
  /\ routeOf (lit "/events/..") = Some (Normal home).
Proof. split; reflexivity. Qed.

Example hrefFor_lone_surrogate : hrefFor (eventDetail [55357]) = Throw URIError.
Proof. reflexivity. Qed.

(** ** Fallbacks *)

Lemma routeOfPath_fallback (pathname p0 : str) (rest : list str) :
  pathParts pathname = p0 :: rest -> ~ In p0 routeKeywords ->
  routeOfPath pathname = Normal home.
Proof.
  intros E N. unfold routeOfPath. rewrite E.
  unfold routeKeywords in N. cbn [In] in N.
  repeat match goal with
         | |- context [str_eqb p0 ?k] =>
           replace (str_eqb p0 k) with false
             by (symmetry; apply str_eqb_neq; intros ->; tauto)
         end.
  reflexivity.
Qed.

Lemma eventTitleOr_miss (id : str) :
  (forall ev, In ev events -> EventItem.id ev <> id) -> eventTitleOr id = id.
Proof.
  intros H. unfold eventTitleOr.
  destruct (List.find _ _) as [ev|] eqn:F; [|reflexivity].
  apply find_some in F as [I E]. apply str_eqb_eq in E. now apply H in I.
Qed.

Lemma billTitleOr_miss (id : str) :
  (forall b, In b bills -> Bill.id b <> id) -> billTitleOr id = id.
Proof.
  intros H. unfold billTitleOr.
  destruct (List.find _ _) as [b|] eqn:F; [|reflexivity].
  apply find_some in F as [I E]. apply str_eqb_eq in E. now apply H in I.
Qed.

(** C7.  The code at the failing inputs.  [routeOf] raises URIError on a
    detail segment that is not valid percent-encoding: [decodeURIComponent]
    is called on the segment as it stands.  It raises TypeError on a path
    that holds [://], whose first segment is no keyword: such an input is
    parsed without a base.  So it is not the case that no input makes
    [routeOf] signal an error. *)
Theorem routeOf_malformed_escape :
  routeOf (lit "/events/%") = Some (Throw URIError)
  /\ routeOf (lit "/a://b") = Some (Throw TypeError)
  /\ ~ (forall u e, routeOf u <> Some (Throw e)).
Proof.
  split; [reflexivity|]. split; [reflexivity|].
  intros H. now apply (H (lit "/events/%") URIError).
Qed.

(* --------------------------------------------------------------------- *)
(** * Part III. Further properties                                        *)
(* --------------------------------------------------------------------- *)

(** ** Invite gate *)

Lemma arrayIncludes_In (arr : list str) (s : str) :
  arrayIncludes arr s = true <-> In s arr.
Proof.
  unfold arrayIncludes. rewrite existsb_exists. split.
  - intros (x & I & E). apply str_eqb_eq in E. now subst.
  - intros I. exists s. split; [assumption | apply str_eqb_refl].
Qed.

Lemma split_sep_free (sep : char) (s : str) :
  Forall (fun seg => ~ In sep seg) (split sep s).
Proof.
  induction s as [|c s IH]; cbn [split].
  - constructor; [intros [] | constructor].
  - destruct (Z.eqb_spec c sep) as [->|N].
    + constructor; [intros [] | assumption].
    + destruct (split sep s) as [|seg segs]; [repeat constructor; intros [H|[]]; congruence|].
      inversion IH as [|? ? H1 H2]; subst. constructor; [|assumption].
      intros [H|H]; [congruence | contradiction].
Qed.

Lemma split_two (sep : char) (a b : str) :
  ~ In sep a -> ~ In sep b -> split sep (a ++ sep :: b) = [a; b].
Proof.
  intros Ha Hb. revert Ha; induction a as [|c a IH]; intros Ha; cbn [app split].
  - rewrite Z.eqb_refl. f_equal.
    clear Ha. induction b as [|d b IHb]; [reflexivity|]. cbn [split].
    replace (d =? sep) with false
      by (symmetry; apply Z.eqb_neq; intros ->; apply Hb; now left).
    rewrite IHb by (intros I; apply Hb; now right). reflexivity.
  - replace (c =? sep) with false
      by (symmetry; apply Z.eqb_neq; intros ->; apply Ha; now left).
    rewrite IH by (intros I; apply Ha; now right). reflexivity.
Qed.

Lemma hexChar_hex (d : Z) : 0 <= d < 16 -> isHexChar (hexChar d).
Proof.
  intros H. unfold hexChar, isHexChar. destruct (Z.ltb_spec d 10); lia.
Qed.

Lemma hexFrom_chars (fuel : nat) (n : Z) (acc : str) :
  Forall isHexChar acc -> Forall isHexChar (hexFrom fuel n acc).
Proof.
  revert n acc; induction fuel as [|fuel IH]; intros n acc H; cbn [hexFrom];
    [assumption|].
  assert (F : Forall isHexChar (hexChar (n mod 16) :: acc)).
  { constructor; [|assumption]. apply hexChar_hex.
    apply Z.mod_pos_bound. lia. }
  destruct (n <? 16); [assumption | now apply IH].
Qed.

Lemma hexFrom_length (fuel : nat) (n : Z) (acc : str) (k : nat) :
  0 <= n < 16 ^ Z.of_nat (S k) ->
  (S (List.length acc) <= List.length (hexFrom (S fuel) n acc) <= S k + List.length acc)%nat.
Proof.
  revert n acc k; induction fuel as [|fuel IH]; intros n acc k H; cbn [hexFrom].
  - destruct (n <? 16); simpl; lia.
  - destruct (Z.ltb_spec n 16) as [L|G]; [simpl; lia|].
    destruct k as [|k]; [simpl in H; lia|].
    assert (B : 0 <= n / 16 < 16 ^ Z.of_nat (S k)).
    { split; [apply Z.div_pos; lia|].
      apply Z.div_lt_upper_bound; [lia|].
      replace (16 * 16 ^ Z.of_nat (S k)) with (16 ^ Z.of_nat (S (S k)));
        [lia|].
      rewrite (Nat2Z.inj_succ (S k)), Z.pow_succ_r by lia. reflexivity. }
    pose proof (IH (n / 16) (hexChar (n mod 16) :: acc) k B) as R.
    cbn [hexFrom List.length] in R |- *. lia.
Qed.

Lemma hexValue_from (s : str) (a : Z) :
  fold_left (fun acc c => acc * 16 + (if c <? 58 then c - 48 else c - 87)) s a
  = a * 16 ^ Z.of_nat (List.length s) + hexValue s.
Proof.
  unfold hexValue. revert a; induction s as [|c s IH]; intros a.
  - simpl. lia.
  - cbn [fold_left List.length]. rewrite IH, (IH (0 * 16 + _)).
    rewrite Nat2Z.inj_succ, Z.pow_succ_r by lia. ring.
Qed.

Lemma hexValue_cons (d : Z) (s : str) :
  0 <= d < 16 ->
  hexValue (hexChar d :: s) = d * 16 ^ Z.of_nat (List.length s) + hexValue s.
Proof.
  intros H. unfold hexValue at 1. cbn [fold_left]. rewrite hexValue_from.
  f_equal. f_equal. unfold hexChar.
  destruct (Z.ltb_spec d 10).
  - replace (48 + d <? 58) with true by (symmetry; apply Z.ltb_lt; lia). lia.
  - replace (87 + d <? 58) with false by (symmetry; apply Z.ltb_ge; lia). lia.
Qed.

Lemma hexFrom_value (fuel : nat) (n : Z) (acc : str) :
  0 <= n < 16 ^ Z.of_nat (S fuel) ->
  hexValue (hexFrom (S fuel) n acc)
  = n * 16 ^ Z.of_nat (List.length acc) + hexValue acc.
Proof.
  revert n acc; induction fuel as [|fuel IH]; intros n acc H.
  - cbn [hexFrom]. replace (n <? 16) with true
      by (symmetry; apply Z.ltb_lt; simpl in H; lia).
    rewrite hexValue_cons by (apply Z.mod_pos_bound; lia).
    rewrite Z.mod_small by (simpl in H; lia). reflexivity.
  - cbn [hexFrom]. destruct (Z.ltb_spec n 16) as [L|G].
    + rewrite hexValue_cons by (apply Z.mod_pos_bound; lia).
      rewrite Z.mod_small by lia. reflexivity.
    + assert (B : 0 <= n / 16 < 16 ^ Z.of_nat (S fuel)).
      { split; [apply Z.div_pos; lia|].
        apply Z.div_lt_upper_bound; [lia|].
        replace (16 * 16 ^ Z.of_nat (S fuel)) with (16 ^ Z.of_nat (S (S fuel)));
          [lia|].
        rewrite (Nat2Z.inj_succ (S fuel)), Z.pow_succ_r by lia. reflexivity. }
      pose proof (IH (n / 16) (hexChar (n mod 16) :: acc) B) as R.
      cbn [hexFrom] in R. rewrite R.
      rewrite hexValue_cons by (apply Z.mod_pos_bound; lia).
      cbn [List.length]. rewrite Nat2Z.inj_succ, Z.pow_succ_r by lia.
      pose proof (Z.div_mod n 16 ltac:(lia)). nia.
Qed.

Lemma log2_fuel (n : Z) : 0 <= n -> n < 16 ^ Z.of_nat (S (Z.to_nat (Z.log2 n))).
Proof.
  intros H. destruct (Z.eq_dec n 0) as [->|N]; [simpl; lia|].
  pose proof (Z.log2_nonneg n) as L.
  pose proof (Z.log2_spec n ltac:(lia)) as [_ U].
  rewrite Nat2Z.inj_succ, Z2Nat.id by lia.
  eapply Z.lt_le_trans; [exact U|].
  replace 16 with (2 ^ 4) by reflexivity. rewrite <- Z.pow_mul_r by lia.
  apply Z.pow_le_mono_r; lia.
Qed.

Lemma hexFrom_suffix (fuel : nat) (n : Z) (acc : str) :
  exists p, hexFrom fuel n acc = p ++ acc.
Proof.
  revert n acc; induction fuel as [|fuel IH]; intros n acc; cbn [hexFrom].
  - now exists [].
  - destruct (n <? 16).
    + now exists [hexChar (n mod 16)].
    + destruct (IH (n / 16) (hexChar (n mod 16) :: acc)) as [p E].
      exists (p ++ [hexChar (n mod 16)]). rewrite E, <- app_assoc. reflexivity.
Qed.

(** [toString16] writes its argument, in hexadecimal digits only. *)
Lemma toString16_spec (n : Z) :
  0 <= n ->
  hexValue (toString16 n) = n /\ Forall isHexChar (toString16 n)
  /\ toString16 n <> [].
Proof.
  intros H. unfold toString16. split; [|split].
  - rewrite hexFrom_value by (split; [assumption | now apply log2_fuel]).
    simpl. unfold hexValue. simpl. lia.
  - apply hexFrom_chars. constructor.
  - cbn [hexFrom]. destruct (n <? 16); [discriminate|].
    destruct (hexFrom_suffix (Z.to_nat (Z.log2 n)) (n / 16) [hexChar (n mod 16)])
      as [p E].
    rewrite E. destruct p; discriminate.
Qed.

Lemma toString16_uint32 (n : Z) :
  0 <= n < 4294967296 -> (1 <= List.length (toString16 n) <= 8)%nat.
Proof.
  intros H. unfold toString16.
  pose proof (hexFrom_length (Z.to_nat (Z.log2 n)) n [] 7) as R.
  cbn [List.length] in R. apply R. split; [lia|].
  change (16 ^ Z.of_nat 8) with 4294967296. lia.
Qed.

Lemma hex_not_dot (s : str) : Forall isHexChar s -> ~ In 46 s.
Proof.
  intros F I. rewrite Forall_forall in F. apply F in I. unfold isHexChar in I. lia.
Qed.

Lemma toUint32_range (z : Z) : 0 <= toUint32 z < 4294967296.
Proof. unfold toUint32. apply Z.mod_pos_bound. lia. Qed.

Section InviteProps.

Variable toLowerCase : str -> str.
Variable env : Env.t.

Let allowed := ALLOWED_EMAILS toLowerCase env.
Let hash := hashEmail toLowerCase.

Lemma hashEmail_no_dot (e : str) : ~ In 46 (hash e).
Proof.
  unfold hash, hashEmail. intros [H|H]; [discriminate|]. revert H.
  apply hex_not_dot. apply toString16_spec. apply toUint32_range.
Qed.

Lemma get_set (key val : str) (st : Storage.t) :
  working st -> Storage.get key (Storage.set key val st) = Some val.
Proof.
  intros [B T]. destruct st as [b t l]. cbn in B, T. subst b t.
  unfold Storage.get, Storage.set, Storage.getItem, Storage.setItem.
  cbn [Storage.isBrowser Storage.throws Storage.items negb List.find fst snd].
  now rewrite str_eqb_refl.
Qed.

Lemma getItem_remove (key : str) (l : list (str * str)) :
  Storage.getItem key (Storage.removeItem key l) = None.
Proof.
  unfold Storage.getItem, Storage.removeItem.
  destruct (List.find _ _) as [kv|] eqn:F; [|reflexivity].
  apply find_some in F as [I E]. apply filter_In in I as [_ N].
  rewrite E in N. discriminate.
Qed.

Lemma get_remove (key : str) (st : Storage.t) :
  Storage.get key (Storage.remove key st) = None.
Proof.
  destruct st as [[|] [|] l]; try reflexivity.
  unfold Storage.get, Storage.remove.
  cbn [Storage.isBrowser Storage.throws Storage.items negb].
  apply getItem_remove.
Qed.

Lemma getItem_other (key k val : str) (l : list (str * str)) :
  k <> key ->
  Storage.getItem k (Storage.setItem key val l) = Storage.getItem k l
  /\ Storage.getItem k (Storage.removeItem key l) = Storage.getItem k l.
Proof.
  intros N.
  assert (R : Storage.getItem k (Storage.removeItem key l) = Storage.getItem k l).
  { unfold Storage.getItem, Storage.removeItem.
    induction l as [|[a b] l IH]; [reflexivity|]. cbn [List.filter fst].
    destruct (str_eqb a key) eqn:E; cbn [negb List.find fst].
    - apply str_eqb_eq in E. subst a.
      replace (str_eqb key k) with false
        by (symmetry; apply str_eqb_neq; congruence). exact IH.
    - destruct (str_eqb a k); [reflexivity | exact IH]. }
  split; [|exact R].
  unfold Storage.setItem, Storage.getItem at 1. cbn [List.find fst].
  replace (str_eqb key k) with false by (symmetry; apply str_eqb_neq; congruence).
  exact R.
Qed.

Lemma token_parts (st : Storage.t) (token : str) :
  Storage.get INVITE_KEY st = Some token -> token <> [] ->
  isInvited toLowerCase env st
  = (let parts := split 46 token in
     if negb (truthy (nth_error parts 0)) || negb (truthy (nth_error parts 1))
     then false
     else arrayIncludes allowed (orEmpty (nth_error parts 0))
          && optstr_eqb (nth_error parts 1) (Some (hash (orEmpty (nth_error parts 0)))))
  /\ currentInviteEmail toLowerCase st
     = (let parts := split 46 token in
        if negb (truthy (nth_error parts 0))
           || negb (optstr_eqb (nth_error parts 1)
                      (Some (hash (orEmpty (nth_error parts 0)))))
        then None else nth_error parts 0).
Proof.
  intros G N. unfold isInvited, currentInviteEmail. rewrite G.
  cbn [truthy orEmpty]. apply nonEmpty_true in N. rewrite N. cbn [negb].
  split; reflexivity.
Qed.

Lemma no_token (st : Storage.t) :
  truthy (Storage.get INVITE_KEY st) = false ->
  isInvited toLowerCase env st = false /\ currentInviteEmail toLowerCase st = None.
Proof.
  intros H. unfold isInvited, currentInviteEmail. now rewrite H.
Qed.

End InviteProps.


Lemma slice_prefix {T} (l : list T) (k : Z) :
  0 <= k -> slice l 0 k = firstn (Z.to_nat k) l.
Proof.
  intros H. unfold slice. cbn [Z.ltb Z.compare].
  replace (k <? 0) with false by (symmetry; apply Z.ltb_ge; lia).
  replace (Z.min 0 (Z.of_nat (List.length l))) with 0 by lia.
  cbn [Z.to_nat skipn]. rewrite Z.sub_0_r.
  destruct (Z_le_gt_dec k (Z.of_nat (List.length l))).
  - f_equal. lia.
  - apply firstn_beyond; lia.
Qed.

Lemma slice_copy {T} (l : list T) : slice l 0 (Z.of_nat (List.length l)) = l.
Proof. rewrite slice_prefix by lia. rewrite Nat2Z.id. apply firstn_all. Qed.

Lemma firstn_incl {T} (n : nat) (l : list T) (x : T) : In x (firstn n l) -> In x l.
Proof.
  intros H. rewrite <- (firstn_skipn n l). apply in_or_app. now left.
Qed.

Section InviteGate.

Variable toLowerCase : str -> str.
Variable env : Env.t.

Let allowed := ALLOWED_EMAILS toLowerCase env.
Let fromEnv := allowedEnv toLowerCase env.
Let normal (email : str) := toLowerCase (trim email).

Lemma allowed_firstn :
  allowedEmails toLowerCase env
  = firstn 5 (match fromEnv with [] => FALLBACK_ALLOWED | _ :: _ => fromEnv end).
Proof.
  unfold allowedEmails. rewrite slice_copy. unfold ALLOWED_EMAILS.
  now rewrite slice_prefix by lia.
Qed.

(** The allowed list never has more than five emails and none of them is
    empty; it has exactly five unless the environment lists between one and
    four, and then it has that many. *)
Theorem allowedEmails_count :
  (List.length (allowedEmails toLowerCase env) <= 5)%nat
  /\ Forall (fun e => e <> []) (allowedEmails toLowerCase env)
  /\ List.length (allowedEmails toLowerCase env)
     = match List.length fromEnv with
       | O => 5%nat
       | S n => Nat.min 5 (S n)
       end.
Proof.
  rewrite allowed_firstn. split; [apply firstn_le_length|]. split.
  - apply Forall_forall. intros e I. apply firstn_incl in I.
    destruct fromEnv eqn:E.
    + cbn in I. intuition (subst; discriminate).
    + rewrite <- E in I. unfold fromEnv, allowedEnv in I.
      apply filter_In in I as [_ N]. now apply nonEmpty_true.
  - rewrite length_firstn. destruct fromEnv; reflexivity.
Qed.

(** The hash of an email is the letter h followed by one to eight lower-case
    hexadecimal digits, which write the 32-bit value the loop ends with. *)
Theorem hashEmail_shape (email : str) :
  exists digits,
    hashEmail toLowerCase email = 104 :: digits
    /\ (1 <= List.length digits <= 8)%nat
    /\ Forall isHexChar digits
    /\ hexValue digits = toUint32 (fold_left hashStep (toLowerCase email) 2166136261).
Proof.
  exists (toString16 (toUint32 (fold_left hashStep (toLowerCase email) 2166136261))).
  pose proof (toUint32_range (fold_left hashStep (toLowerCase email) 2166136261)) as R.
  split; [reflexivity|]. split; [now apply toString16_uint32|].
  split; apply toString16_spec; lia.
Qed.

Lemma signIn_ok (email : str) (st : Storage.t) :
  SignIn.ok (fst (signIn toLowerCase env email st)) = true
  <-> includes (normal email) (lit "@") = true /\ In (normal email) allowed.
Proof.
  unfold signIn. fold (normal email). fold allowed.
  destruct (includes (normal email) (lit "@")); cbn [negb fst SignIn.ok].
  - destruct (arrayIncludes allowed (normal email)) eqn:A; cbn [negb fst SignIn.ok].
    + apply arrayIncludes_In in A. tauto.
    + split; [discriminate|]. intros [_ I]. apply arrayIncludes_In in I. congruence.
  - split; [discriminate | intros [H _]; discriminate].
Qed.

Lemma signIn_store (email : str) (st : Storage.t) :
  snd (signIn toLowerCase env email st)
  = if SignIn.ok (fst (signIn toLowerCase env email st))
    then Storage.set INVITE_KEY
           (normal email ++ lit "." ++ hashEmail toLowerCase (normal email)) st
    else st.
Proof.
  unfold signIn. fold (normal email).
  destruct (includes (normal email) (lit "@")); [|reflexivity].
  now destruct (arrayIncludes _ _).
Qed.

Lemma get_other (key k val : str) (st : Storage.t) :
  k <> key ->
  Storage.get k (Storage.set key val st) = Storage.get k st
  /\ Storage.get k (Storage.remove key st) = Storage.get k st.
Proof.
  intros N. destruct st as [[|] [|] l]; try (split; reflexivity).
  unfold Storage.get, Storage.set, Storage.remove.
  cbn [Storage.isBrowser Storage.throws Storage.items negb].
  now apply getItem_other.
Qed.

(** Signing in and signing out leave every other key of the storage as it
    was; a sign-in that is refused leaves the whole storage as it was; and a
    sign-in is accepted exactly when the trimmed, lower-cased email contains
    an at sign and is on the allowed list. *)
Theorem signIn_frame (email : str) (st : Storage.t) :
  (forall k, k <> INVITE_KEY ->
      Storage.get k (snd (signIn toLowerCase env email st)) = Storage.get k st
      /\ Storage.get k (signOut st) = Storage.get k st)
  /\ (SignIn.ok (fst (signIn toLowerCase env email st)) = false ->
      snd (signIn toLowerCase env email st) = st)
  /\ (SignIn.ok (fst (signIn toLowerCase env email st)) = true
      <-> includes (normal email) (lit "@") = true /\ In (normal email) allowed).
Proof.
  split; [|split].
  - intros k N. rewrite signIn_store. unfold signOut.
    destruct (SignIn.ok _); split; try reflexivity; now apply get_other.
  - intros H. now rewrite signIn_store, H.
  - apply signIn_ok.
Qed.

(** With a storage that works, an accepted sign-in with an email that has no
    dot is remembered: [isInvited] is true and [currentInviteEmail] is the
    normalised email. *)
Theorem signIn_remembered (email : str) (st : Storage.t) :
  working st ->
  SignIn.ok (fst (signIn toLowerCase env email st)) = true ->
  ~ In 46 (normal email) ->
  isInvited toLowerCase env (snd (signIn toLowerCase env email st)) = true
  /\ currentInviteEmail toLowerCase (snd (signIn toLowerCase env email st))
     = Some (normal email).
Proof.
  intros W Ok D. rewrite signIn_store, Ok.
  apply signIn_ok in Ok as [At I].
  set (e := normal email) in *. set (h := hashEmail toLowerCase e).
  assert (Ne : e <> []) by (intros E; rewrite E in At; discriminate).
  assert (Nt : e ++ lit "." ++ h <> []) by (destruct e; [congruence | discriminate]).
  destruct (token_parts toLowerCase env _ _ (get_set INVITE_KEY _ st W) Nt) as [-> ->].
  change (e ++ lit "." ++ h) with (e ++ 46 :: h).
  rewrite split_two by (assumption || apply hashEmail_no_dot).
  cbn [nth_error truthy orEmpty]. fold h.
  replace (nonEmpty e) with true by (symmetry; now apply nonEmpty_true).
  replace (nonEmpty h) with true by reflexivity.
  cbn [negb orb optstr_eqb]. rewrite str_eqb_refl.
  split; [|reflexivity]. rewrite andb_true_r. now apply arrayIncludes_In.
Qed.

Lemma invited_email (st : Storage.t) :
  isInvited toLowerCase env st = true ->
  exists e, currentInviteEmail toLowerCase st = Some e
            /\ In e allowed /\ ~ In 46 e /\ e <> [].
Proof.
  intros H.
  destruct (truthy (Storage.get INVITE_KEY st)) eqn:T.
  2:{ apply (no_token toLowerCase env) in T as [T _]. congruence. }
  destruct (Storage.get INVITE_KEY st) as [token|] eqn:G; [|discriminate].
  cbn [truthy] in T. apply nonEmpty_true in T.
  destruct (token_parts toLowerCase env st token G T) as [EI EC].
  rewrite EI in H. rewrite EC. cbv zeta in *.
  pose proof (split_sep_free 46 token) as F.
  destruct (split 46 token) as [|e [|h parts]]; cbn [nth_error truthy] in *;
    try discriminate.
  - rewrite orb_true_r in H. discriminate.
  - destruct (nonEmpty e) eqn:Ne; [|discriminate]. cbn [negb orb orEmpty] in *.
    destruct (nonEmpty h); [|discriminate]. cbn [negb] in H.
    apply andb_true_iff in H as [A Hh]. rewrite Hh. cbn [negb].
    exists e. split; [reflexivity|]. split; [now apply arrayIncludes_In|].
    inversion F; subst. split; [assumption | now apply nonEmpty_true].
Qed.

(** Whenever [isInvited] is true, [currentInviteEmail] gives an email, this
    email is on the allowed list, and it holds no dot. *)
Theorem isInvited_email (st : Storage.t) :
  isInvited toLowerCase env st = true ->
  exists e, currentInviteEmail toLowerCase st = Some e
            /\ In e allowed /\ ~ In 46 e /\ e <> [].
Proof. apply invited_email. Qed.

(** When every allowed email holds a dot, [isInvited] is false in every
    state of the storage, also right after an accepted sign-in: the token is
    split at its first dots, so the email read back is never an allowed one. *)
Theorem isInvited_dotted (st : Storage.t) :
  (forall a, In a allowed -> In 46 a) -> isInvited toLowerCase env st = false.
Proof.
  intros H. destruct (isInvited toLowerCase env st) eqn:E; [|reflexivity].
  apply invited_email in E as (e & _ & I & D & _). now apply H in I.
Qed.

(** After [signOut] nobody is invited, whatever the storage held. *)
Theorem signOut_forgets (st : Storage.t) :
  isInvited toLowerCase env (signOut st) = false
  /\ currentInviteEmail toLowerCase (signOut st) = None.
Proof.
  apply no_token. unfold signOut. now rewrite get_remove.
Qed.

(** Off the browser, or when the storage raises, a sign-in changes nothing
    and nobody is invited, even if the sign-in was accepted. *)
Theorem storage_unavailable (email : str) (st : Storage.t) :
  Storage.isBrowser st = false \/ Storage.throws st = true ->
  snd (signIn toLowerCase env email st) = st
  /\ isInvited toLowerCase env st = false
  /\ currentInviteEmail toLowerCase st = None.
Proof.
  intros U.
  assert (G : forall k, Storage.get k st = None).
  { intros k. unfold Storage.get. destruct U as [-> | ->]; [reflexivity|].
    now destruct (Storage.isBrowser st). }
  assert (S : forall k v, Storage.set k v st = st).
  { intros k v. unfold Storage.set. destruct U as [-> | ->]; [reflexivity|].
    now destruct (Storage.isBrowser st). }
  split.
  - rewrite signIn_store, S. now destruct (SignIn.ok _).
  - apply no_token. now rewrite G.
Qed.

End InviteGate.


Lemma signIn_frame_witness :
  lit "team" <> INVITE_KEY
  /\ Storage.get (lit "team") (snd (signIn asciiLower defaultEnv (lit "2029vp@highpoint.edu")
                                      browserStorage))
     = Storage.get (lit "team") browserStorage.
Proof.
  assert (N : lit "team" <> INVITE_KEY) by discriminate.
  split; [exact N|].
  apply (signIn_frame asciiLower defaultEnv (lit "2029vp@highpoint.edu")
           browserStorage), N.
Defined.

Lemma signIn_remembered_witness :
  working browserStorage
  /\ SignIn.ok (fst (signIn asciiLower localEnv (lit " User@LocalHost ") browserStorage)) = true
  /\ ~ In 46 (asciiLower (trim (lit " User@LocalHost ")))
  /\ isInvited asciiLower localEnv
       (snd (signIn asciiLower localEnv (lit " User@LocalHost ") browserStorage)) = true.
Proof.
  assert (W : working browserStorage) by (split; reflexivity).
  assert (D : ~ In 46 (asciiLower (trim (lit " User@LocalHost "))))
    by (cbn; intuition discriminate).
  split; [exact W|]. split; [reflexivity|]. split; [exact D|].
  apply (signIn_remembered asciiLower localEnv (lit " User@LocalHost ")
           browserStorage W eq_refl D).
Defined.

Lemma isInvited_email_witness :
  isInvited asciiLower localEnv
    (snd (signIn asciiLower localEnv (lit "user@localhost") browserStorage)) = true
  /\ exists e,
       currentInviteEmail asciiLower
         (snd (signIn asciiLower localEnv (lit "user@localhost") browserStorage))
       = Some e
       /\ In e (ALLOWED_EMAILS asciiLower localEnv) /\ ~ In 46 e /\ e <> [].
Proof.
  split; [reflexivity|].
  apply (isInvited_email asciiLower localEnv). reflexivity.
Defined.

Lemma isInvited_dotted_witness :
  (forall a, In a (ALLOWED_EMAILS asciiLower defaultEnv) -> In 46 a)
  /\ SignIn.ok (fst (signIn asciiLower defaultEnv (lit "2029president@highpoint.edu")
                       browserStorage)) = true
  /\ isInvited asciiLower defaultEnv
       (snd (signIn asciiLower defaultEnv (lit "2029president@highpoint.edu")
               browserStorage)) = false.
Proof.
  assert (H : forall a, In a (ALLOWED_EMAILS asciiLower defaultEnv) -> In 46 a).
  { intros a I. cbn in I.
    repeat (destruct I as [<-|I]; [cbn; tauto|]). destruct I. }
  split; [exact H|]. split; [reflexivity|].
  apply (isInvited_dotted asciiLower defaultEnv _ H).
Defined.

Lemma storage_unavailable_witness :
  (Storage.isBrowser serverStorage = false \/ Storage.throws serverStorage = true)
  /\ SignIn.ok (fst (signIn asciiLower defaultEnv (lit "2029vp@highpoint.edu")
                       serverStorage)) = true
  /\ snd (signIn asciiLower defaultEnv (lit "2029vp@highpoint.edu") serverStorage)
     = serverStorage.
Proof.
  assert (U : Storage.isBrowser serverStorage = false
              \/ Storage.throws serverStorage = true) by (left; reflexivity).
  split; [exact U|]. split; [reflexivity|].
  apply (storage_unavailable asciiLower defaultEnv (lit "2029vp@highpoint.edu")
           serverStorage U).
Defined.

(** ** Utilities *)

(** [clamp] returns a number within the bounds, the number itself when it
    is within them already, and the upper bound when the bounds are
    inverted. *)
Theorem clamp_bounds (n lo hi : Z) :
  (lo <= hi -> lo <= clamp n lo hi <= hi)
  /\ (lo <= n <= hi -> clamp n lo hi = n)
  /\ (hi < lo -> clamp n lo hi = hi)
  /\ clamp (clamp n lo hi) lo hi = clamp n lo hi.
Proof. unfold clamp. lia. Qed.

Lemma clamp_bounds_witness :
  1 <= 7 /\ 1 <= clamp 99 1 7 <= 7.
Proof.
  split; [lia|]. apply (clamp_bounds 99 1 7). lia.
Defined.

Lemma kpi_balance (yStr : str) (rows : list Transaction.t)
    (st : number * number * number) :
  snd (fold_left (kpiStep yStr) rows st)
  = fold_left addNumber
      (List.map (fun r => Fin (Transaction.amountCents r)) rows) (snd st).
Proof.
  revert st; induction rows as [|r rows IH]; intros [[i o] b]; [reflexivity|].
  cbn [fold_left List.map]. rewrite IH. f_equal.
  cbn [kpiStep]. destruct (startsWith _ _); [destruct (0 <=? _)|]; reflexivity.
Qed.

Lemma absTotal_nonneg (l : list Z) : 0 <= absTotal l.
Proof. unfold absTotal. induction l as [|x l IH]; cbn [fold_right]; lia. Qed.

Lemma absTotal_app (a b : list Z) : absTotal (a ++ b) = absTotal a + absTotal b.
Proof.
  unfold absTotal. induction a as [|x a IH]; cbn [app fold_right]; lia.
Qed.

Lemma sum_integers (l : list Z) (a : Z) :
  Z.abs a + absTotal l <= MAX_SAFE_INTEGER ->
  fold_left addNumber (List.map Fin l) (Fin a) = Fin (a + fold_right Z.add 0 l)
  /\ Z.abs (fold_right Z.add 0 l) <= absTotal l.
Proof.
  revert a; induction l as [|x l IH]; intros a H.
  - cbn [List.map fold_left fold_right absTotal]. split; [f_equal; lia | lia].
  - pose proof (absTotal_nonneg l) as N.
    change (absTotal (x :: l)) with (Z.abs x + absTotal l) in H |- *.
    cbn [fold_right].
    cbn [List.map fold_left]. rewrite addNumber_safe by lia.
    destruct (IH (a + x)) as [E B]; [lia|]. rewrite E. split; [f_equal; lia | lia].
Qed.

(** The current balance of [computeKPIs] is the [sum] of the amounts, for
    every list: both make the same additions in the same order.  [sum] adds
    up over a concatenation when the sizes of the entries add up to at most
    [Number.MAX_SAFE_INTEGER], and not in general: the sum of [2 ^ 53], [1]
    and [1] is [2 ^ 53]. *)
Theorem sum_balance (thisYear : Z) (rows : list Transaction.t) (year : option Z)
    (a b : list Z) :
  KPIs.currentBalanceCents (computeKPIs thisYear rows year)
  = sum (List.map (fun r => Fin (Transaction.amountCents r)) rows)
  /\ (absTotal (a ++ b) <= MAX_SAFE_INTEGER ->
      sum (List.map Fin (a ++ b))
      = addNumber (sum (List.map Fin a)) (sum (List.map Fin b)))
  /\ sum (List.map Fin ([2 ^ 53] ++ [1; 1])) = Fin (2 ^ 53)
  /\ addNumber (sum (List.map Fin [2 ^ 53])) (sum (List.map Fin [1; 1]))
     = Fin (2 ^ 53 + 2).
Proof.
  split; [|split; [|split; vm_compute; reflexivity]].
  - unfold computeKPIs, sum.
    pose proof (kpi_balance (ofInt match year with Some y => y | None => thisYear end)
                  rows (Fin 0, Fin 0, Fin 0)) as H.
    destruct (fold_left _ rows _) as [[i o] bal]. exact H.
  - intros H. rewrite absTotal_app in H.
    pose proof (absTotal_nonneg a) as Na. pose proof (absTotal_nonneg b) as Nb.
    unfold sum.
    destruct (sum_integers a 0) as [Ea Ba]; [cbn [Z.abs]; lia|].
    destruct (sum_integers b 0) as [Eb Bb]; [cbn [Z.abs]; lia|].
    rewrite map_app, fold_left_app, Ea, Eb.
    destruct (sum_integers b (0 + fold_right Z.add 0 a)) as [Eab _]; [lia|].
    rewrite Eab. rewrite addNumber_safe by lia. f_equal; lia.
Qed.

Lemma sum_balance_witness :
  absTotal ([1200; -300] ++ [45]) <= MAX_SAFE_INTEGER
  /\ sum (List.map Fin ([1200; -300] ++ [45]))
     = addNumber (sum (List.map Fin [1200; -300])) (sum (List.map Fin [45])).
Proof.
  assert (H : absTotal ([1200; -300] ++ [45]) <= MAX_SAFE_INTEGER)
    by (vm_compute; discriminate).
  split; [exact H|].
  exact (proj1 (proj2 (sum_balance 2025 [] None [1200; -300] [45])) H).
Defined.

(** [yyyyMmDd] keeps the first ten code units: the result is a prefix of the
    argument, as long as the argument up to ten, and a second call changes
    nothing. *)
Theorem yyyyMmDd_prefix (iso : str) :
  (exists rest, iso = yyyyMmDd iso ++ rest)
  /\ List.length (yyyyMmDd iso) = Nat.min 10 (List.length iso)
  /\ yyyyMmDd (yyyyMmDd iso) = yyyyMmDd iso.
Proof.
  unfold yyyyMmDd. rewrite !slice_prefix by lia.
  change (Z.to_nat 10) with 10%nat. split; [|split].
  - exists (skipn 10 iso). now rewrite firstn_skipn.
  - apply length_firstn.
  - rewrite firstn_firstn. reflexivity.
Qed.

(** ** Linking helpers *)

Section LinkProps.

Variable toLowerCase : str -> str.
Hypothesis toLowerCase_nil : toLowerCase [] = [].

Lemma keepRow_link (f : TxnFilter.t) (r : Transaction.t) :
  TxnFilter.type f = None -> TxnFilter.from f = None -> TxnFilter.to f = None ->
  TxnFilter.search f = None ->
  keepRow toLowerCase f (needleOf toLowerCase f) r
  = negb (truthy (TxnFilter.eventId f)
          && negb (optstr_eqb (Transaction.eventId r) (TxnFilter.eventId f)))
    && negb (truthy (TxnFilter.billId f)
             && negb (optstr_eqb (Transaction.billId r) (TxnFilter.billId f))).
Proof.
  intros T F O S. unfold keepRow, needleOf. rewrite T, F, O, S.
  cbn [truthy orEmpty andb]. rewrite trim_nil, toLowerCase_nil. cbn [nonEmpty].
  destruct (_ && _); [reflexivity|]. now destruct (_ && _).
Qed.

(** For an id that is not empty, the linking helpers return what
    [filterTransactions] returns under the filter that names only this id,
    and every row they return carries the id; for the empty id the filter
    returns every row while the helper keeps the rows whose id is the empty
    string. *)
Theorem link_is_filter (id : str) (rows : list Transaction.t) :
  (id <> [] ->
   linkBillTransactions id rows = filterTransactions toLowerCase rows (billFilter id)
   /\ linkEventTransactions id rows
      = filterTransactions toLowerCase rows (eventFilter id))
  /\ Forall (fun r => Transaction.billId r = Some id) (linkBillTransactions id rows)
  /\ Forall (fun r => Transaction.eventId r = Some id) (linkEventTransactions id rows)
  /\ filterTransactions toLowerCase rows (billFilter []) = rows
  /\ filterTransactions toLowerCase rows (eventFilter []) = rows.
Proof.
  split; [|split; [|split; [|split]]].
  - intros N. apply nonEmpty_true in N.
    unfold linkBillTransactions, linkEventTransactions, filterTransactions.
    split; apply filter_ext; intros r; rewrite keepRow_link by reflexivity;
      cbn [billFilter eventFilter TxnFilter.eventId TxnFilter.billId truthy andb negb];
      rewrite N; cbn [andb]; rewrite ?andb_true_r, negb_involutive; reflexivity.
  - apply Forall_forall. intros r I. apply filter_In in I as [_ E].
    now apply optstr_eqb_eq.
  - apply Forall_forall. intros r I. apply filter_In in I as [_ E].
    now apply optstr_eqb_eq.
  - unfold filterTransactions. rewrite <- (filter_all (fun _ => true) rows) at 2
      by (apply Forall_forall; reflexivity).
    apply filter_ext. intros r. now rewrite keepRow_link.
  - unfold filterTransactions. rewrite <- (filter_all (fun _ => true) rows) at 2
      by (apply Forall_forall; reflexivity).
    apply filter_ext. intros r. now rewrite keepRow_link.
Qed.

End LinkProps.

Lemma link_is_filter_witness :
  asciiLower [] = [] /\ lit "b-001" <> []
  /\ linkBillTransactions (lit "b-001") transactions
     = filterTransactions asciiLower transactions (billFilter (lit "b-001")).
Proof.
  assert (N : lit "b-001" <> []) by discriminate.
  split; [reflexivity|]. split; [exact N|].
  apply (link_is_filter asciiLower eq_refl (lit "b-001") transactions), N.
Defined.

(** ** Sorting: stability and idempotence *)

Lemma insert_class {A} (compare : A -> A -> Z) (p : A -> bool) (a : A) (l : list A) :
  (forall x y, p x = true -> p y = true -> compare x y <= 0) ->
  List.filter p (insert compare a l) = List.filter p (a :: l).
Proof.
  intros H. induction l as [|y l IH]; [reflexivity|]. cbn [insert].
  destruct (Z.leb_spec (compare a y) 0) as [L|G]; [reflexivity|].
  cbn [List.filter] in *. rewrite IH.
  destruct (p a) eqn:Pa, (p y) eqn:Py; try reflexivity.
  specialize (H a y Pa Py). lia.
Qed.

Lemma sortBy_class {A} (compare : A -> A -> Z) (p : A -> bool) (l : list A) :
  (forall x y, p x = true -> p y = true -> compare x y <= 0) ->
  List.filter p (sortBy compare l) = List.filter p l.
Proof.
  intros H. induction l as [|a l IH]; [reflexivity|]. cbn [sortBy].
  rewrite insert_class by assumption. cbn [List.filter]. now rewrite IH.
Qed.

Lemma str_ltb_irrefl (s : str) : str_ltb s s = false.
Proof. apply str_ltb_false_le. now left. Qed.

(** The sort is stable: the rows that share a date, under the date keys, or
    an amount, under the amount keys, come out in the order they came in. *)
Theorem sortTransactions_stable (S : list Transaction.t) :
  (forall d key, key = date_desc \/ key = date_asc ->
      List.filter (fun r => str_eqb (dateOf r) d) (sortTransactions S key)
      = List.filter (fun r => str_eqb (dateOf r) d) S)
  /\ (forall a key, key = amount_desc \/ key = amount_asc ->
        List.filter (fun r => amountOf r =? a) (sortTransactions S key)
        = List.filter (fun r => amountOf r =? a) S).
Proof.
  split.
  - intros d key K. apply sortBy_class. intros x y Hx Hy.
    apply str_eqb_eq in Hx, Hy. unfold dateOf in *.
    destruct K as [-> | ->]; unfold comparator; rewrite Hx, Hy, str_ltb_irrefl; lia.
  - intros a key K. apply sortBy_class. intros x y Hx Hy.
    apply Z.eqb_eq in Hx, Hy. unfold amountOf in *.
    destruct K as [-> | ->]; unfold comparator; lia.
Qed.

Lemma sortTransactions_stable_witness :
  (amount_asc = amount_desc \/ amount_asc = amount_asc)
  /\ List.filter (fun r => amountOf r =? -48000) (sortTransactions transactions amount_asc)
     = List.filter (fun r => amountOf r =? -48000) transactions.
Proof.
  assert (K : amount_asc = amount_desc \/ amount_asc = amount_asc) by now right.
  split; [exact K|].
  apply (sortTransactions_stable transactions), K.
Defined.

Lemma sortBy_fixed {A} (compare : A -> A -> Z) (l : list A) :
  Sorted (fun a b => compare a b <= 0) l -> sortBy compare l = l.
Proof.
  induction 1 as [|x l Hs IH Hd]; [reflexivity|]. cbn [sortBy]. rewrite IH.
  destruct Hd as [|y l' Hxy]; [reflexivity|]. cbn [insert].
  now replace (compare x y <=? 0) with true by (symmetry; apply Z.leb_le; assumption).
Qed.

Lemma comparator_total (key : TxnSortKey) (a b : Transaction.t) :
  0 < comparator key a b -> comparator key b a <= 0.
Proof.
  destruct key; unfold comparator; try lia.
  - destruct (str_ltb (Transaction.date a) (Transaction.date b)) eqn:E.
    + intros _. rewrite (proj2 (str_ltb_false_le _ _) (str_lt_le _ _ E)). lia.
    + destruct (str_ltb (Transaction.date b) (Transaction.date a)); lia.
  - destruct (str_ltb (Transaction.date b) (Transaction.date a)) eqn:E.
    + intros _. rewrite (proj2 (str_ltb_false_le _ _) (str_lt_le _ _ E)). lia.
    + destruct (str_ltb (Transaction.date a) (Transaction.date b)); lia.
Qed.

Lemma sortTransactions_in_order (S : list Transaction.t) (key : TxnSortKey) :
  Sorted (fun a b => comparator key a b <= 0) (sortTransactions S key).
Proof.
  apply sortBy_sorted; [auto | apply comparator_total].
Qed.

(** Sorting what is sorted changes nothing: a second [sortTransactions]
    under the same key returns the rows as the first left them. *)
Theorem sortTransactions_idempotent (S : list Transaction.t) (key : TxnSortKey) :
  sortTransactions (sortTransactions S key) key = sortTransactions S key.
Proof. apply sortBy_fixed, sortTransactions_in_order. Qed.

(** ** KPIs: order and concatenation *)

Lemma sumAmounts_perm (l l' : list Transaction.t) :
  Permutation l l' -> sumAmounts l = sumAmounts l'.
Proof.
  unfold sumAmounts. induction 1; cbn [fold_right]; lia.
Qed.

Lemma sumAbs_perm (l l' : list Transaction.t) :
  Permutation l l' -> sumAbs l = sumAbs l'.
Proof.
  unfold sumAbs, absTotal. induction 1; cbn [List.map fold_right]; lia.
Qed.

Lemma filter_perm {A} (p : A -> bool) (l l' : list A) :
  Permutation l l' -> Permutation (List.filter p l) (List.filter p l').
Proof.
  induction 1 as [|x l l' _ IH|x y l|l l' l'' _ IH1 _ IH2]; cbn [List.filter].
  - constructor.
  - destruct (p x); [now constructor | assumption].
  - destruct (p x), (p y); try reflexivity. apply perm_swap.
  - now transitivity (List.filter p l').
Qed.

Lemma computeKPIs_exact (thisYear : Z) (year : option Z) (rows : list Transaction.t) :
  sumAbs rows <= MAX_SAFE_INTEGER ->
  let yStr := ofInt match year with Some y => y | None => thisYear end in
  computeKPIs thisYear rows year
  = KPIs.mk
      (Fin (sumAmounts rows))
      (Fin (sumAmounts (List.filter (fun r => startsWith (Transaction.date r) yStr
                                              && (0 <=? Transaction.amountCents r)) rows)))
      (Fin (sumAmounts (List.filter (fun r => startsWith (Transaction.date r) yStr
                                              && (Transaction.amountCents r <? 0)) rows))).
Proof.
  intros S yStr. pose proof (sumAbs_nonneg rows) as N.
  unfold computeKPIs. fold yStr. rewrite kpi_loop by (cbn [Z.abs]; lia).
  now rewrite !Z.add_0_l.
Qed.

Lemma computeKPIs_perm (thisYear : Z) (year : option Z) (l l' : list Transaction.t) :
  sumAbs l <= MAX_SAFE_INTEGER -> Permutation l l' ->
  computeKPIs thisYear l year = computeKPIs thisYear l' year.
Proof.
  intros S P. rewrite !computeKPIs_exact by (try rewrite <- (sumAbs_perm _ _ P); exact S).
  cbv zeta.
  rewrite (sumAmounts_perm _ _ P).
  rewrite (sumAmounts_perm _ _ (filter_perm _ _ _ P)).
  rewrite (sumAmounts_perm _ _
             (filter_perm (fun r => startsWith (Transaction.date r) _
                                    && (Transaction.amountCents r <? 0)) _ _ P)).
  reflexivity.
Qed.

Lemma sumAmounts_app (l l' : list Transaction.t) :
  sumAmounts (l ++ l') = sumAmounts l + sumAmounts l'.
Proof. unfold sumAmounts. induction l as [|r l IH]; cbn [app fold_right]; lia. Qed.

Lemma sumAbs_app (l l' : list Transaction.t) :
  sumAbs (l ++ l') = sumAbs l + sumAbs l'.
Proof. unfold sumAbs. now rewrite map_app, absTotal_app. Qed.

Lemma sumAmounts_abs (rows : list Transaction.t) :
  Z.abs (sumAmounts rows) <= sumAbs rows.
Proof.
  induction rows as [|r rows IH]; [cbv; discriminate|].
  rewrite sumAbs_cons.
  change (sumAmounts (r :: rows)) with (Transaction.amountCents r + sumAmounts rows).
  lia.
Qed.

Lemma roundDouble_nonneg (z : Z) : 0 <= z -> nonNegative (roundDouble z).
Proof.
  intros H. unfold roundDouble.
  destruct (Z.abs z <? 2 ^ 53); [exact H|].
  set (e := Z.log2 (Z.abs z) - 52).
  set (q := Z.abs z / 2 ^ e).
  set (q' := if Z.abs z mod 2 ^ e <? 2 ^ (e - 1) then q
             else if 2 ^ (e - 1) <? Z.abs z mod 2 ^ e then q + 1
             else if Z.even q then q else q + 1).
  assert (P : 0 <= 2 ^ e) by (apply Z.pow_nonneg; lia).
  assert (Q : 0 <= q) by (apply Z_div_nonneg_nonneg; lia).
  assert (Q' : 0 <= q')
    by (unfold q'; repeat match goal with
                          | |- context [if ?b then _ else _] => destruct b
                          end; lia).
  set (m := q' * 2 ^ e). assert (M : 0 <= m) by (apply Z.mul_nonneg_nonneg; assumption).
  destruct (_ <=? m).
  - replace (z <? 0) with false by (symmetry; apply Z.ltb_ge; exact H). exact I.
  - cbn [nonNegative]. apply Z.mul_nonneg_nonneg; [|exact M].
    apply Z.sgn_nonneg. exact H.
Qed.

Lemma addNumber_nonneg (n : number) (z : Z) :
  nonNegative n -> 0 <= z -> nonNegative (addNumber n (Fin z)).
Proof.
  destruct n as [x| | |]; cbn [nonNegative addNumber]; try tauto.
  intros Hx Hz. apply roundDouble_nonneg. lia.
Qed.

Lemma kpi_inflow (yStr : str) (rows : list Transaction.t)
    (st : number * number * number) :
  nonNegative (fst (fst st)) ->
  nonNegative (fst (fst (fold_left (kpiStep yStr) rows st))).
Proof.
  revert st; induction rows as [|r rows IH]; intros [[i o] b] H; [exact H|].
  cbn [fold_left]. apply IH. cbn [kpiStep fst] in *.
  destruct (startsWith _ _); [|exact H].
  destruct (Z.leb_spec 0 (Transaction.amountCents r)); [|exact H].
  cbn [fst]. now apply addNumber_nonneg.
Qed.

(** As long as the sizes of the amounts add up to at most
    [Number.MAX_SAFE_INTEGER], the aggregates do not depend on the order of
    the rows, so sorting first changes none of them, and the aggregates of
    two lists put together are the sums of the aggregates of each.  For every
    list, inflow is neither negative nor NaN. *)
Theorem computeKPIs_compose (thisYear : Z) (year : option Z)
    (rows more : list Transaction.t) (key : TxnSortKey) :
  (sumAbs rows <= MAX_SAFE_INTEGER ->
   computeKPIs thisYear (sortTransactions rows key) year
   = computeKPIs thisYear rows year)
  /\ (sumAbs (rows ++ more) <= MAX_SAFE_INTEGER ->
      computeKPIs thisYear (rows ++ more) year
      = addKPIs (computeKPIs thisYear rows year) (computeKPIs thisYear more year))
  /\ nonNegative (KPIs.inflowYTD (computeKPIs thisYear rows year)).
Proof.
  split; [|split].
  - intros S. symmetry. apply computeKPIs_perm; [exact S|].
    symmetry. apply sortBy_perm.
  - intros S. pose proof S as S'. rewrite sumAbs_app in S'.
    pose proof (sumAbs_nonneg rows) as Nr. pose proof (sumAbs_nonneg more) as Nm.
    rewrite !computeKPIs_exact by lia. cbv zeta. unfold addKPIs.
    cbn [KPIs.currentBalanceCents KPIs.inflowYTD KPIs.outflowYTD].
    set (yStr := ofInt _).
    pose proof (sumAmounts_abs rows). pose proof (sumAmounts_abs more).
    pose proof (sumAmounts_bound
                  (fun r => startsWith (Transaction.date r) yStr
                            && (0 <=? Transaction.amountCents r)) rows).
    pose proof (sumAmounts_bound
                  (fun r => startsWith (Transaction.date r) yStr
                            && (0 <=? Transaction.amountCents r)) more).
    pose proof (sumAmounts_bound
                  (fun r => startsWith (Transaction.date r) yStr
                            && (Transaction.amountCents r <? 0)) rows).
    pose proof (sumAmounts_bound
                  (fun r => startsWith (Transaction.date r) yStr
                            && (Transaction.amountCents r <? 0)) more).
    rewrite !addNumber_safe by lia.
    now rewrite !filter_app, !sumAmounts_app.
  - unfold computeKPIs.
    pose proof (kpi_inflow (ofInt match year with Some y => y | None => thisYear end)
                  rows (Fin 0, Fin 0, Fin 0)) as H.
    destruct (fold_left _ rows _) as [[i o] bal]. cbn [KPIs.inflowYTD].
    apply H. cbn [fst nonNegative]. lia.
Qed.

Lemma computeKPIs_compose_witness :
  sumAbs transactions <= MAX_SAFE_INTEGER
  /\ computeKPIs 2026 (sortTransactions transactions amount_asc) (Some 2025)
     = computeKPIs 2026 transactions (Some 2025).
Proof.
  assert (S : sumAbs transactions <= MAX_SAFE_INTEGER) by (vm_compute; discriminate).
  split; [exact S|].
  exact (proj1 (computeKPIs_compose 2026 (Some 2025) transactions [] amount_asc) S).
Defined.

(** ** Pagination: edges *)

Lemma paginate_again {T} (S : list T) (page pageSize : Z) :
  paginate S (Page.page (paginate S page pageSize)) pageSize = paginate S page pageSize.
Proof.
  unfold paginate. cbn [Page.page].
  replace (clamp (clamp page 1 _) 1 _) with
      (clamp page 1 (Z.max 1 (ceilDiv (Z.of_nat (List.length S)) (Z.max 1 pageSize))))
    by (unfold clamp; lia).
  reflexivity.
Qed.

(** With a page size of at least 1 a page never has more rows than the page
    size, and never none unless the list is empty; asking again for the page
    number that was returned gives the same page. *)
Theorem paginate_page_size {T} (S : list T) (page pageSize : Z) :
  1 <= pageSize ->
  Z.of_nat (List.length (Page.rows (paginate S page pageSize))) <= pageSize
  /\ (S <> [] -> Page.rows (paginate S page pageSize) <> [])
  /\ paginate S (Page.page (paginate S page pageSize)) pageSize
     = paginate S page pageSize.
Proof.
  intros Hps. rewrite paginate_rows by assumption.
  pose proof (pages_cover S pageSize Hps) as (C1 & C2 & C3).
  split; [|split; [|apply paginate_again]].
  - rewrite length_firstn. lia.
  - intros N E. apply (f_equal (@List.length T)) in E.
    rewrite length_firstn, length_skipn in E. cbn [List.length] in E.
    assert (L : (0 < List.length S)%nat) by (destruct S; [congruence | simpl; lia]).
    assert (B : (Page.page (paginate S page pageSize) - 1) * pageSize
                < Z.of_nat (List.length S)).
    { unfold paginate in *. cbn [Page.page Page.pages] in *. unfold clamp.
      destruct (Z_le_gt_dec (Z.max 1 (ceilDiv (Z.of_nat (List.length S))
                                         (Z.max 1 pageSize))) 1); nia. }
    unfold paginate in *. cbn [Page.page Page.pages] in *. unfold clamp in *. nia.
Qed.

Lemma paginate_page_size_witness :
  1 <= 3 /\ transactions <> []
  /\ Page.rows (paginate transactions 99 3) <> [].
Proof.
  assert (N : transactions <> []) by discriminate.
  split; [lia|]. split; [exact N|].
  apply (paginate_page_size transactions 99 3 ltac:(lia)), N.
Defined.

(** With a page size of 0 or less the page count is the number of rows (1
    for no rows); with a page size of 0 every page is empty. *)
Theorem paginate_degenerate {T} (S : list T) (page pageSize : Z) :
  pageSize <= 0 ->
  Page.pages (paginate S page pageSize) = Z.max 1 (Z.of_nat (List.length S))
  /\ (pageSize = 0 -> Page.rows (paginate S page pageSize) = []).
Proof.
  intros H. unfold paginate. cbn [Page.pages Page.rows]. split.
  - replace (Z.max 1 pageSize) with 1 by lia. unfold ceilDiv.
    rewrite Z.div_1_r. lia.
  - intros ->. rewrite Z.mul_0_r. cbn [Z.add].
    replace (Z.min 0 (Z.of_nat (List.length S))) with 0 by lia.
    unfold slice. change (0 <? 0) with false. cbv iota.
    replace (Z.min 0 (Z.of_nat (List.length S))) with 0 by lia.
    reflexivity.
Qed.

Lemma paginate_degenerate_witness :
  0 <= 0
  /\ Page.pages (paginate transactions 2 0) = 7
  /\ Page.rows (paginate transactions 2 0) = [].
Proof.
  split; [lia|].
  pose proof (paginate_degenerate transactions 2 0 ltac:(lia)) as [H1 H2].
  split; [exact H1 | exact (H2 eq_refl)].
Defined.

(** ** The query pipeline *)

Lemma Sorted_skipn {A} (R : A -> A -> Prop) (n : nat) (l : list A) :
  Sorted R l -> Sorted R (skipn n l).
Proof.
  revert l; induction n as [|n IH]; intros l H; [assumption|].
  destruct l as [|x l]; [constructor|]. cbn [skipn]. apply IH. now inversion H.
Qed.

Lemma Sorted_firstn {A} (R : A -> A -> Prop) (n : nat) (l : list A) :
  Sorted R l -> Sorted R (firstn n l).
Proof.
  revert l; induction n as [|n IH]; intros l H; [constructor|].
  destruct l as [|x l]; [constructor|]. cbn [firstn].
  inversion H as [|? ? Hs Hd]; subst. constructor; [now apply IH|].
  destruct Hd as [|y l' Hxy]; [rewrite firstn_nil; constructor|].
  destruct n; constructor. assumption.
Qed.

Lemma skipn_incl {T} (n : nat) (l : list T) (x : T) : In x (skipn n l) -> In x l.
Proof.
  intros H. rewrite <- (firstn_skipn n l). apply in_or_app. now right.
Qed.

(** [queryTransactions] filters the seed transactions, sorts what is left
    and cuts a page: [total] counts the rows that pass the filter, every row
    of the page is a seed row that passes the filter, and the page is in the
    order of the sort key. *)
Theorem queryTransactions_page (toLowerCase : str -> str) (q : TxnQuery.t) :
  let P := queryTransactions toLowerCase q in
  let passing := filterTransactions toLowerCase transactions (TxnQuery.filter q) in
  Page.total P = Z.of_nat (List.length passing)
  /\ Forall (fun r => In r passing /\ In r transactions) (Page.rows P)
  /\ Sorted (fun a b => comparator (TxnQuery.sort q) a b <= 0) (Page.rows P)
  /\ P = paginate (sortTransactions passing (TxnQuery.sort q))
           (TxnQuery.page q) (TxnQuery.pageSize q).
Proof.
  intros P passing. subst P. unfold queryTransactions. fold passing.
  set (sorted := sortTransactions passing (TxnQuery.sort q)).
  assert (Perm : Permutation sorted passing) by apply sortBy_perm.
  split; [|split; [|split; [|reflexivity]]].
  - unfold paginate. cbn [Page.total]. now rewrite (Permutation_length Perm).
  - apply Forall_forall. intros r I. unfold paginate, slice in I. cbn [Page.rows] in I.
    apply firstn_incl, skipn_incl in I.
    assert (Ip : In r passing) by (eapply Permutation_in; eassumption).
    split; [assumption|]. unfold passing, filterTransactions in Ip.
    now apply filter_In in Ip.
  - unfold paginate, slice. cbn [Page.rows].
    apply Sorted_firstn, Sorted_skipn, sortTransactions_in_order.
Qed.

(** ** Explain sentence: the tidy pass *)

Lemma wsBeforeComma_step (c d : char) (t : str) :
  wsBeforeComma (c :: d :: t)
  = (isWhiteSpace c && (d =? 44)) || wsBeforeComma (d :: t).
Proof. reflexivity. Qed.

Lemma wsBeforeComma_cons (c : char) (s : str) :
  wsBeforeComma (c :: s) = false ->
  wsBeforeComma s = false.
Proof.
  destruct s as [|d s]; [reflexivity|]. cbn [wsBeforeComma].
  intros H. apply orb_false_iff in H as [_ H]. exact H.
Qed.

Lemma wsBeforeComma_suffix (a s : str) :
  wsBeforeComma (a ++ s) = false -> wsBeforeComma s = false.
Proof.
  induction a as [|c a IH]; [auto|]. intros H. apply IH.
  now apply wsBeforeComma_cons in H.
Qed.

Lemma wsBeforeComma_solid (c : char) (s : str) :
  isWhiteSpace c = false -> wsBeforeComma (c :: s) = wsBeforeComma s.
Proof.
  intros H. destruct s as [|d s]; [reflexivity|].
  cbn [wsBeforeComma]. now rewrite H.
Qed.

(** A run of white space followed by something that does not start with a
    comma. *)
Lemma wsBeforeComma_run (pending s : str) :
  Forall (fun c => isWhiteSpace c = true) pending ->
  match s with d :: _ => (d =? 44) = false | [] => True end ->
  wsBeforeComma (pending ++ s) = wsBeforeComma s.
Proof.
  intros F H. induction F as [|c pending Hc F' IH]; [reflexivity|].
  cbn [app]. rewrite <- IH.
  destruct (pending ++ s) as [|d t] eqn:E.
  - destruct pending, s; discriminate || reflexivity.
  - cbn [wsBeforeComma]. fold (wsBeforeComma (d :: t)).
    replace (d =? 44) with false; [now rewrite andb_false_r|].
    destruct pending as [|p pending'].
    + cbn in E. subst s. now symmetry.
    + cbn in E. injection E as <- _. symmetry. apply Z.eqb_neq. intros ->.
      inversion_clear F' as [|? ? Hp _]. discriminate Hp.
Qed.

Lemma tidyFrom_clean (pending s : str) :
  Forall (fun c => isWhiteSpace c = true) pending ->
  wsBeforeComma (tidyFrom pending s) = false.
Proof.
  revert pending; induction s as [|c s IH]; intros pending F; cbn [tidyFrom].
  - rewrite <- (app_nil_r pending). now rewrite wsBeforeComma_run.
  - destruct (isWhiteSpace c) eqn:W.
    + apply IH. apply Forall_app. split; [assumption | now repeat constructor].
    + destruct (Z.eqb_spec c 44) as [->|N].
      * rewrite wsBeforeComma_solid by reflexivity. apply IH. constructor.
      * rewrite wsBeforeComma_run by (assumption || now apply Z.eqb_neq).
        rewrite wsBeforeComma_solid by assumption. apply IH. constructor.
Qed.

Lemma ws_then_comma (pending t : str) :
  Forall (fun c => isWhiteSpace c = true) pending -> pending <> [] ->
  wsBeforeComma (pending ++ 44 :: t) = true.
Proof.
  induction 1 as [|p pending Hp F IH]; [congruence|]. intros _.
  destruct pending as [|p' pending'].
  - cbn. now rewrite Hp.
  - change ((p :: p' :: pending') ++ 44 :: t)
      with (p :: p' :: (pending' ++ 44 :: t)).
    rewrite wsBeforeComma_step.
    change (p' :: pending' ++ 44 :: t) with ((p' :: pending') ++ 44 :: t).
    rewrite IH by discriminate. apply orb_true_r.
Qed.

Lemma tidyFrom_fixed (pending s : str) :
  Forall (fun c => isWhiteSpace c = true) pending ->
  wsBeforeComma (pending ++ s) = false ->
  tidyFrom pending s = pending ++ s.
Proof.
  revert pending; induction s as [|c s IH]; intros pending F H; cbn [tidyFrom].
  - now rewrite app_nil_r.
  - destruct (isWhiteSpace c) eqn:W.
    + rewrite IH.
      * now rewrite <- app_assoc.
      * apply Forall_app. split; [assumption | now repeat constructor].
      * now rewrite <- app_assoc.
    + assert (Hs : wsBeforeComma s = false).
      { apply wsBeforeComma_suffix in H. now apply wsBeforeComma_cons in H. }
      rewrite (IH [] (Forall_nil _) Hs). cbn [app].
      destruct (Z.eqb_spec c 44) as [->|N]; [|reflexivity].
      destruct pending as [|p pending']; [reflexivity|].
      rewrite ws_then_comma in H by (assumption || discriminate). discriminate.
Qed.

(** The tidy pass leaves no white space directly before a comma, so the
    explain sentence has none; it changes nothing in a string that has none
    and so changes nothing when run twice. *)
Theorem tidy_clean (s : str) (f : TxnFilter.t) (sort : TxnSortKey) :
  wsBeforeComma (tidy s) = false
  /\ (wsBeforeComma s = false -> tidy s = s)
  /\ tidy (tidy s) = tidy s
  /\ wsBeforeComma (explainTransactionsView f sort) = false.
Proof.
  assert (C : forall x, wsBeforeComma (tidy x) = false)
    by (intros x; apply tidyFrom_clean; constructor).
  assert (I : forall x, wsBeforeComma x = false -> tidy x = x)
    by (intros x H; now apply (tidyFrom_fixed [] x (Forall_nil _))).
  split; [apply C|]. split; [apply I|]. split; [apply I, C|].
  unfold explainTransactionsView. apply C.
Qed.

Lemma tidy_clean_witness :
  wsBeforeComma (lit "a, b") = false /\ tidy (lit "a, b") = lit "a, b".
Proof.
  split; [reflexivity|].
  exact (proj1 (proj2 (tidy_clean (lit "a, b") bobaFilter date_desc)) eq_refl).
Defined.

(** When the filter supplies nothing, the sentence is the type clause for
    all types followed by the sort label. *)
Theorem explain_nothing_supplied (f : TxnFilter.t) (sort : TxnSortKey) :
  nothingSupplied f ->
  explainTransactionsView f sort
  = lit "Showing all transaction types, " ++ sortLabel sort ++ lit ".".
Proof.
  intros (T & F & O & E & B & S). rewrite explain_sentence.
  unfold clauses, typeClause, dateClause, eventClause, billClause, searchClause.
  rewrite F, O, E, B, S. cbn [nonEmpty present app].
  replace (match TxnFilter.type f with
           | Some (Only t) => labelTxnType t
           | _ => lit "all transaction types"
           end) with (lit "all transaction types")
    by (destruct T as [-> | ->]; reflexivity).
  destruct sort; reflexivity.
Qed.

Lemma explain_nothing_supplied_witness :
  nothingSupplied (TxnFilter.mk (Some All) None (Some []) (Some (lit "  ")) None None)
  /\ explainTransactionsView
       (TxnFilter.mk (Some All) None (Some []) (Some (lit "  ")) None None) amount_desc
     = lit "Showing all transaction types, highest amount first.".
Proof.
  assert (N : nothingSupplied
                (TxnFilter.mk (Some All) None (Some []) (Some (lit "  ")) None None))
    by (repeat split; now right).
  split; [exact N|].
  apply (explain_nothing_supplied _ amount_desc N).
Defined.

(** ** CSV: no rows *)

(** For no rows [toCSV] still ends the header line with a newline, so the
    text reads back as the titles followed by one record with one empty
    field. *)
Theorem toCSV_no_rows {T} (cols : list (CSVColumn.t T)) (d : char) :
  d <> quote -> d <> newline -> cols <> [] ->
  toCSV (@nil T) cols [d] = lineText d (List.map CSVColumn.title cols) ++ [newline]
  /\ CSV.parse d (toCSV (@nil T) cols [d]) = [List.map CSVColumn.title cols; [[]]].
Proof.
  intros Hq Hn Hc.
  assert (E : toCSV (@nil T) cols [d]
              = lineText d (List.map CSVColumn.title cols) ++ [newline]).
  { unfold toCSV, lineText. cbn [mapi join]. now rewrite app_nil_r, map_map. }
  split; [exact E|]. rewrite E. unfold CSV.parse.
  destruct (List.map CSVColumn.title cols) as [|v vs] eqn:M;
    [destruct cols; [congruence | discriminate]|].
  rewrite (parse_line d Hq Hn v vs [] [newline])
    by (right; eexists; reflexivity).
  reflexivity.
Qed.

Lemma toCSV_no_rows_witness :
  44 <> quote /\ 44 <> newline /\ ledgerColumns <> []
  /\ CSV.parse 44 (toCSV (@nil Transaction.t) ledgerColumns [44])
     = [List.map CSVColumn.title ledgerColumns; [[]]].
Proof.
  assert (Q : 44 <> quote) by discriminate.
  assert (N : 44 <> newline) by discriminate.
  assert (C : ledgerColumns <> []) by discriminate.
  split; [exact Q|]. split; [exact N|]. split; [exact C|].
  apply (toCSV_no_rows ledgerColumns 44 Q N C).
Defined.

(** ** Filter: an inverted date range *)

Lemma str_lt_trans (a b c : str) : str_lt a b -> str_lt b c -> str_lt a c.
Proof.
  intros H; revert c; induction H as [x t|x y s t L|x s t L IH]; intros c H2;
    inversion H2; subst.
  - constructor.
  - constructor.
  - apply str_lt_head. lia.
  - now apply str_lt_head.
  - now apply str_lt_head.
  - apply str_lt_tail. now apply IH.
Qed.

(** When the [from] date is after the [to] date no row passes: the filter
    does not reject the range, it returns no rows. *)
Theorem filter_inverted_range (toLowerCase : str -> str)
    (rows : list Transaction.t) (f : TxnFilter.t) (d1 d2 : str) :
  supplied (TxnFilter.from f) d1 -> supplied (TxnFilter.to f) d2 ->
  str_lt d2 d1 ->
  filterTransactions toLowerCase rows f = [].
Proof.
  intros [F N1] [T N2] L. unfold filterTransactions.
  induction rows as [|r rows IH]; [reflexivity|]. cbn [List.filter]. rewrite IH.
  replace (keepRow toLowerCase f (needleOf toLowerCase f) r) with false;
    [reflexivity|].
  symmetry. unfold keepRow. rewrite F, T. cbn [truthy orEmpty].
  apply nonEmpty_true in N1, N2. rewrite N1, N2. cbn [andb].
  destruct (match TxnFilter.type f with
            | Some (Only t) => negb (TxnType_eqb (Transaction.type r) t)
            | _ => false
            end); [reflexivity|].
  destruct (str_ltb (Transaction.date r) d1) eqn:E1; [reflexivity|].
  apply str_ltb_false_le in E1.
  replace (str_ltb d2 (Transaction.date r)) with true; [reflexivity|].
  symmetry. apply str_ltb_lt.
  destruct E1 as [<- | E1]; [assumption | now apply (str_lt_trans d2 d1)].
Qed.

Lemma filter_inverted_range_witness :
  supplied (Some (lit "2025-12-01")) (lit "2025-12-01")
  /\ supplied (Some (lit "2025-11-01")) (lit "2025-11-01")
  /\ str_lt (lit "2025-11-01") (lit "2025-12-01")
  /\ filterTransactions asciiLower transactions
       (TxnFilter.mk None (Some (lit "2025-12-01")) (Some (lit "2025-11-01"))
          None None None) = [].
Proof.
  assert (S1 : supplied (Some (lit "2025-12-01")) (lit "2025-12-01"))
    by (split; [reflexivity | discriminate]).
  assert (S2 : supplied (Some (lit "2025-11-01")) (lit "2025-11-01"))
    by (split; [reflexivity | discriminate]).
  assert (L : str_lt (lit "2025-11-01") (lit "2025-12-01"))
    by (apply str_ltb_lt; reflexivity).
  split; [exact S1|]. split; [exact S2|]. split; [exact L|].
  apply (filter_inverted_range asciiLower transactions
           (TxnFilter.mk None (Some (lit "2025-12-01")) (Some (lit "2025-11-01"))
              None None None) _ _ S1 S2 L).
Defined.

(** ** Router: what a detail id can be *)

Lemma utf16Encode_nonempty (cp : Z) (r : str) : utf16Encode cp ++ r <> [].
Proof. unfold utf16Encode. destruct (cp <? 65536); discriminate. Qed.

Lemma decodeTokens_nonempty (ts : list token) (id : str) :
  decodeTokens ts = Normal id -> ts <> [] -> id <> [].
Proof.
  destruct ts as [|tok l]; [congruence|]. intros H _. revert H.
  destruct tok as [c|b]; cbn [decodeTokens].
  - destruct (decodeTokens l); cbn [bind]; intros H; [|discriminate].
    injection H as <-. discriminate.
  - repeat match goal with
           | |- context [if ?b then _ else _] => destruct b
           | |- context [match ?x with [] => _ | _ :: _ => _ end] => destruct x
           | |- context [match ?x with Lit _ => _ | Oct _ => _ end] => destruct x
           | |- context [bind ?m _] => destruct m; cbn [bind]
           end;
      intros H; try discriminate; injection H as <-;
      (discriminate || apply utf16Encode_nonempty).
Qed.

Lemma octets_nonempty (e : str) (ts : list token) :
  octets e = Normal ts -> e <> [] -> ts <> [].
Proof.
  destruct e as [|c t]; [congruence|]. intros H _. revert H. cbn [octets].
  repeat match goal with
         | |- context [if ?b then _ else _] => destruct b
         | |- context [match ?x with [] => _ | _ :: _ => _ end] => destruct x
         | |- context [match ?x with Some _ => _ | None => _ end] => destruct x
         | |- context [bind ?m _] => destruct m; cbn [bind]
         end;
    intros H; try discriminate; injection H as <-; discriminate.
Qed.

Lemma decode_nonempty (e id : str) :
  decodeURIComponent e = Normal id -> e <> [] -> id <> [].
Proof.
  unfold decodeURIComponent. destruct (octets e) as [ts|] eqn:O; cbn [bind];
    [|discriminate].
  intros D N. apply (decodeTokens_nonempty ts); [assumption|].
  now apply (octets_nonempty e).
Qed.

Lemma routeOfPath_detail (p id : str) :
  routeOfPath p = Normal (eventDetail id) \/ routeOfPath p = Normal (billDetail id) ->
  id <> [].
Proof.
  unfold routeOfPath. destruct (pathParts p) as [|p0 parts]; [intros [H|H]; discriminate|].
  set (second := nth_error (p0 :: parts) 1).
  destruct (truthy second) eqn:T.
  - assert (N : orEmpty second <> []).
    { destruct second as [s|]; [|discriminate]. now apply nonEmpty_true. }
    destruct (decodeURIComponent (orEmpty second)) as [id'|] eqn:D; cbn [bind].
    + pose proof (decode_nonempty _ _ D N) as Nid.
      repeat match goal with
             | |- context [if ?b then _ else _] => destruct b
             end; intros [H|H]; try discriminate; injection H as <-; assumption.
    + repeat match goal with
             | |- context [if ?b then _ else _] => destruct b
             end; intros [H|H]; discriminate.
  - repeat match goal with
           | |- context [if ?b then _ else _] => destruct b
           end; intros [H|H]; discriminate.
Qed.

(** [routeOf] never returns a detail route with an empty id.  This is a
    property of the body of [routeOf], which sees only the path of the parsed
    URL: it holds for every path, whatever URL (absolute or relative) the
    path was taken from, and so for every result of [routeOf]. *)
Theorem routeOf_detail_id (id : str) :
  (forall pathname,
      routeOfPath pathname = Normal (eventDetail id)
      \/ routeOfPath pathname = Normal (billDetail id) ->
      id <> [])
  /\ (forall u,
        routeOf u = Some (Normal (eventDetail id))
        \/ routeOf u = Some (Normal (billDetail id)) ->
        id <> []).
Proof.
  split; [intros pathname; apply routeOfPath_detail|].
  intros u. unfold routeOf. destruct (urlPathname u) as [[p|e]|];
    try (intros [H|H]; discriminate).
  intros H. apply (routeOfPath_detail p).
  destruct H as [H|H]; injection H as H; [now left | now right].
Qed.

Lemma routeOf_detail_id_witness :
  (routeOfPath (lit "//bills//b-001/") = Normal (eventDetail (lit "b-001"))
   \/ routeOfPath (lit "//bills//b-001/") = Normal (billDetail (lit "b-001")))
  /\ lit "b-001" <> [].
Proof.
  assert (H : routeOfPath (lit "//bills//b-001/") = Normal (eventDetail (lit "b-001"))
              \/ routeOfPath (lit "//bills//b-001/") = Normal (billDetail (lit "b-001")))
    by (right; reflexivity).
  split; [exact H | exact (proj1 (routeOf_detail_id _) _ H)].
Defined.

(** ** Router: inputs that are not URLs, queries and fragments *)

Lemma dropWhile_last (p : char -> bool) (a : str) (c : char) (b : str) :
  p c = false -> dropWhile p (a ++ c :: b) = dropWhile p a ++ c :: b.
Proof.
  intros H. induction a as [|x a IH]; cbn [app dropWhile].
  - now rewrite H.
  - destruct (p x); [assumption | reflexivity].
Qed.

Lemma dropWhileEnd_split (p : char -> bool) (a : str) (c : char) (b : str) :
  p c = false -> dropWhileEnd p (a ++ c :: b) = a ++ c :: dropWhileEnd p b.
Proof.
  intros H. unfold dropWhileEnd.
  replace (rev (a ++ c :: b)) with (rev b ++ c :: rev a)
    by (rewrite rev_app_distr; cbn [rev]; now rewrite <- app_assoc).
  rewrite dropWhile_last by assumption.
  rewrite rev_app_distr. cbn [rev]. rewrite rev_involutive, <- app_assoc.
  reflexivity.
Qed.

Lemma preprocess_head (c : char) (t : str) :
  32 < c -> exists t', URL.preprocess (c :: t) = c :: t'.
Proof.
  intros H. unfold URL.preprocess. cbn [dropWhile].
  replace (URL.isC0OrSpace c) with false by (symmetry; unfold URL.isC0OrSpace; bfalse).
  rewrite (dropWhileEnd_split _ [] c t) by (unfold URL.isC0OrSpace; bfalse).
  cbn [app List.filter].
  replace (URL.isTabOrNewline c) with false
    by (symmetry; unfold URL.isTabOrNewline; bfalse).
  cbn [negb]. eexists. reflexivity.
Qed.

(** An input that starts with a slash and holds [://] is parsed without a
    base and is not a URL: [routeOf] raises a TypeError, also when the
    [://] stands in the query. *)
Theorem routeOf_scheme_mark (t : str) :
  includes (47 :: t) (lit "://") = true ->
  routeOf (47 :: t) = Some (Throw TypeError).
Proof.
  intros H. unfold routeOf, urlPathname. rewrite H. unfold URL.pathnameNoBase.
  change (URL.codePoints (47 :: t)) with (47 :: URL.codePoints t).
  destruct (preprocess_head 47 (URL.codePoints t) ltac:(lia)) as [t' E].
  replace (URL.preprocess (47 :: URL.codePoints t)) with (47 :: t')
    by (symmetry; exact E).
  reflexivity.
Qed.

Lemma routeOf_scheme_mark_witness :
  includes (47 :: lit "ledger?next=https://example.com/") (lit "://") = true
  /\ routeOf (lit "/ledger?next=https://example.com/") = Some (Throw TypeError).
Proof.
  split; [reflexivity|].
  apply (routeOf_scheme_mark (lit "ledger?next=https://example.com/")). reflexivity.
Defined.

Lemma codePoints_eq (c : char) (t : str) :
  URL.codePoints (c :: t)
  = if isLead c then
      match t with
      | d :: t' => if isTrail d then pairCodePoint c d :: URL.codePoints t'
                   else 65533 :: URL.codePoints t
      | [] => [65533]
      end
    else if isTrail c then 65533 :: URL.codePoints t
    else c :: URL.codePoints t.
Proof. reflexivity. Qed.

Section QueryCut.

(** [m] is the question mark or the number sign. *)
Variable m : char.
Hypothesis m_mark : m = 63 \/ m = 35.

Lemma mark_facts :
  32 < m /\ isLead m = false /\ isTrail m = false /\ URL.isSlash m = false
  /\ (m =? 63) || (m =? 35) = true /\ (m =? 58) = false
  /\ URL.isSchemeChar m = false /\ isAlpha m = false.
Proof. destruct m_mark as [-> | ->]; repeat split; reflexivity || lia. Qed.

Lemma codePoints_cut_bounded (n : nat) (u x : str) :
  (List.length u <= n)%nat ->
  URL.codePoints (u ++ m :: x) = URL.codePoints u ++ m :: URL.codePoints x.
Proof.
  destruct mark_facts as (_ & L & T & _).
  revert u; induction n as [|n IH]; intros u Hn.
  - destruct u; [|simpl in Hn; lia]. cbn [app URL.codePoints]. now rewrite L, T.
  - destruct u as [|c [|d u]].
    + cbn [app URL.codePoints]. now rewrite L, T.
    + cbn [app URL.codePoints]. rewrite ?T, ?L.
      destruct (isLead c); [reflexivity|]. now destruct (isTrail c).
    + change ((c :: d :: u) ++ m :: x) with (c :: d :: (u ++ m :: x)).
      rewrite (codePoints_eq c (d :: (u ++ m :: x))), (codePoints_eq c (d :: u)).
      cbv beta iota.
      change (d :: u ++ m :: x) with ((d :: u) ++ m :: x).
      rewrite (IH u) by (simpl in Hn; lia).
      rewrite (IH (d :: u)) by (simpl in Hn |- *; lia).
      destruct (isLead c); [destruct (isTrail d); reflexivity|].
      now destruct (isTrail c).
Qed.

Lemma schemeRest_cut (a x : list Z) :
  URL.schemeRest (a ++ m :: x) = URL.schemeRest a.
Proof.
  destruct mark_facts as (_ & _ & _ & _ & _ & C & S & _).
  induction a as [|c a IH]; cbn [app URL.schemeRest].
  - now rewrite C, S.
  - destruct (c =? 58); [reflexivity|]. now destruct (URL.isSchemeChar c).
Qed.

Lemma pathState_cut (a x : list Z) (path : list str) (buffer : str) :
  URL.pathState (a ++ m :: x) path buffer = URL.pathState a path buffer.
Proof.
  destruct mark_facts as (_ & _ & _ & S & Q & _).
  revert path buffer; induction a as [|c a IH]; intros path buffer;
    cbn [app URL.pathState].
  - now rewrite S, Q.
  - destruct (URL.isSlash c); [apply IH|].
    destruct ((c =? 63) || (c =? 35)); [reflexivity | apply IH].
Qed.

Lemma codePoints_above (n : nat) (u : str) :
  (List.length u <= n)%nat ->
  Forall (fun c => 32 < c) u -> Forall (fun c => 32 < c) (URL.codePoints u).
Proof.
  revert u; induction n as [|n IH]; intros u Hn F.
  - destruct u; [constructor | simpl in Hn; lia].
  - destruct u as [|c [|d u]]; [constructor| |].
    + cbn [URL.codePoints]. inversion F; subst.
      destruct (isLead c); [repeat constructor; lia|].
      destruct (isTrail c); repeat constructor; lia.
    + rewrite codePoints_eq. inversion F as [|? ? Hc F1]; subst.
      inversion F1 as [|? ? Hd F2]; subst.
      assert (I1 : Forall (fun c => 32 < c) (URL.codePoints (d :: u)))
        by (apply IH; [simpl in Hn |- *; lia | assumption]).
      assert (I2 : Forall (fun c => 32 < c) (URL.codePoints u))
        by (apply IH; [simpl in Hn |- *; lia | assumption]).
      destruct (isLead c) eqn:L.
      * destruct (isTrail d) eqn:T; constructor; try assumption; try lia.
        unfold isLead in L. unfold isTrail in T. unfold pairCodePoint.
        apply andb_true_iff in L as [L1 L2]. apply andb_true_iff in T as [T1 T2].
        apply Z.leb_le in L1, L2, T1, T2. nia.
      * destruct (isTrail c); constructor; try assumption; lia.
Qed.

Lemma pathname_cut (u q : str) :
  Forall (fun c => 32 < c) u ->
  URL.pathnameOnBase (u ++ m :: q) = URL.pathnameOnBase u.
Proof.
  intros F0. destruct mark_facts as (M & L & T & S & Q & C & Sc & Al).
  unfold URL.pathnameOnBase.
  rewrite (codePoints_cut_bounded (List.length u)) by lia.
  pose proof (codePoints_above (List.length u) u (le_n _) F0) as F.
  set (s := URL.codePoints u) in *. set (x0 := URL.codePoints q).
  assert (P : exists q', URL.preprocess (s ++ m :: x0) = s ++ m :: q').
  { unfold URL.preprocess.
    assert (Hm : URL.isC0OrSpace m = false) by (unfold URL.isC0OrSpace; bfalse).
    assert (D : dropWhile URL.isC0OrSpace (s ++ m :: x0) = s ++ m :: x0).
    { destruct s as [|c s']; cbn [app dropWhile]; [now rewrite Hm|].
      inversion F; subst.
      now replace (URL.isC0OrSpace c) with false
        by (symmetry; unfold URL.isC0OrSpace; bfalse). }
    rewrite D, dropWhileEnd_split by assumption.
    rewrite filter_app. cbn [List.filter].
    replace (URL.isTabOrNewline m) with false
      by (symmetry; unfold URL.isTabOrNewline; bfalse).
    cbn [negb]. rewrite filter_all.
    - eexists. reflexivity.
    - eapply Forall_impl; [|exact F]. intros c Hc. cbv beta in Hc.
      unfold URL.isTabOrNewline. btrue. }
  destruct P as [x ->]. rewrite (preprocess_none s F).
  assert (H : URL.hasScheme (s ++ m :: x) = URL.hasScheme s).
  { destruct s as [|c s']; cbn [app URL.hasScheme]; [now rewrite Al|].
    now rewrite schemeRest_cut. }
  rewrite H. destruct (URL.hasScheme s); [reflexivity|].
  destruct s as [|c rest]; cbn [app].
  - now rewrite S, Q.
  - destruct (URL.isSlash c).
    + destruct rest as [|d rest']; cbn [app].
      * rewrite S. cbn [URL.pathState]. now rewrite S, Q.
      * destruct (URL.isSlash d); [reflexivity|].
        change (d :: rest' ++ m :: x) with ((d :: rest') ++ m :: x).
        now rewrite pathState_cut.
    + destruct ((c =? 63) || (c =? 35)); [reflexivity|].
      change (c :: rest ++ m :: x) with ((c :: rest) ++ m :: x).
      now rewrite pathState_cut.
Qed.

End QueryCut.

Lemma includes_prefix (u v p : str) :
  includes (u ++ v) p = false -> includes u p = false.
Proof.
  intros H. destruct (includes u p) eqn:E; [|reflexivity].
  apply includes_spec in E as (a & b & ->).
  assert (I : includes ((a ++ p ++ b) ++ v) p = true).
  { apply includes_spec. exists a, (b ++ v). now rewrite <- !app_assoc. }
  congruence.
Qed.

Lemma codePoints_head_slash (d : char) (t : str) :
  match URL.codePoints (d :: t) with
  | d' :: _ => URL.isSlash d' = true -> URL.isSlash d = true
  | [] => True
  end.
Proof.
  rewrite codePoints_eq.
  destruct (isLead d) eqn:L.
  - destruct t as [|e t]; [discriminate|].
    destruct (isTrail e) eqn:T; [|discriminate].
    unfold isLead in L. unfold isTrail in T. unfold URL.isSlash, pairCodePoint.
    apply andb_true_iff in L as [L1 L2]. apply andb_true_iff in T as [T1 T2].
    apply Z.leb_le in L1, L2, T1, T2. intros H. exfalso.
    apply orb_true_iff in H as [H|H]; apply Z.eqb_eq in H; lia.
  - destruct (isTrail d); [discriminate | trivial].
Qed.

Lemma pathname_defined (u : str) :
  Forall (fun c => 32 < c) u -> pathReference u ->
  exists p, URL.pathnameOnBase u = Some (Normal p).
Proof.
  intros F [Hs Hd]. unfold URL.pathnameOnBase.
  rewrite (preprocess_none _ (codePoints_above (List.length u) u (le_n _) F)).
  rewrite Hs.
  destruct u as [|c [|d t]].
  - eexists; reflexivity.
  - cbn [URL.codePoints].
    destruct (isLead c); [eexists; reflexivity|].
    destruct (isTrail c); [eexists; reflexivity|].
    destruct (URL.isSlash c); [eexists; reflexivity|].
    destruct ((c =? 63) || (c =? 35)); eexists; reflexivity.
  - cbn [startsWithTwoSlashes] in Hd.
    destruct (URL.isSlash c) eqn:Sc.
    + cbn [andb] in Hd.
      assert (E : URL.codePoints (c :: d :: t) = c :: URL.codePoints (d :: t)).
      { rewrite codePoints_eq.
        unfold URL.isSlash in Sc.
        replace (isLead c) with false
          by (symmetry; unfold isLead;
              apply orb_true_iff in Sc as [H|H]; apply Z.eqb_eq in H; bfalse).
        replace (isTrail c) with false
          by (symmetry; unfold isTrail;
              apply orb_true_iff in Sc as [H|H]; apply Z.eqb_eq in H; bfalse).
        reflexivity. }
      rewrite E, Sc.
      pose proof (codePoints_head_slash d t) as Hh.
      destruct (URL.codePoints (d :: t)) as [|d' r]; [eexists; reflexivity|].
      destruct (URL.isSlash d') eqn:Sd; [|eexists; reflexivity].
      rewrite Hh in Hd by reflexivity. discriminate.
    + pose proof (codePoints_head_slash c (d :: t)) as Hh.
      destruct (URL.codePoints (c :: d :: t)) as [|c' r]; [eexists; reflexivity|].
      destruct (URL.isSlash c') eqn:Sc'.
      * rewrite Hh in Sc by reflexivity. discriminate.
      * destruct ((c' =? 63) || (c' =? 35)); eexists; reflexivity.
Qed.

(** A query or a fragment does not change the route.  For a reference [u]
    without a scheme, without two slashes at its start and without white
    space or control characters, [routeOf] gives a result, and it gives the
    same result when a question mark or a number sign and anything else
    follow, as long as the whole input does not hold [://]. *)
Theorem routeOf_ignores_query (u q : str) (m : char) :
  m = 63 \/ m = 35 ->
  Forall (fun c => 32 < c) u ->
  pathReference u ->
  includes (u ++ m :: q) (lit "://") = false ->
  exists r, routeOf u = Some r /\ routeOf (u ++ m :: q) = Some r.
Proof.
  intros M F R I. unfold routeOf, urlPathname.
  rewrite I, (includes_prefix _ _ _ I), (pathname_cut m M) by assumption.
  destruct (pathname_defined u F R) as [p ->]. eexists. split; reflexivity.
Qed.

Lemma routeOf_ignores_query_witness :
  (63 = 63 \/ 63 = 35)
  /\ Forall (fun c => 32 < c) (lit "/events/e-boba")
  /\ pathReference (lit "/events/e-boba")
  /\ includes (lit "/events/e-boba" ++ 63 :: lit "tab=budget#top") (lit "://") = false
  /\ routeOf (lit "/events/e-boba") = Some (Normal (eventDetail (lit "e-boba")))
  /\ routeOf (lit "/events/e-boba?tab=budget#top")
     = Some (Normal (eventDetail (lit "e-boba"))).
Proof.
  assert (M : 63 = 63 \/ 63 = 35) by now left.
  assert (F : Forall (fun c => 32 < c) (lit "/events/e-boba"))
    by (repeat constructor).
  assert (R : pathReference (lit "/events/e-boba")) by (split; reflexivity).
  assert (I : includes (lit "/events/e-boba" ++ 63 :: lit "tab=budget#top")
                (lit "://") = false) by reflexivity.
  split; [exact M|]. split; [exact F|]. split; [exact R|]. split; [exact I|].
  destruct (routeOf_ignores_query (lit "/events/e-boba") (lit "tab=budget#top")
              63 M F R I) as (r & H1 & H2).
  assert (E : r = Normal (eventDetail (lit "e-boba")))
    by (assert (H : routeOf (lit "/events/e-boba")
                    = Some (Normal (eventDetail (lit "e-boba")))) by reflexivity;
        congruence).
  split; [reflexivity|]. rewrite <- E. exact H2.
Defined.

(** ** Router: every id that [hrefFor] accepts *)

Lemma landing_detail (w e id : str) (detail : str -> ParsedRoute) (list : ParsedRoute) :
  Forall (fun c => isAlpha c = true) w -> (3 <= List.length w)%nat ->
  (forall p, routeOfPath p
             = match pathParts p with
               | [w'; e'] =>
                 if str_eqb w' w
                 then (if nonEmpty e'
                       then id' <- decodeURIComponent e' ;; Normal (detail id')
                       else routeOfPath p)
                 else routeOfPath p
               | _ => routeOfPath p
               end) ->
  routeOf (47 :: w ++ [47]) = Some (Normal list) ->
  routeOf (47 :: w ++ lit "/.") = Some (Normal list) ->
  routeOf (47 :: w ++ lit "/..") = Some (Normal home) ->
  isWellFormed id = true -> encodeURIComponent id = Normal e ->
  Forall EncChar e -> decodeURIComponent e = Normal id ->
  routeOf (47 :: w ++ 47 :: e) = Some (Normal (landing detail list id)).
Proof.
  intros Hw Hl Hroute R0 R1 R2 W He Hc Hd. unfold landing.
  destruct (str_eqb id []) eqn:E0.
  { apply str_eqb_eq in E0. subst id. cbn in He. injection He as <-. exact R0. }
  destruct (str_eqb id (lit ".")) eqn:E1.
  { apply str_eqb_eq in E1. subst id. cbn in He. injection He as <-. exact R1. }
  destruct (str_eqb id (lit "..")) eqn:E2.
  { apply str_eqb_eq in E2. subst id. cbn in He. injection He as <-. exact R2. }
  cbn [orb]. apply str_eqb_neq in E0, E1, E2.
  apply (detail_route w e id detail); try assumption.
  repeat split; assumption.
Qed.

(** For every well-formed id [hrefFor] gives a path and [routeOf] reads this
    path without raising: it lands on the detail route with the same id,
    except that the empty id and the id [.] land on the list route and the
    id [..] lands on the home route. *)
Theorem href_route_landing (id : str) :
  isWellFormed id = true ->
  (exists h, hrefFor (eventDetail id) = Normal h
             /\ routeOf h = Some (Normal (landing eventDetail Route.events id)))
  /\ (exists h, hrefFor (billDetail id) = Normal h
                /\ routeOf h = Some (Normal (landing billDetail Route.bills id))).
Proof.
  intros W. destruct (encode_decode id W) as (e & He & Hc & Hd).
  split.
  - exists (lit "/events/" ++ e). cbn [hrefFor]. rewrite He. split; [reflexivity|].
    apply (landing_detail (lit "events") e id eventDetail Route.events);
      try assumption; try reflexivity.
    + repeat constructor.
    + simpl; lia.
    + apply events_route.
  - exists (lit "/bills/" ++ e). cbn [hrefFor]. rewrite He. split; [reflexivity|].
    apply (landing_detail (lit "bills") e id billDetail Route.bills);
      try assumption; try reflexivity.
    + repeat constructor.
    + simpl; lia.
    + apply bills_route.
Qed.

Lemma href_route_landing_witness :
  isWellFormed (lit ".") = true
  /\ exists h, hrefFor (billDetail (lit ".")) = Normal h
               /\ routeOf h = Some (Normal Route.bills).
Proof.
  split; [reflexivity|].
  apply (href_route_landing (lit ".")). reflexivity.
Defined.

(** ** Self-test *)

Lemma keepRow_type (toLowerCase : str -> str) (f : TxnFilter.t) (needle : str)
    (r : Transaction.t) (t : TxnType) :
  TxnFilter.type f = Some (Only t) ->
  keepRow toLowerCase f needle r = true ->
  TxnType_eqb (Transaction.type r) t = true.
Proof.
  intros T. unfold keepRow. rewrite T.
  destruct (TxnType_eqb (Transaction.type r) t); [reflexivity | discriminate].
Qed.

(** Whatever the lower-casing, the environment and the money printer, the
    self-test passes every check but the one on the number of allowed
    emails: it reports nothing when there are five of them and that one
    issue otherwise. *)
Theorem selfTest_issues (toLowerCase : str -> str) (env : Env.t)
    (formatMoney : Z -> str) :
  selfTest toLowerCase env formatMoney
  = Some (Normal (if Nat.eqb (List.length (allowedEmails toLowerCase env)) 5
                  then []
                  else [lit "allowedEmails length !== 5"])).
Proof.
  unfold selfTest.
  change (routeOf (lit "/")) with (Some (Normal home)).
  change (routeOf (lit "/events")) with (Some (Normal Route.events)).
  change (routeOf (lit "/events/e-boba"))
    with (Some (Normal (eventDetail (lit "e-boba")))).
  cbn [andThen]. rewrite str_eqb_refl.
  match goal with
  | |- context [forallb ?p ?l] =>
    replace (forallb p l) with true
  end.
  2:{ symmetry. apply forallb_forall. intros x I.
      unfold filterTransactions in I. apply filter_In in I as [_ K].
      now apply (keepRow_type _ _ _ _ expense) in K. }
  change (hasDescent (sortTransactions transactions amount_asc)) with false.
  match goal with
  | |- context [includes (toCSV ?r ?c ?d) ?h] =>
    replace (includes (toCSV r c d) h) with true
  end.
  2:{ symmetry. apply includes_spec. eexists [], _. reflexivity. }
  match goal with
  | |- context [includes (explainTransactionsView ?f ?s) ?h] =>
    change (includes (explainTransactionsView f s) h) with true
  end.
  cbn [negb app]. now destruct (Nat.eqb _ 5).
Qed.

(** ** Lookups that miss *)

Lemma octets_throw (n : nat) (s : str) (e : exn) :
  (List.length s <= n)%nat -> octets s = Throw e -> e = URIError.
Proof.
  revert s; induction n as [|n IH]; intros s Hn.
  - destruct s; [discriminate | simpl in Hn; lia].
  - destruct s as [|c t]; [discriminate|]. cbn [octets].
    destruct (c =? 37).
    + destruct t as [|h1 [|h2 t']]; try congruence.
      destruct (hexVal h1), (hexVal h2); try congruence.
      destruct (octets t') eqn:O; cbn [bind]; [discriminate|].
      intros H. injection H as <-. apply (IH t'); [simpl in Hn; lia | exact O].
    + destruct (octets t) eqn:O; cbn [bind]; [discriminate|].
      intros H. injection H as <-. apply (IH t); [simpl in Hn; lia | exact O].
Qed.

Lemma decodeTokens_throw (n : nat) (l : list token) (e : exn) :
  (List.length l <= n)%nat -> decodeTokens l = Throw e -> e = URIError.
Proof.
  revert l; induction n as [|n IH]; intros l Hn.
  - destruct l; [discriminate | simpl in Hn; lia].
  - destruct l as [|tok l']; [discriminate|]. cbn [decodeTokens].
    assert (K : forall l2 (f : str -> completion str),
               (List.length l2 <= n)%nat ->
               (forall r, f r <> Throw e) ->
               (r <- decodeTokens l2 ;; f r) = Throw e -> e = URIError).
    { intros l2 f H2 Hf. destruct (decodeTokens l2) eqn:D; cbn [bind].
      - intros H. now apply Hf in H.
      - intros H. injection H as <-. now apply (IH l2). }
    destruct tok as [c|b].
    + apply K; [simpl in Hn; lia | discriminate].
    + repeat match goal with
             | |- (if ?b then _ else _) = _ -> _ => destruct b
             | |- match ?x with [] => _ | _ :: _ => _ end = _ -> _ => destruct x
             | |- match ?x with Lit _ => _ | Oct _ => _ end = _ -> _ => destruct x
             | |- Throw _ = Throw _ -> _ => congruence
             end;
        try (apply K; [simpl in Hn; lia | discriminate]).
Qed.

Lemma decode_throw (s : str) (e : exn) :
  decodeURIComponent s = Throw e -> e = URIError.
Proof.
  unfold decodeURIComponent. destruct (octets s) as [l|e'] eqn:O; cbn [bind].
  - apply (decodeTokens_throw (List.length l)). lia.
  - intros H. injection H as <-. apply (octets_throw (List.length s) s); [lia | exact O].
Qed.

Lemma routeOfPath_throw (pathname : str) (e : exn) :
  routeOfPath pathname = Throw e ->
  exists p0 p1 rest,
    pathParts pathname = p0 :: p1 :: rest
    /\ (p0 = lit "events" \/ p0 = lit "bills")
    /\ decodeURIComponent p1 = Throw e.
Proof.
  unfold routeOfPath. destruct (pathParts pathname) as [|p0 parts]; [discriminate|].
  destruct parts as [|p1 rest]; cbn [nth_error truthy orEmpty].
  - repeat match goal with
           | |- context [if ?b then _ else _] => destruct b
           end; discriminate.
  - destruct (str_eqb p0 (lit "events")) eqn:E.
    + apply str_eqb_eq in E.
      destruct (nonEmpty p1); [|discriminate].
      destruct (decodeURIComponent p1) eqn:D; cbn [bind]; [discriminate|].
      intros H. injection H as <-. exists p0, p1, rest. auto.
    + destruct (str_eqb p0 (lit "ledger")); [discriminate|].
      destruct (str_eqb p0 (lit "bills")) eqn:B.
      * apply str_eqb_eq in B.
        destruct (nonEmpty p1); [|discriminate].
        destruct (decodeURIComponent p1) eqn:D; cbn [bind]; [discriminate|].
        intros H. injection H as <-. exists p0, p1, rest. auto.
      * repeat match goal with
               | |- context [if ?b then _ else _] => destruct b
               end; discriminate.
Qed.

(** A path that misses falls back to the home route.  For the path of any
    parsed URL: when it has no segment, or its first segment is none of the
    six keywords, the body of [routeOf] returns the home route; and the only
    error the body can raise is the URIError of [decodeURIComponent] on the
    second segment of a path under [events] or [bills]. *)
Theorem routeOfPath_misses (pathname : str) :
  (pathParts pathname = [] -> routeOfPath pathname = Normal home)
  /\ (forall p0 rest,
        pathParts pathname = p0 :: rest -> ~ In p0 routeKeywords ->
        routeOfPath pathname = Normal home)
  /\ (forall e, routeOfPath pathname = Throw e ->
        e = URIError
        /\ exists p0 p1 rest,
             pathParts pathname = p0 :: p1 :: rest
             /\ (p0 = lit "events" \/ p0 = lit "bills")
             /\ decodeURIComponent p1 = Throw URIError).
Proof.
  split; [|split].
  - intros E. unfold routeOfPath. now rewrite E.
  - intros p0 rest. apply routeOfPath_fallback.
  - intros e H. destruct (routeOfPath_throw pathname e H) as (p0 & p1 & rest & E & K & D).
    pose proof (decode_throw p1 e D) as ->. split; [reflexivity|].
    exists p0, p1, rest. auto.
Qed.

Lemma routeOfPath_misses_witness :
  pathParts (lit "/nope/events/") = [lit "nope"; lit "events"]
  /\ ~ In (lit "nope") routeKeywords
  /\ routeOfPath (lit "/nope/events/") = Normal home.
Proof.
  assert (E : pathParts (lit "/nope/events/") = [lit "nope"; lit "events"])
    by reflexivity.
  assert (N : ~ In (lit "nope") routeKeywords)
    by (cbn; intuition discriminate).
  split; [exact E|]. split; [exact N|].
  exact (proj1 (proj2 (routeOfPath_misses (lit "/nope/events/"))) _ _ E N).
Defined.

Lemma tidyFrom_solid (pending a : str) (x : char) (s : str) :
  solid x ->
  tidyFrom pending (a ++ x :: s) = tidyFrom pending a ++ x :: tidyFrom [] s.
Proof.
  intros [W C]. revert pending; induction a as [|c a IH]; intros pending;
    cbn [app tidyFrom].
  - now rewrite W, C.
  - destruct (isWhiteSpace c); [apply IH|].
    destruct (c =? 44); rewrite IH; [reflexivity|].
    now rewrite <- app_assoc.
Qed.

Lemma join_in (sep c : str) (l : list str) :
  In c l -> exists a b, join sep l = a ++ c ++ b.
Proof.
  induction l as [|x l IH]; [contradiction|]. intros [->|I].
  - destruct l as [|y l].
    + exists [], []. cbn [join app]. now rewrite app_nil_r.
    + exists [], (sep ++ join sep (y :: l)). reflexivity.
  - destruct l as [|y l]; [contradiction|].
    destruct (IH I) as (a & b & E).
    exists (x ++ sep ++ a), b.
    change (join sep (x :: y :: l)) with (x ++ sep ++ join sep (y :: l)).
    rewrite E. now rewrite <- !app_assoc.
Qed.

Lemma tidy_keeps (head id a b : str) (h : char) :
  solid h -> wsBeforeComma head = false -> wsBeforeComma id = false ->
  Substring (h :: head ++ [ldquo] ++ id ++ [rdquo])
    (tidy (a ++ (h :: head ++ [ldquo] ++ id ++ [rdquo]) ++ b)).
Proof.
  intros Hh Hhead Hid. unfold tidy.
  assert (Q : forall q, q = ldquo \/ q = rdquo -> solid q)
    by (intros q [->| ->]; split; reflexivity).
  change ((h :: head ++ [ldquo] ++ id ++ [rdquo]) ++ b)
    with (h :: (head ++ [ldquo] ++ id ++ [rdquo]) ++ b).
  rewrite tidyFrom_solid by exact Hh.
  replace ((head ++ [ldquo] ++ id ++ [rdquo]) ++ b)
    with (head ++ ldquo :: (id ++ rdquo :: b))
    by (now rewrite <- !app_assoc).
  rewrite tidyFrom_solid by (apply Q; now left).
  rewrite tidyFrom_solid by (apply Q; now right).
  rewrite (tidyFrom_fixed [] id) by (constructor || exact Hid).
  rewrite (tidyFrom_fixed [] head) by (constructor || exact Hhead).
  exists (tidyFrom [] a), (tidyFrom [] b).
  cbn [app]. rewrite <- !app_assoc. cbn [app]. rewrite <- !app_assoc. reflexivity.
Qed.

Lemma explain_holds (f : TxnFilter.t) (sort : TxnSortKey) (head id : str) (h : char) :
  solid h -> wsBeforeComma head = false -> wsBeforeComma id = false ->
  In (h :: head ++ [ldquo] ++ id ++ [rdquo]) (clauses f sort) ->
  Substring (h :: head ++ [ldquo] ++ id ++ [rdquo]) (explainTransactionsView f sort).
Proof.
  intros Hh Hhead Hid I. rewrite explain_sentence.
  destruct (join_in (lit ", ") _ _ I) as (a & b & ->).
  replace (lit "Showing " ++ (a ++ (h :: head ++ [ldquo] ++ id ++ [rdquo]) ++ b) ++ lit ".")
    with ((lit "Showing " ++ a) ++ (h :: head ++ [ldquo] ++ id ++ [rdquo]) ++ (b ++ lit "."))
    by (now rewrite <- !app_assoc).
  now apply tidy_keeps.
Qed.

Lemma eventClause_miss (f : TxnFilter.t) (sort : TxnSortKey) (id : str) :
  supplied (TxnFilter.eventId f) id ->
  (forall ev, In ev events -> EventItem.id ev <> id) ->
  In (lit "for event " ++ [ldquo] ++ id ++ [rdquo]) (clauses f sort).
Proof.
  intros [E N] M. unfold clauses, eventClause. rewrite E. cbn [truthy orEmpty].
  replace (nonEmpty id) with true by (symmetry; now apply nonEmpty_true).
  rewrite eventTitleOr_miss by assumption.
  apply in_or_app. right. apply in_or_app. right. apply in_or_app. left.
  now left.
Qed.

Lemma billClause_miss (f : TxnFilter.t) (sort : TxnSortKey) (id : str) :
  supplied (TxnFilter.billId f) id ->
  (forall b, In b bills -> Bill.id b <> id) ->
  In (lit "linked to bill " ++ [ldquo] ++ id ++ [rdquo]) (clauses f sort).
Proof.
  intros [E N] M. unfold clauses, billClause. rewrite E. cbn [truthy orEmpty].
  replace (nonEmpty id) with true by (symmetry; now apply nonEmpty_true).
  rewrite billTitleOr_miss by assumption.
  do 3 (apply in_or_app; right). apply in_or_app. left. now left.
Qed.

(** An id that misses falls back to the raw id.  When the filter names an
    event (a bill) that no seed event (bill) has, the clause of the explain
    sentence carries the id as it is, between the quotation marks; and the
    sentence itself holds this clause unchanged when the id has no white
    space right before a comma.  An id with such white space loses it in the
    tidy pass: the id [a ,b] is shown as [a,b]. *)
Theorem explain_raw_id (f : TxnFilter.t) (sort : TxnSortKey) (id : str) :
  (supplied (TxnFilter.eventId f) id ->
   (forall ev, In ev events -> EventItem.id ev <> id) ->
   In (lit "for event " ++ [ldquo] ++ id ++ [rdquo]) (clauses f sort)
   /\ (wsBeforeComma id = false ->
       Substring (lit "for event " ++ [ldquo] ++ id ++ [rdquo])
         (explainTransactionsView f sort)))
  /\ (supplied (TxnFilter.billId f) id ->
      (forall b, In b bills -> Bill.id b <> id) ->
      In (lit "linked to bill " ++ [ldquo] ++ id ++ [rdquo]) (clauses f sort)
      /\ (wsBeforeComma id = false ->
          Substring (lit "linked to bill " ++ [ldquo] ++ id ++ [rdquo])
            (explainTransactionsView f sort)))
  /\ explainTransactionsView spacedIdFilter date_desc
     = lit "Showing all transaction types, for event " ++ [ldquo] ++ lit "a,b"
       ++ [rdquo] ++ lit ", most recent first.".
Proof.
  split; [|split; [|reflexivity]].
  - intros S M. pose proof (eventClause_miss f sort id S M) as I.
    split; [exact I|]. intros W.
    apply (explain_holds f sort (lit "or event ") id 102);
      [split; reflexivity | reflexivity | exact W | exact I].
  - intros S M. pose proof (billClause_miss f sort id S M) as I.
    split; [exact I|]. intros W.
    apply (explain_holds f sort (lit "inked to bill ") id 108);
      [split; reflexivity | reflexivity | exact W | exact I].
Qed.

Lemma explain_raw_id_witness :
  supplied (TxnFilter.eventId unknownEventFilter) (lit "e-gala")
  /\ (forall ev, In ev events -> EventItem.id ev <> lit "e-gala")
  /\ wsBeforeComma (lit "e-gala") = false
  /\ Substring (lit "for event " ++ [ldquo] ++ lit "e-gala" ++ [rdquo])
       (explainTransactionsView unknownEventFilter date_desc).
Proof.
  assert (S : supplied (TxnFilter.eventId unknownEventFilter) (lit "e-gala"))
    by (split; [reflexivity | discriminate]).
  assert (M : forall ev, In ev events -> EventItem.id ev <> lit "e-gala")
    by (intros ev I; cbn in I; intuition (subst; discriminate)).
  split; [exact S|]. split; [exact M|]. split; [reflexivity|].
  exact (proj2 (proj1 (explain_raw_id unknownEventFilter date_desc (lit "e-gala")) S M)
           eq_refl).
Defined.
